(** * Biotech-Paper-Puller: matching, scoring and URL handling

    A shallow embedding of [app/paper_lookup.py] and of [app/main.py].

    - Python [str] values are lists of Unicode code points ([pystr]).
    - Python [float] values are IEEE 754 binary64 numbers, embedded with the
      [SpecFloat] operations at precision 53 and maximal exponent 1024.
    - JSON payloads of the upstream sources are records whose optional
      fields are [option]s ([None] stands for a missing key or a [null]).
    - [difflib.SequenceMatcher] is transcribed from the CPython sources
      (b2j index with the automatic junk heuristic, [find_longest_match],
      [get_matching_blocks], [ratio]). *)

From stdpp Require Import gmap strings list pretty.
From Stdlib Require Import ZArith Lia.
From Stdlib Require Import Floats.SpecFloat.

Local Open Scope Z_scope.

#[local] Set Warnings "-clear-no-such-hyp".

(** ** Python strings *)

Abbreviation pystr := (list Z).

Fixpoint lit (s : string) : pystr :=
  match s with
  | EmptyString => []
  | String c r => Z.of_N (Ascii.N_of_ascii c) :: lit r
  end.

Definition in_range (lo hi c : Z) : bool := (lo <=? c) && (c <=? hi).

Definition is_lower_az (c : Z) : bool := in_range 97 122 c.
Definition is_upper_az (c : Z) : bool := in_range 65 90 c.
Definition is_digit (c : Z) : bool := in_range 48 57 c.

(** [str.isspace] on one code point, which is also what [\s] matches in a
    [str] pattern: the table of [_PyUnicode_IsWhitespace]. *)
Definition is_space (c : Z) : bool :=
  in_range 9 13 c || in_range 28 32 c || (c =? 133) || (c =? 160)
  || (c =? 5760) || in_range 8192 8202 c || (c =? 8232) || (c =? 8233)
  || (c =? 8239) || (c =? 8287) || (c =? 12288).

Definition ascii_lower (c : Z) : Z := if is_upper_az c then c + 32 else c.

Fixpoint drop_while (p : Z -> bool) (s : pystr) : pystr :=
  match s with
  | [] => []
  | c :: r => if p c then drop_while p r else s
  end.

(** [s.lstrip()], [s.rstrip()], [s.strip()] with a predicate for the
    stripped characters. *)
Definition lstrip (p : Z -> bool) (s : pystr) : pystr := drop_while p s.
Definition rstrip (p : Z -> bool) (s : pystr) : pystr :=
  rev (drop_while p (rev s)).
Definition strip (p : Z -> bool) (s : pystr) : pystr := rstrip p (lstrip p s).

(** [s.startswith(t)] and [s.endswith(t)]. *)
Fixpoint startswith (s t : pystr) {struct t} : bool :=
  match t, s with
  | [], _ => true
  | _ :: _, [] => false
  | d :: t', c :: s' => (c =? d) && startswith s' t'
  end.

Definition endswith (s t : pystr) : bool := startswith (rev s) (rev t).

(** [s.replace(" ", "")]. *)
Definition remove_spaces (s : pystr) : pystr :=
  filter (fun c => c ≠ 32) s.

(** [s.split(" ")[0]]: the part of [s] before its first U+0020. *)
Fixpoint first_space_field (s : pystr) : pystr :=
  match s with
  | [] => []
  | c :: r => if c =? 32 then [] else c :: first_space_field r
  end.

(** [s.split()[0]] when [s.split()] is not empty: the first maximal run of
    characters that are not white space. *)
Fixpoint take_non_space (s : pystr) : pystr :=
  match s with
  | [] => []
  | c :: r => if is_space c then [] else c :: take_non_space r
  end.

Definition first_whitespace_token (s : pystr) : pystr :=
  take_non_space (drop_while is_space s).

(** [re.sub(r"[^a-z0-9\s]", " ", s)]: every character outside the class is
    replaced on its own. *)
Definition keep_alnum_space (c : Z) : bool :=
  is_lower_az c || is_digit c || is_space c.

Definition sub_not_alnum_space (s : pystr) : pystr :=
  map (fun c => if keep_alnum_space c then c else 32) s.

(** [re.sub(r"\s+", " ", s)]: every maximal run of white space becomes one
    U+0020; [in_run] tells that the previous character was white space. *)
Fixpoint sub_space_runs (in_run : bool) (s : pystr) : pystr :=
  match s with
  | [] => []
  | c :: r =>
      if is_space c
      then (if in_run then sub_space_runs true r
            else 32 :: sub_space_runs true r)
      else c :: sub_space_runs false r
  end.

(** ** Python floats: IEEE 754 binary64 *)

Definition prec : Z := 53.
Definition emax : Z := 1024.

Abbreviation float := spec_float.

(** Conversion of a Python [int] to [float] (round to nearest, ties to
    even), as done implicitly by [2.0 * matches] and [... / length]. *)
Definition float_of_Z (z : Z) : float := binary_normalize prec emax z 0 false.

Definition fadd : float -> float -> float := SFadd prec emax.
Definition fsub : float -> float -> float := SFsub prec emax.
Definition fmul : float -> float -> float := SFmul prec emax.
Definition fdiv : float -> float -> float := SFdiv prec emax.

(** [x < y], [x > y] and [x <= y] on floats. *)
Definition flt (x y : float) : bool := SFltb x y.
Definition fgt (x y : float) : bool := SFltb y x.
Definition fle (x y : float) : bool := SFleb x y.

Definition is_nan (x : float) : bool :=
  match x with S754_nan => true | _ => false end.

(** A decimal literal [num / den] denotes the binary64 number nearest to
    it, which is what the correctly rounded quotient of the two integers
    gives when both are below 2^53. *)
Definition decimal_literal (num den : Z) : float :=
  fdiv (float_of_Z num) (float_of_Z den).

Definition f0_0 : float := S754_zero false.
Definition f1_0 : float := Eval vm_compute in float_of_Z 1.
Definition f2_0 : float := Eval vm_compute in float_of_Z 2.
Definition fminus1_0 : float := Eval vm_compute in SFopp (float_of_Z 1).
Definition f0_45 : float := Eval vm_compute in decimal_literal 45 100.
Definition f0_30 : float := Eval vm_compute in decimal_literal 30 100.
Definition f0_10 : float := Eval vm_compute in decimal_literal 10 100.
Definition f0_05 : float := Eval vm_compute in decimal_literal 5 100.

(** ** difflib.SequenceMatcher *)

(** A matcher built by [SequenceMatcher(None, a, b)]: the two sequences,
    the index [b2j] from an element of [b] to the increasing list of its
    positions, and the junk set ([isjunk] is [None], so it is empty). *)
Record SequenceMatcher := {
  sm_a : pystr;
  sm_b : pystr;
  sm_b2j : gmap Z (list Z);
  sm_bjunk : gset Z
}.

Abbreviation block := (Z * Z * Z)%type.
Abbreviation span := (Z * Z * Z * Z)%type.

Definition enumerate (s : pystr) : list (Z * Z) :=
  zip (seqZ 0 (Z.of_nat (length s))) s.

(** First loop of [__chain_b]: [b2j.setdefault(elt, []).append(i)]. *)
Definition b2j_all (b : pystr) : gmap Z (list Z) :=
  foldl (fun (b2j : gmap Z (list Z)) '(i, elt) =>
           <[elt := default [] (b2j !! elt) ++ [i]]> b2j)
        ∅ (enumerate b).

(** Last part of [__chain_b] with [autojunk=True]: in a sequence of at
    least 200 elements, those occurring more than [n // 100 + 1] times are
    popular and leave the index. *)
Definition is_popular (n : Z) (idxs : list Z) : bool :=
  (n / 100 + 1) <? Z.of_nat (length idxs).

Definition chain_b (b : pystr) : gmap Z (list Z) :=
  let b2j := b2j_all b in
  let n := Z.of_nat (length b) in
  if 200 <=? n
  then filter (fun kv : Z * list Z => is_popular n kv.2 = false) b2j
  else b2j.

Definition new_matcher (a b : pystr) : SequenceMatcher :=
  {| sm_a := a; sm_b := b; sm_b2j := chain_b b; sm_bjunk := ∅ |}.

(** [s[i]] for an index inside the sequence. *)
Definition char_at (s : pystr) (i : Z) : option Z :=
  if i <? 0 then None else s !! Z.to_nat i.

Definition same_char (x y : option Z) : bool :=
  match x, y with
  | Some c, Some d => c =? d
  | _, _ => false
  end.

Definition isbjunk (sm : SequenceMatcher) (x : option Z) : bool :=
  match x with
  | Some c => bool_decide (c ∈ sm_bjunk sm)
  | None => false
  end.

(** Inner loop of [find_longest_match] over [b2j.get(a[i], nothing)], with
    its [continue] and [break]. *)
Fixpoint flm_row (js : list Z) (blo bhi i : Z) (j2len newj2len : gmap Z Z)
    (best : block) : gmap Z Z * block :=
  match js with
  | [] => (newj2len, best)
  | j :: js' =>
      if j <? blo then flm_row js' blo bhi i j2len newj2len best
      else if bhi <=? j then (newj2len, best)
      else
        let k := default 0 (j2len !! (j - 1)) + 1 in
        let newj2len := <[j := k]> newj2len in
        let best := if best.2 <? k then (i - k + 1, j - k + 1, k) else best in
        flm_row js' blo bhi i j2len newj2len best
  end.

(** Body of [for i in range(alo, ahi)]. *)
Definition flm_step (sm : SequenceMatcher) (blo bhi : Z)
    (st : gmap Z Z * block) (i : Z) : gmap Z Z * block :=
  let js := match char_at (sm_a sm) i with
            | Some c => default [] (sm_b2j sm !! c)
            | None => []
            end in
  flm_row js blo bhi i st.1 ∅ st.2.

Definition flm_scan (sm : SequenceMatcher) (alo ahi blo bhi : Z) : block :=
  (foldl (flm_step sm blo bhi) (∅, (alo, blo, 0)) (seqZ alo (ahi - alo))).2.

(** The two kinds of [while] loops that grow the best block: backwards
    ([besti], [bestj] decrease) and forwards ([bestsize] increases).
    [junk] selects the loops over junk elements ([isbjunk(...)]) or the
    ones over the others ([not isbjunk(...)]).  The loop runs at most
    [fuel] times; [find_longest_match] passes a bound on its trip count. *)
Fixpoint extend_back (fuel : nat) (sm : SequenceMatcher) (junk : bool)
    (alo blo : Z) (best : block) : block :=
  match fuel with
  | O => best
  | S fuel' =>
      let '(besti, bestj, bestsize) := best in
      if (alo <? besti) && (blo <? bestj)
         && eqb (isbjunk sm (char_at (sm_b sm) (bestj - 1))) junk
         && same_char (char_at (sm_a sm) (besti - 1))
                      (char_at (sm_b sm) (bestj - 1))
      then extend_back fuel' sm junk alo blo
             (besti - 1, bestj - 1, bestsize + 1)
      else best
  end.

Fixpoint extend_forth (fuel : nat) (sm : SequenceMatcher) (junk : bool)
    (ahi bhi : Z) (best : block) : block :=
  match fuel with
  | O => best
  | S fuel' =>
      let '(besti, bestj, bestsize) := best in
      if (besti + bestsize <? ahi) && (bestj + bestsize <? bhi)
         && eqb (isbjunk sm (char_at (sm_b sm) (bestj + bestsize))) junk
         && same_char (char_at (sm_a sm) (besti + bestsize))
                      (char_at (sm_b sm) (bestj + bestsize))
      then extend_forth fuel' sm junk ahi bhi (besti, bestj, bestsize + 1)
      else best
  end.

Definition back_bound (alo : Z) (best : block) : nat :=
  Z.to_nat (best.1.1 - alo).
Definition forth_bound (ahi : Z) (best : block) : nat :=
  Z.to_nat (ahi - (best.1.1 + best.2)).

Definition find_longest_match (sm : SequenceMatcher) (alo ahi blo bhi : Z)
    : block :=
  let best := flm_scan sm alo ahi blo bhi in
  let best := extend_back (back_bound alo best) sm false alo blo best in
  let best := extend_forth (forth_bound ahi best) sm false ahi bhi best in
  let best := extend_back (back_bound alo best) sm true alo blo best in
  extend_forth (forth_bound ahi best) sm true ahi bhi best.

(** The work-list loop of [get_matching_blocks].  The Python list [queue]
    is used as a stack; its top is the head of the list here. *)
Fixpoint matching_loop (fuel : nat) (sm : SequenceMatcher)
    (queue : list span) (matching_blocks : list block) : list block :=
  match fuel, queue with
  | O, _ => matching_blocks
  | _, [] => matching_blocks
  | S fuel', (alo, ahi, blo, bhi) :: queue =>
      let '(i, j, k) := find_longest_match sm alo ahi blo bhi in
      if k =? 0 then matching_loop fuel' sm queue matching_blocks
      else
        let queue :=
          if (alo <? i) && (blo <? j) then (alo, i, blo, j) :: queue
          else queue in
        let queue :=
          if (i + k <? ahi) && (j + k <? bhi)
          then (i + k, ahi, j + k, bhi) :: queue
          else queue in
        matching_loop fuel' sm queue (matching_blocks ++ [(i, j, k)])
  end.

(** Order of tuples of integers, as used by [list.sort]. *)
Definition block_leb (x y : block) : bool :=
  let '(i1, j1, k1) := x in
  let '(i2, j2, k2) := y in
  (i1 <? i2) || ((i1 =? i2) && ((j1 <? j2) || ((j1 =? j2) && (k1 <=? k2)))).

Fixpoint insert_block (x : block) (l : list block) : list block :=
  match l with
  | [] => [x]
  | y :: l' => if block_leb x y then x :: l else y :: insert_block x l'
  end.

Definition sort_blocks (l : list block) : list block :=
  foldr insert_block [] l.

(** The loop that merges adjacent blocks; the state is
    [(i1, j1, k1, non_adjacent)]. *)
Definition collapse_step (st : block * list block) (x : block)
    : block * list block :=
  let '((i1, j1, k1), non_adjacent) := st in
  let '(i2, j2, k2) := x in
  if (i1 + k1 =? i2) && (j1 + k1 =? j2)
  then ((i1, j1, k1 + k2), non_adjacent)
  else ((i2, j2, k2),
        if k1 =? 0 then non_adjacent else non_adjacent ++ [(i1, j1, k1)]).

Definition collapse_blocks (l : list block) : list block :=
  let '((i1, j1, k1), non_adjacent) := foldl collapse_step ((0, 0, 0), []) l in
  if k1 =? 0 then non_adjacent else non_adjacent ++ [(i1, j1, k1)].

(** The trip count of the work-list loop is at most [2 * len(a) + 1]. *)
Definition matching_fuel (sm : SequenceMatcher) : nat :=
  S (2 * length (sm_a sm)).

Definition get_matching_blocks (sm : SequenceMatcher) : list block :=
  let la := Z.of_nat (length (sm_a sm)) in
  let lb := Z.of_nat (length (sm_b sm)) in
  let matching_blocks :=
    matching_loop (matching_fuel sm) sm [(0, la, 0, lb)] [] in
  collapse_blocks (sort_blocks matching_blocks) ++ [(la, lb, 0)].

Definition sum_sizes (l : list block) : Z :=
  foldr (fun (x : block) acc => x.2 + acc) 0 l.

(** [_calculate_ratio(matches, length)]. *)
Definition calculate_ratio (matches length : Z) : float :=
  if length =? 0 then f1_0
  else fdiv (fmul f2_0 (float_of_Z matches)) (float_of_Z length).

Definition ratio (sm : SequenceMatcher) : float :=
  let matches := sum_sizes (get_matching_blocks sm) in
  calculate_ratio matches
    (Z.of_nat (length (sm_a sm)) + Z.of_nat (length (sm_b sm))).

Example ratio_doc :
  ratio (new_matcher (lit "abcd") (lit "bcde")) = decimal_literal 75 100.
Proof. vm_compute. reflexivity. Qed.

Example blocks_doc :
  get_matching_blocks (new_matcher (lit "abxcd") (lit "abcd"))
  = [(0, 0, 2); (3, 2, 2); (5, 4, 0)].
Proof. vm_compute. reflexivity. Qed.

Example flm_doc :
  find_longest_match (new_matcher (lit " abcd") (lit "abcd abcd")) 0 5 0 9
  = (0, 4, 5).
Proof. vm_compute. reflexivity. Qed.

(** ** JSON documents of the upstream sources *)

(** A field that holds a string when it is there: the key can be missing,
    hold [null], or hold a string. *)
Inductive json_str :=
  | Missing
  | Null
  | Str (s : pystr).

(** [d.get(k) or ""] and [d.get(k, "") or ""]; also the argument of
    [normalize_text], which starts with [(value or "")]. *)
Definition or_empty (v : json_str) : pystr :=
  match v with
  | Str s => s
  | _ => []
  end.

(** [str(d.get(k, ""))]. *)
Definition py_str (v : json_str) : pystr :=
  match v with
  | Missing => []
  | Null => lit "None"
  | Str s => s
  end.

(** Truth value of a string: [not s] is [is_empty s]. *)
Definition is_empty (s : pystr) : bool :=
  match s with
  | [] => true
  | _ => false
  end.

Definition str_eqb (s t : pystr) : bool := bool_decide (s = t).

Record crossref_author := {
  family : json_str;
  given : json_str
}.

(** A Crossref work: [None] in [cr_title] or [cr_author] is a missing key
    or a [null]; an entry of the author list can be [null] as well. *)
Record crossref_item := {
  cr_title : option (list pystr);
  cr_author : option (list (option crossref_author));
  cr_DOI : json_str
}.

Record full_text_url := {
  ftu_url : json_str;
  ftu_documentStyle : json_str
}.

(** A Europe PMC result; [ep_fullTextUrl] is
    [result["fullTextUrlList"]["fullTextUrl"]], [None] when either level
    is missing or [null]. *)
Record europe_pmc_result := {
  ep_title : json_str;
  ep_firstAuthor : json_str;
  ep_fullTextUrl : option (list (option full_text_url));
  ep_pmcid : json_str
}.

(** The match dictionaries built for either source.  A key that a source
    does not set is [None] or the empty list here. *)
Record paper_match := {
  m_source : pystr;
  m_title : json_str;
  m_doi : json_str;
  m_score : float;
  m_pdf_links : list pystr;
  m_pdf_url : option pystr
}.

(** The six components of [urllib.parse.ParseResult]. *)
Record ParseResult := {
  scheme : pystr;
  netloc : pystr;
  path : pystr;
  params : pystr;
  query : pystr;
  fragment : pystr
}.

Definition uses_netloc : list pystr :=
  map lit [""; "ftp"; "http"; "gopher"; "nntp"; "telnet"; "imap"; "wais";
           "file"; "mms"; "https"; "shttp"; "snews"; "prospero"; "rtsp";
           "rtspu"; "rsync"; "svn"; "svn+ssh"; "sftp"; "nfs"; "git";
           "git+ssh"; "ws"; "wss"]%string.

(** [urlunsplit((scheme, netloc, url, query, fragment))]. *)
Definition urlunsplit (scheme netloc url query fragment : pystr) : pystr :=
  let url :=
    if negb (is_empty netloc)
       || (negb (is_empty scheme) && bool_decide (scheme ∈ uses_netloc)
           && negb (str_eqb (take 2 url) (lit "//")))
    then
      let url := if negb (is_empty url) && negb (str_eqb (take 1 url) (lit "/"))
                 then lit "/" ++ url else url in
      lit "//" ++ netloc ++ url
    else url in
  let url := if is_empty scheme then url else scheme ++ lit ":" ++ url in
  let url := if is_empty query then url else url ++ lit "?" ++ query in
  if is_empty fragment then url else url ++ lit "#" ++ fragment.

(** [parsed.geturl()], that is [urlunparse(parsed)]. *)
Definition geturl (p : ParseResult) : pystr :=
  let url := if is_empty (params p) then path p
             else path p ++ lit ";" ++ params p in
  urlunsplit (scheme p) (netloc p) url (query p) (fragment p).

(** ** The download cache of [app/main.py] *)

Record DownloadEntry := {
  url : pystr;
  filename : pystr;
  created_at : float
}.

Definition DOWNLOAD_TTL_SECONDS : Z := 30 * 60.

(** [re.sub(r"[^a-zA-Z0-9._-]+", "_", s)]: every maximal run of characters
    outside the class becomes one underscore. *)
Definition is_filename_char (c : Z) : bool :=
  is_lower_az c || is_upper_az c || is_digit c
  || (c =? 46) || (c =? 95) || (c =? 45).

Fixpoint sub_filename_runs (in_run : bool) (s : pystr) : pystr :=
  match s with
  | [] => []
  | c :: r =>
      if is_filename_char c then c :: sub_filename_runs false r
      else if in_run then sub_filename_runs true r
      else 95 :: sub_filename_runs true r
  end.

Definition is_underscore (c : Z) : bool := c =? 95.

(** ** The lookup code *)

Section Lookup.

(** [unicode_lower s i] is the lower-case form that [str.lower] gives to
    the code point at position [i] of [s] when that code point is not
    ASCII (the case tables of the Unicode database, which depend on the
    neighbours for the final sigma).  ASCII code points are lowered as
    written below. *)
Variable unicode_lower : pystr -> nat -> pystr.

(** [urllib.parse.urlparse]; [None] stands for the [ValueError] it raises
    on a malformed bracketed host or net location. *)
Variable urlparse : pystr -> option ParseResult.

Fixpoint lower_from (whole : pystr) (i : nat) (rest : pystr) : pystr :=
  match rest with
  | [] => []
  | c :: r =>
      (if (0 <=? c) && (c <? 128) then [ascii_lower c]
       else unicode_lower whole i)
      ++ lower_from whole (S i) r
  end.

Definition str_lower (s : pystr) : pystr := lower_from s 0 s.

(** *** paper_lookup.py *)

Definition normalize_text (value : pystr) : pystr :=
  let normalized := sub_not_alnum_space (str_lower value) in
  strip is_space (sub_space_runs false normalized).

Definition normalize_last_name (value : pystr) : pystr :=
  remove_spaces (normalize_text value).

Definition title_similarity (left right : pystr) : float :=
  if is_empty left || is_empty right then f0_0
  else ratio (new_matcher (normalize_text left) (normalize_text right)).

(** [(entry or {}).get("url", "")], with [None] read as the empty
    string: both are false in [if url and ...]. *)
Definition entry_url (entry : option full_text_url) : pystr :=
  or_empty (from_option ftu_url Missing entry).

(** [((entry or {}).get("documentStyle") or "").lower()]. *)
Definition entry_style (entry : option full_text_url) : pystr :=
  str_lower (or_empty (from_option ftu_documentStyle Missing entry)).

(** The test of the loop:
    [url and (style == "pdf" or url.lower().endswith(".pdf"))]. *)
Definition entry_is_pdf (entry : option full_text_url) : bool :=
  negb (is_empty (entry_url entry))
  && (str_eqb (entry_style entry) (lit "pdf")
      || endswith (str_lower (entry_url entry)) (lit ".pdf")).

Fixpoint first_pdf_entry (full_text_urls : list (option full_text_url))
    : option pystr :=
  match full_text_urls with
  | [] => None
  | entry :: rest =>
      if entry_is_pdf entry then Some (entry_url entry)
      else first_pdf_entry rest
  end.

Definition viewer_url (pmcid : pystr) : pystr :=
  lit "https://europepmc.org/articles/" ++ pmcid ++ lit "?pdf=render".

Definition extract_europe_pmc_pdf_url (result : europe_pmc_result)
    : option pystr :=
  let full_text_urls := default [] (ep_fullTextUrl result) in
  match first_pdf_entry full_text_urls with
  | Some url => Some url
  | None =>
      let pmcid := strip is_space (or_empty (ep_pmcid result)) in
      if is_empty pmcid then None else Some (viewer_url pmcid)
  end.

(** [normalize_last_name((author or {}).get("family", ""))]. *)
Definition author_last_name (author : option crossref_author) : pystr :=
  normalize_last_name (or_empty (from_option family Missing author)).

Definition crossref_candidate_title (item : crossref_item) : pystr :=
  match default [] (cr_title item) with
  | t :: _ => t
  | [] => []
  end.

Definition _score_crossref_item (item : crossref_item)
    (requested_title requested_first_author_last_name : pystr) : float :=
  let score := title_similarity (crossref_candidate_title item)
                 requested_title in
  let target_last_name :=
    normalize_last_name requested_first_author_last_name in
  if is_empty target_last_name then score
  else
    match default [] (cr_author item) with
    | [] => fsub score f0_05
    | first :: _ as authors =>
        let first_author_last_name := author_last_name first in
        if negb (is_empty first_author_last_name)
           && str_eqb first_author_last_name target_last_name
        then fadd score f0_30
        else if existsb
                  (fun author =>
                     str_eqb (author_last_name author) target_last_name)
                  authors
        then fadd score f0_10
        else score
    end.

(** The selection loop shared, line for line, by
    [pick_best_crossref_item] and [pick_best_europe_pmc_result]. *)
Definition pick_step {A} (score_of : A -> float)
    (st : option A * float) (item : A) : option A * float :=
  let score := score_of item in
  if fgt score st.2 then (Some item, score) else st.

Definition pick_best {A} (score_of : A -> float) (items : list A)
    : option A * float :=
  let '(best_item, best_score) :=
    foldl (pick_step score_of) (None, fminus1_0) items in
  if flt best_score f0_45 then (None, f0_0) else (best_item, best_score).

Definition pick_best_crossref_item (items : list crossref_item)
    (requested_title requested_first_author_last_name : pystr)
    : option crossref_item * float :=
  pick_best
    (fun item =>
       _score_crossref_item item requested_title
         requested_first_author_last_name)
    items.

(** [str(result.get("firstAuthor", "")).strip().split(" ")[0]]. *)
Definition europe_pmc_first_token (result : europe_pmc_result) : pystr :=
  let first_author_raw := strip is_space (py_str (ep_firstAuthor result)) in
  first_space_field first_author_raw.

Definition _score_europe_pmc_result (result : europe_pmc_result)
    (requested_title requested_first_author_last_name : pystr) : float :=
  let score := title_similarity (or_empty (ep_title result))
                 requested_title in
  let target_last_name :=
    normalize_last_name requested_first_author_last_name in
  if is_empty target_last_name then score
  else
    let first_author :=
      normalize_last_name (europe_pmc_first_token result) in
    if negb (is_empty first_author) && str_eqb first_author target_last_name
    then fadd score f0_30
    else score.

Definition pick_best_europe_pmc_result (results : list europe_pmc_result)
    (requested_title requested_first_author_last_name : pystr)
    : option europe_pmc_result * float :=
  pick_best
    (fun result =>
       _score_europe_pmc_result result requested_title
         requested_first_author_last_name)
    results.

Definition http_scheme (s : pystr) : bool :=
  str_eqb s (lit "http") || str_eqb s (lit "https").

(** The loop of [dedupe_urls] with its two accumulators.  The result is
    [None] when [urlparse] raises. *)
Fixpoint dedupe_loop (urls : list pystr) (seen : gset pystr)
    (deduped : list pystr) : option (list pystr) :=
  match urls with
  | [] => Some deduped
  | url :: rest =>
      match urlparse url with
      | None => None
      | Some parsed =>
          if negb (http_scheme (scheme parsed)) || is_empty (netloc parsed)
          then dedupe_loop rest seen deduped
          else
            let cleaned := geturl parsed in
            if bool_decide (cleaned ∈ seen)
            then dedupe_loop rest seen deduped
            else dedupe_loop rest ({[cleaned]} ∪ seen) (deduped ++ [cleaned])
      end
  end.

Definition dedupe_urls (urls : list pystr) : option (list pystr) :=
  dedupe_loop urls ∅ [].

Definition _pick_primary_match (crossref_match europe_pmc_match
    : option paper_match) : option paper_match :=
  match crossref_match, europe_pmc_match with
  | Some c, Some e =>
      if fgt (m_score e) (m_score c) then europe_pmc_match
      else crossref_match
  | Some _, None => crossref_match
  | None, _ => europe_pmc_match
  end.

Record discovery := {
  d_match : option paper_match;
  d_candidate_urls : list pystr;
  d_warnings : list pystr;
  d_crossref_match : option paper_match;
  d_europe_pmc_match : option paper_match
}.

Definition match_doi (m : option paper_match) : pystr :=
  or_empty (from_option m_doi Missing m).

(** [doi = (primary_match or {}).get("doi") or (crossref_match or {}).get("doi")],
    with a false value read as the empty string. *)
Definition discovery_doi (primary_match crossref_match : option paper_match)
    : pystr :=
  if is_empty (match_doi primary_match) then match_doi crossref_match
  else match_doi primary_match.

(** The list [candidate_urls] of [discover_paper] before deduplication:
    the Europe PMC link, then the Crossref links, then the Unpaywall link;
    [unpaywall doi] is what [fetch_unpaywall_pdf_url] returns for [doi]. *)
Definition collect_candidate_urls (crossref_match europe_pmc_match
    : option paper_match) (unpaywall_email : pystr)
    (unpaywall : pystr -> option pystr) : list pystr :=
  let primary_match := _pick_primary_match crossref_match europe_pmc_match in
  let doi := discovery_doi primary_match crossref_match in
  let candidate_urls :=
    match europe_pmc_match with
    | Some e => match m_pdf_url e with
                | Some u => if is_empty u then [] else [u]
                | None => []
                end
    | None => []
    end in
  let candidate_urls :=
    match crossref_match with
    | Some c => candidate_urls ++ m_pdf_links c
    | None => candidate_urls
    end in
  if negb (is_empty doi) && negb (is_empty unpaywall_email)
  then match unpaywall doi with
       | Some u => if is_empty u then candidate_urls
                   else candidate_urls ++ [u]
       | None => candidate_urls
       end
  else candidate_urls.

(** [discover_paper] after the two source look-ups: [crossref_match] and
    [europe_pmc_match] are what [fetch_crossref_match] and
    [fetch_europe_pmc_match] returned and [unpaywall_email] is the stripped
    environment setting.  The result is [None] when [dedupe_urls]
    raises. *)
Definition discover_paper (crossref_match europe_pmc_match
    : option paper_match) (unpaywall_email : pystr)
    (unpaywall : pystr -> option pystr) : option discovery :=
  let primary_match := _pick_primary_match crossref_match europe_pmc_match in
  let doi := discovery_doi primary_match crossref_match in
  let candidate_urls :=
    collect_candidate_urls crossref_match europe_pmc_match unpaywall_email
      unpaywall in
  let warnings :=
    if negb (is_empty doi) && is_empty unpaywall_email
    then [lit "UNPAYWALL_EMAIL is not set. Add it to increase legal full-text coverage."]
    else [] in
  match dedupe_urls candidate_urls with
  | None => None
  | Some urls =>
      Some {| d_match := primary_match;
              d_candidate_urls := urls;
              d_warnings := warnings;
              d_crossref_match := crossref_match;
              d_europe_pmc_match := europe_pmc_match |}
  end.

(** *** main.py *)

(** [_sanitize_filename] up to its last line: the value of [cleaned]
    that the function then cuts with [cleaned[:140]]. *)
Definition filename_before_cut (raw_title : pystr) : pystr :=
  let cleaned := strip is_underscore (sub_filename_runs false raw_title) in
  let cleaned := if is_empty cleaned then lit "paper" else cleaned in
  if endswith (str_lower cleaned) (lit ".pdf") then cleaned
  else cleaned ++ lit ".pdf".

Definition _sanitize_filename (raw_title : pystr) : pystr :=
  take 140 (filename_before_cut raw_title).

(** [_prune_download_cache] at time [now]. *)
Definition _prune_download_cache (now : float)
    (cache : gmap pystr DownloadEntry) : gmap pystr DownloadEntry :=
  filter (fun kv : pystr * DownloadEntry =>
            fgt (fsub now (created_at kv.2))
                (float_of_Z DOWNLOAD_TTL_SECONDS) = false)
         cache.

(** What one call of [_register_download] reads from its environment:
    the clock when pruning, the fresh [uuid4().hex] and the clock when
    the entry is created. *)
Record register_env := {
  env_prune_time : float;
  env_token : pystr;
  env_created_at : float
}.

Definition _register_download (env : register_env) (url title : pystr)
    (cache : gmap pystr DownloadEntry)
    : pystr * gmap pystr DownloadEntry :=
  let cache := _prune_download_cache (env_prune_time env) cache in
  let token := env_token env in
  let entry := {| url := url;
                  filename := _sanitize_filename
                                (if is_empty title then lit "paper"
                                 else title);
                  created_at := env_created_at env |} in
  (token, <[token := entry]> cache).

Record lookup_body := {
  body_match : option paper_match;
  body_candidate_urls : list pystr;
  body_download_available : bool;
  body_download : option (pystr * pystr);
  body_warnings : list pystr
}.

Inductive http_response :=
  | HTTPException (status_code : Z) (detail : pystr)
  | Ok200 (body : lookup_body).

Definition status_of (r : http_response) : Z :=
  match r with
  | HTTPException code _ => code
  | Ok200 _ => 200
  end.

(** The body of [lookup] after [result = await discover_paper(...)];
    [request_title] is [request.title]. *)
Definition lookup (env : register_env) (request_title : pystr)
    (result : discovery) (cache : gmap pystr DownloadEntry)
    : http_response * gmap pystr DownloadEntry :=
  let match_ := d_match result in
  let candidate_urls := d_candidate_urls result in
  match match_, candidate_urls with
  | None, [] =>
      (HTTPException 404
         (lit "No likely match found in the currently configured legal-access sources."),
       cache)
  | _, _ =>
      let '(download, cache) :=
        match candidate_urls with
        | first :: _ =>
            let title :=
              let t := or_empty (from_option m_title Missing match_) in
              if is_empty t then request_title else t in
            let '(token, cache) :=
              _register_download env first title cache in
            (Some (token, lit "/api/download/" ++ token), cache)
        | [] => (None, cache)
        end in
      (Ok200 {| body_match := match_;
                body_candidate_urls := candidate_urls;
                body_download_available :=
                  match download with Some _ => true | None => false end;
                body_download := download;
                body_warnings := d_warnings result |},
       cache)
  end.

End Lookup.

(** ** Instances used in the examples *)

(** A lower-casing table that leaves every code point outside ASCII as it
    is; it agrees with [str.lower] on ASCII strings. *)
Definition plain_lower (s : pystr) (i : nat) : pystr :=
  match s !! i with
  | Some c => [c]
  | None => []
  end.

(** [s.partition(c)] as an option: the parts before and after the first
    [c], when there is one. *)
Fixpoint split_first (c : Z) (s : pystr) : option (pystr * pystr) :=
  match s with
  | [] => None
  | d :: r =>
      if d =? c then Some ([], r)
      else match split_first c r with
           | Some (pre, post) => Some (d :: pre, post)
           | None => None
           end
  end.

Definition is_c0_or_space (c : Z) : bool := in_range 0 32 c.
Definition is_unsafe_url_byte (c : Z) : bool :=
  (c =? 9) || (c =? 13) || (c =? 10).
Definition is_scheme_char (c : Z) : bool :=
  is_lower_az c || is_upper_az c || is_digit c
  || (c =? 43) || (c =? 45) || (c =? 46).
Definition is_netloc_end (c : Z) : bool :=
  (c =? 47) || (c =? 63) || (c =? 35).

Fixpoint take_until (p : Z -> bool) (s : pystr) : pystr :=
  match s with
  | [] => []
  | c :: r => if p c then [] else c :: take_until p r
  end.

Fixpoint drop_until (p : Z -> bool) (s : pystr) : pystr :=
  match s with
  | [] => []
  | c :: r => if p c then s else drop_until p r
  end.

Definition uses_params : list pystr :=
  map lit [""; "ftp"; "hdl"; "prospero"; "http"; "imap"; "https"; "shttp";
           "rtsp"; "rtspu"; "sip"; "sips"; "mms"; "sftp"; "tel"]%string.

(** [_splitparams(url)]: the parameters start at the first [;] of the last
    path segment. *)
Fixpoint splitparams (url : pystr) : pystr * pystr :=
  match url with
  | [] => ([], [])
  | c :: r =>
      if bool_decide (47 ∈ r) then
        let '(u, p) := splitparams r in (c :: u, p)
      else
        match split_first 59 url with
        | Some (u, p) => (u, p)
        | None => (url, [])
        end
  end.

(** [urlparse] on the URLs whose net location is ASCII and has no square
    bracket, following [urlsplit] step by step.  The checks Python makes on
    bracketed hosts and on net locations outside ASCII are not transcribed:
    for those URLs this function answers [None]. *)
Definition urlparse_ascii (url : pystr) : option ParseResult :=
  let url := lstrip is_c0_or_space url in
  let url := filter (fun c => is_unsafe_url_byte c = false) url in
  let '(scheme, url) :=
    match split_first 58 url with
    | Some (c :: pre, post) =>
        if (is_lower_az c || is_upper_az c) && forallb is_scheme_char pre
        then (map ascii_lower (c :: pre), post)
        else ([], url)
    | _ => ([], url)
    end in
  let '(netloc, url) :=
    if str_eqb (take 2 url) (lit "//")
    then (take_until is_netloc_end (drop 2 url),
          drop_until is_netloc_end (drop 2 url))
    else ([], url) in
  if existsb (fun c => (c =? 91) || (c =? 93) || negb (in_range 0 127 c)) netloc
  then None
  else
    let '(url, fragment) :=
      match split_first 35 url with
      | Some (u, f) => (u, f)
      | None => (url, [])
      end in
    let '(url, query) :=
      match split_first 63 url with
      | Some (u, q) => (u, q)
      | None => (url, [])
      end in
    let '(url, params) :=
      if bool_decide (scheme ∈ uses_params) && bool_decide (59 ∈ url)
      then splitparams url
      else (url, []) in
    Some {| scheme := scheme; netloc := netloc; path := url;
            params := params; query := query; fragment := fragment |}.

(** ** Predicates used in the statements *)

(** A string in which white space only occurs as single U+0020 characters;
    with [in_run] set, it does not start with white space either. *)
Fixpoint spaced (in_run : bool) (s : pystr) : Prop :=
  match s with
  | [] => True
  | c :: r =>
      if is_space c then in_run = false ∧ c = 32 ∧ spaced true r
      else spaced false r
  end.

(** The characters left by [normalize_text]. *)
Definition is_normal_char (c : Z) : bool :=
  is_lower_az c || is_digit c || (c =? 32).

(** The reading of full-text extraction in the specification: the entry
    test is "the declared style is pdf or the URL ends in .pdf, letter case
    ignored", and the viewer URL is built whenever the record has a
    [pmcid]. *)
Definition stated_entry_is_pdf (unicode_lower : pystr → nat → pystr)
    (entry : option full_text_url) : bool :=
  str_eqb (entry_style unicode_lower entry) (lit "pdf")
  || endswith (str_lower unicode_lower (entry_url entry)) (lit ".pdf").

Fixpoint stated_first_pdf_entry (unicode_lower : pystr → nat → pystr)
    (full_text_urls : list (option full_text_url)) : option pystr :=
  match full_text_urls with
  | [] => None
  | entry :: rest =>
      if stated_entry_is_pdf unicode_lower entry then Some (entry_url entry)
      else stated_first_pdf_entry unicode_lower rest
  end.

Definition stated_extract_pdf_url (unicode_lower : pystr → nat → pystr)
    (result : europe_pmc_result) : option pystr :=
  match stated_first_pdf_entry unicode_lower
          (default [] (ep_fullTextUrl result)) with
  | Some url => Some url
  | None =>
      match ep_pmcid result with
      | Str (c :: r) => Some (viewer_url (c :: r))
      | _ => None
      end
  end.

(** The record of [test_extract_europe_pmc_pdf_url_prefers_explicit_pdf_url]. *)
Definition test_europe_pmc_result : europe_pmc_result :=
  {| ep_title := Missing;
     ep_firstAuthor := Missing;
     ep_fullTextUrl :=
       Some [Some {| ftu_url := Str (lit "https://example.org/html");
                     ftu_documentStyle := Str (lit "html") |};
             Some {| ftu_url := Str (lit "https://example.org/paper.pdf");
                     ftu_documentStyle := Str (lit "pdf") |}];
     ep_pmcid := Str (lit "PMC9999999") |}.

(** An entry tagged "pdf" that has no URL, followed by a usable one. *)
Definition europe_pmc_result_without_url : europe_pmc_result :=
  {| ep_title := Missing;
     ep_firstAuthor := Missing;
     ep_fullTextUrl :=
       Some [Some {| ftu_url := Missing;
                     ftu_documentStyle := Str (lit "pdf") |};
             Some {| ftu_url := Str (lit "https://example.org/paper.pdf");
                     ftu_documentStyle := Str (lit "pdf") |}];
     ep_pmcid := Missing |}.

(** A record with no full-text entry and a blank [pmcid]. *)
Definition europe_pmc_result_blank_pmcid : europe_pmc_result :=
  {| ep_title := Missing;
     ep_firstAuthor := Missing;
     ep_fullTextUrl := None;
     ep_pmcid := Str (lit "  ") |}.

(** The two records and the query of
    [test_pick_best_crossref_item_uses_title_and_author]. *)
Definition test_crossref_mismatch : crossref_item :=
  {| cr_title := Some [lit "A study that should not match"];
     cr_author := Some [Some {| family := Str (lit "Wrong");
                                given := Missing |}];
     cr_DOI := Str (lit "10.1000/nope") |}.

Definition test_crossref_match : crossref_item :=
  {| cr_title :=
       Some [lit "Editing CAR-T cells with CRISPR-Cas9 improves persistence"];
     cr_author := Some [Some {| family := Str (lit "Miller");
                                given := Missing |}];
     cr_DOI := Str (lit "10.1000/match") |}.

Definition test_title : pystr :=
  lit "Editing CAR-T cells with CRISPR Cas9 improves persistence".

Definition test_last_name : pystr := lit "Miller".

(** A record whose second author is the requested one. *)
Definition crossref_second_author : crossref_item :=
  {| cr_title := Some [lit "Editing CAR-T cells"];
     cr_author := Some [Some {| family := Str (lit "Wrong");
                                given := Missing |};
                        Some {| family := Str (lit "Miller");
                                given := Str (lit "Ann") |}];
     cr_DOI := Missing |}.

(** A record without authors. *)
Definition crossref_no_author : crossref_item :=
  {| cr_title := Some [lit "Editing CAR-T cells"];
     cr_author := None;
     cr_DOI := Missing |}.

(** A Europe PMC record whose first author field separates the surname
    from the initial with a tabulation (U+0009). *)
Definition europe_pmc_tab_author : europe_pmc_result :=
  {| ep_title := Str (lit "Gene therapy");
     ep_firstAuthor := Str (lit "Smith" ++ [9] ++ lit "J");
     ep_fullTextUrl := None;
     ep_pmcid := Missing |}.

(** A Europe PMC record with a surname of several words. *)
Definition europe_pmc_long_surname : europe_pmc_result :=
  {| ep_title := Str (lit "Gene therapy");
     ep_firstAuthor := Str (lit "van der Berg J");
     ep_fullTextUrl := None;
     ep_pmcid := Missing |}.

Definition crossref_long_surname : crossref_item :=
  {| cr_title := Some [lit "Gene therapy"];
     cr_author := Some [Some {| family := Str (lit "van der Berg");
                                given := Str (lit "J") |}];
     cr_DOI := Missing |}.

(** A key that orders the floats that are not NaN the way [SFcompare]
    does: sign class first, then exponent, then mantissa. *)
Definition fkey (x : float) : Z * Z * Z :=
  match x with
  | S754_zero _ => (0, 0, 0)
  | S754_infinity s => (if s then -2 else 2, 0, 0)
  | S754_nan => (0, 0, 0)
  | S754_finite s m e => if s then (-1, - e, Z.neg m) else (1, e, Z.pos m)
  end.

Definition key_lt (x y : Z * Z * Z) : Prop :=
  x.1.1 < y.1.1
  ∨ (x.1.1 = y.1.1 ∧ (x.1.2 < y.1.2 ∨ (x.1.2 = y.1.2 ∧ x.2 < y.2))).

Definition key_le (x y : Z * Z * Z) : Prop := key_lt x y ∨ x = y.

(** Two matches for the examples of the arbitration: a Crossref match of
    score 0.8 and a Europe PMC match of score 0.9. *)
Definition sample_crossref_match : paper_match :=
  {| m_source := lit "crossref";
     m_title := Str (lit "Gene therapy");
     m_doi := Str (lit "10.1000/match");
     m_score := decimal_literal 8 10;
     m_pdf_links := [lit "https://example.org/a.pdf"];
     m_pdf_url := None |}.

Definition sample_europe_pmc_match : paper_match :=
  {| m_source := lit "europe_pmc";
     m_title := Str (lit "Gene therapy");
     m_doi := Missing;
     m_score := decimal_literal 9 10;
     m_pdf_links := [];
     m_pdf_url := Some (lit "https://example.org/b.pdf") |}.

(** The [download] member of a response body; an error response has none. *)
Definition download_of (r : http_response) : option (pystr * pystr) :=
  match r with
  | Ok200 body => body_download body
  | HTTPException _ _ => None
  end.

(** Discovery results for the examples of the lookup endpoint. *)
Definition discovery_nothing : discovery :=
  {| d_match := None; d_candidate_urls := []; d_warnings := [];
     d_crossref_match := None; d_europe_pmc_match := None |}.

Definition discovery_with_url : discovery :=
  {| d_match := Some sample_crossref_match;
     d_candidate_urls := [lit "https://example.org/a.pdf"];
     d_warnings := [];
     d_crossref_match := Some sample_crossref_match;
     d_europe_pmc_match := None |}.

Definition discovery_match_only : discovery :=
  {| d_match := Some sample_europe_pmc_match;
     d_candidate_urls := [];
     d_warnings := [];
     d_crossref_match := None;
     d_europe_pmc_match := Some sample_europe_pmc_match |}.

Definition sample_env : register_env :=
  {| env_prune_time := float_of_Z 1700000000;
     env_token := lit "0123456789abcdef0123456789abcdef";
     env_created_at := float_of_Z 1700000000 |}.

(** The canonical form under which [dedupe_urls] keeps a URL, when it
    keeps it: the scheme is http or https and the net location is not
    empty. *)
Definition accepted_form (p : ParseResult) : option pystr :=
  if http_scheme (scheme p) && negb (is_empty (netloc p))
  then Some (geturl p) else None.

(** The canonical forms of the kept URLs in input order, duplicates
    included; [None] when [urlparse] raises on some URL. *)
Fixpoint accepted_urls (urlparse : pystr → option ParseResult)
    (urls : list pystr) : option (list pystr) :=
  match urls with
  | [] => Some []
  | u :: rest =>
      match urlparse u, accepted_urls urlparse rest with
      | Some p, Some l =>
          Some (match accepted_form p with
                | Some c => c :: l
                | None => l
                end)
      | _, _ => None
      end
  end.

(** Removal of duplicates that keeps the first occurrence of each
    element, in the order of the list. *)
Fixpoint keep_first (l : list pystr) : list pystr :=
  match l with
  | [] => []
  | x :: r => x :: filter (λ y, y ≠ x) (keep_first r)
  end.

(** A candidate URL comes from some input URL that parses with an http or
    https scheme and a net location. *)
Definition http_form_of (urlparse : pystr → option ParseResult)
    (urls : list pystr) (c : pystr) : Prop :=
  ∃ u p, u ∈ urls ∧ urlparse u = Some p
         ∧ http_scheme (scheme p) = true ∧ netloc p ≠ []
         ∧ c = geturl p.

(** The list of [test_dedupe_urls_keeps_only_http_and_https]. *)
Definition test_urls : list pystr :=
  [lit "https://example.org/a.pdf"; lit "https://example.org/a.pdf";
   lit "http://example.org/b.pdf"; lit "ftp://example.org/not-allowed.pdf";
   lit "javascript:alert(1)"].

(** *** Auxiliary notions for the matcher *)

(** A block that lies inside a span. *)
Definition block_in (alo ahi blo bhi : Z) (x : block) : Prop :=
  alo <= x.1.1 ∧ blo <= x.1.2 ∧ 0 <= x.2
  ∧ x.1.1 + x.2 <= ahi ∧ x.1.2 + x.2 <= bhi.

(** Bounds on the run lengths recorded for row [i]. *)
Definition row_bounded (alo blo bhi i : Z) (j2len : gmap Z Z) : Prop :=
  ∀ j v, j2len !! j = Some v →
         blo <= j < bhi ∧ 1 <= v ∧ v <= i - alo + 1 ∧ v <= j - blo + 1.

Definition span_ok (s : span) : Prop :=
  let '(alo, ahi, blo, bhi) := s in alo <= ahi ∧ blo <= bhi.

Definition span_cap (s : span) : Z :=
  let '(alo, ahi, blo, bhi) := s in Z.min (ahi - alo) (bhi - blo).

Definition queue_cap (queue : list span) : Z :=
  foldr (λ s acc, span_cap s + acc) 0 queue.

(** The increasing list of the positions of [c] in [s], counted from
    [i]. *)
Fixpoint positions_from (c i : Z) (s : pystr) : list Z :=
  match s with
  | [] => []
  | x :: r => (if x =? c then [i] else []) ++ positions_from c (i + 1) r
  end.

(** A list in which every element is smaller than the ones after it. *)
Fixpoint ascending (l : list Z) : Prop :=
  match l with
  | [] => True
  | j :: rest => Forall (λ x, j < x) rest ∧ ascending rest
  end.

(** The index list that [find_longest_match] walks through in row [i]
    when a sequence [s] is compared with itself. *)
Definition row_js (s : pystr) (i : Z) : list Z :=
  match char_at s i with
  | Some c => default [] (chain_b s !! c)
  | None => []
  end.

(** The number of consecutive positions up to [p] whose elements are in
    the index [b2j] (they are not popular). *)
Fixpoint run_nat (s : pystr) (p : nat) : Z :=
  match p with
  | O => if decide (row_js s 0 = []) then 0 else 1
  | S p' =>
      if decide (row_js s (Z.of_nat p) = []) then 0 else run_nat s p' + 1
  end.

Definition run (s : pystr) (p : Z) : Z :=
  if p <? 0 then 0 else run_nat s (Z.to_nat p).

(** Invariants of the scan of [find_longest_match] when a sequence [s] is
    compared with itself: after row [r], the recorded run lengths are
    bounded by the runs on the diagonal and the diagonal entry is exact;
    the best block lies on the diagonal and is at least as long as every
    diagonal run seen so far. *)
Definition diag_rows (s : pystr) (r : Z) (j2len : gmap Z Z) : Prop :=
  (∀ j v, j2len !! j = Some v →
          0 <= j < Z.of_nat (length s) ∧ 1 <= v
          ∧ v <= run s j ∧ v <= run s r)
  ∧ (row_js s r ≠ [] → j2len !! r = Some (run s r)).

Definition diag_best (s : pystr) (r : Z) (best : block) : Prop :=
  best.1.1 = best.1.2 ∧ 0 <= best.2
  ∧ ∀ p, 0 <= p <= r → run s p <= best.2.

(** Work left in the queue of [get_matching_blocks]: one turn of the
    loop for each span, and two more for each element of its first
    sequence. *)
Definition span_work (s : span) : Z :=
  let '(alo, ahi, blo, bhi) := s in 2 * (ahi - alo) + 1.

Definition queue_work (queue : list span) : Z :=
  foldr (λ s acc, span_work s + acc) 0 queue.

(** *** Auxiliary notions for the float operations *)

(** The last step of [binary_round_aux] on a rounded mantissa of 53 bits,
    or of 54 bits after a carry. *)
Definition round_finish (s : bool) (m e : Z) : float :=
  let '(mrs, e') := shr_fexp prec emax m e loc_Exact in
  match shr_m mrs with
  | 0 => S754_zero s
  | Z.pos m' =>
      if e' <=? emax - prec then S754_finite s m' e' else S754_infinity s
  | Z.neg _ => S754_nan
  end.

(** Rounding of a positive integer to binary64, in integer arithmetic:
    exponent before rounding, truncated mantissa, rounding direction. *)
Definition rn_exponent (n : Z) : Z := Z.log2 n + 1 - 53.

Definition rn_mantissa (n : Z) : Z :=
  let e := rn_exponent n in
  if e <=? 0 then n * 2 ^ (- e) else n / 2 ^ e.

Definition rn_up (n : Z) : bool :=
  let e := rn_exponent n in
  if e <=? 0 then false
  else
    let rem := n mod 2 ^ e in
    let half := 2 ^ (e - 1) in
    (half <? rem) || ((rem =? half) && Z.odd (n / 2 ^ e)).

Definition rn (n : Z) : Z * Z :=
  let m := rn_mantissa n + (if rn_up n then 1 else 0) in
  if m =? 2 ^ 53 then (2 ^ 52, rn_exponent n + 1) else (m, rn_exponent n).

(** The lengths that a Python [str] can have: [len] is at most
    [sys.maxsize], which is 2^63 - 1.  The statements on [ratio] are for
    normalized titles in that range. *)
Definition lengths_in_range (unicode_lower : pystr → nat → pystr)
    (left right : pystr) : Prop :=
  Z.of_nat (length (normalize_text unicode_lower left)) < 2 ^ 63
  ∧ Z.of_nat (length (normalize_text unicode_lower right)) < 2 ^ 63.

(** Zero or a finite number: neither NaN nor an infinity. *)
Definition is_finite (x : float) : bool :=
  match x with
  | S754_zero _ | S754_finite _ _ _ => true
  | _ => false
  end.

(** ** The other helpers of [paper_lookup.py] and [main.py] *)

(** [t in s] for two strings. *)
Fixpoint contains (s t : pystr) : bool :=
  startswith s t
  || match s with
     | [] => false
     | _ :: r => contains r t
     end.

(** [" ".join(parts)]. *)
Fixpoint join_space (parts : list pystr) : pystr :=
  match parts with
  | [] => []
  | [p] => p
  | p :: rest => p ++ 32 :: join_space rest
  end.

(** [str(n)] for an integer. *)
Definition str_of_int (n : Z) : pystr := lit (pretty n).

(** [d.get(k)]: a missing key reads as [None]. *)
Definition dict_get (v : json_str) : json_str :=
  match v with
  | Missing => Null
  | _ => v
  end.

(** An entry of the [link] list of a Crossref work. *)
Record crossref_link := {
  link_URL : json_str;
  link_content_type : json_str
}.

(** A Crossref work with the keys that [_build_crossref_match] reads
    besides those of [crossref_item].  [work_date_parts] is
    [item["issued"]["date-parts"]], [None] when either level is missing or
    [null]; a date part can be [null] and so can a number in it.
    [work_nonempty] is the truth value of the JSON object, false for [{}]
    only. *)
Record crossref_work := {
  work_item : crossref_item;
  work_link : option (list (option crossref_link));
  work_publisher : json_str;
  work_date_parts : option (list (option (list (option Z))));
  work_nonempty : bool
}.

(** A Europe PMC result with the keys that [_build_europe_pmc_match] reads
    besides those of [europe_pmc_result]; [hit_nonempty] is the truth
    value of the JSON object. *)
Record europe_pmc_hit := {
  hit_result : europe_pmc_result;
  hit_doi : json_str;
  hit_journalTitle : json_str;
  hit_pubYear : json_str;
  hit_authorString : json_str;
  hit_isOpenAccess : json_str;
  hit_nonempty : bool
}.

(** The dictionaries returned by [_build_crossref_match] and
    [_build_europe_pmc_match]: the keys that [discover_paper] and [lookup]
    read are in [md_match]; a key that a source does not set is [Missing],
    [None] or the empty list. *)
Record match_details := {
  md_match : paper_match;
  md_publisher : json_str;
  md_journal : json_str;
  md_year : json_str;
  md_authors : list pystr;
  md_first_author_last_name : json_str;
  md_is_open_access : option bool
}.

(** An entry of [oa_locations], and the Unpaywall payload. *)
Record oa_location := {
  loc_url_for_pdf : json_str;
  loc_url : json_str
}.

Record unpaywall_payload := {
  best_oa_location : option oa_location;
  oa_locations : option (list (option oa_location))
}.

(** What a request to an upstream source comes to.  [HTTPError]: the
    [try] block raised [httpx.HTTPError], in [client.get] or in
    [raise_for_status] (for Unpaywall the answer 404, which returns early,
    is counted here as well).  [BadBody]: [response.json()] raised.
    [Json]: the decoded body. *)
Inductive upstream (A : Type) :=
  | HTTPError
  | BadBody
  | Json (payload : A).

Arguments HTTPError {A}.
Arguments BadBody {A}.
Arguments Json {A} payload.

(** What the request of [download] for the stored URL comes to: an
    [httpx.HTTPError] with its message, or a response with its
    [content-type] and [content-disposition] headers and its content. *)
Inductive upstream_file :=
  | FetchFailed (exc : pystr)
  | Fetched (content_type content_disposition : option pystr)
            (content : list Z).

(** The answers of [download]: an [HTTPException], or a [Response] with
    its content, media type and [Content-Disposition] header. *)
Inductive download_response :=
  | DownloadException (status_code : Z) (detail : pystr)
  | DownloadResponse (content : list Z) (media_type : pystr)
                     (content_disposition : pystr).

Definition download_status (r : download_response) : Z :=
  match r with
  | DownloadException code _ => code
  | DownloadResponse _ _ _ => 200
  end.

(** The pattern searched by [_filename_from_content_disposition]: the
    word filename, an optional star, an equals sign, an optional UTF-8
    followed by two apostrophes, an optional double quote, then group 1,
    one or more characters other than a double quote and a semicolon, and
    an optional double quote.  The matcher of [re] returns the leftmost
    match and tries every optional item present before absent. *)

(** The character class of group 1. *)
Definition is_name_char (c : Z) : bool := negb ((c =? 34) || (c =? 59)).

Fixpoint take_while (p : Z -> bool) (s : pystr) : pystr :=
  match s with
  | [] => []
  | c :: r => if p c then c :: take_while p r else []
  end.

(** Group 1 and the optional closing quote at the start of [s]: the run
    is the longest one, since the closing quote may always be absent. *)
Definition match_name (s : pystr) : option pystr :=
  match take_while is_name_char s with
  | [] => None
  | name => Some name
  end.

(** The optional opening quote and what follows, at the start of [s]. *)
Definition match_quoted_name (s : pystr) : option pystr :=
  match s with
  | 34 :: r =>
      match match_name r with
      | Some name => Some name
      | None => match_name s
      end
  | _ => match_name s
  end.

(** The optional charset prefix and what follows, at the start of
    [s]. *)
Definition match_value (s : pystr) : option pystr :=
  if startswith s (lit "UTF-8''")
  then match match_quoted_name (drop 7 s) with
       | Some name => Some name
       | None => match_quoted_name s
       end
  else match_quoted_name s.

(** The whole pattern at the start of [s]. *)
Definition match_filename_here (s : pystr) : option pystr :=
  if startswith s (lit "filename")
  then match drop 8 s with
       | 42 :: 61 :: r => match_value r
       | 61 :: r => match_value r
       | _ => None
       end
  else None.

(** [re.search(pattern, s)], giving [match.group(1)]. *)
Fixpoint search_filename (s : pystr) : option pystr :=
  match match_filename_here s with
  | Some name => Some name
  | None =>
      match s with
      | [] => None
      | _ :: r => search_filename r
      end
  end.

(** The selection loop on a list of JSON values: on an entry that is not
    an object ([None] here, a [null] for instance) the scorer raises
    [AttributeError] at its first [.get], and the exception escapes; the
    state is [None] from then on. *)
Definition pick_step_nullable {A} (score_of : A -> float)
    (st : option (option A * float)) (item : option A)
    : option (option A * float) :=
  match st, item with
  | Some st, Some item => Some (pick_step score_of st item)
  | _, _ => None
  end.

Definition pick_best_nullable {A} (score_of : A -> float)
    (items : list (option A)) : option (option A * float) :=
  match foldl (pick_step_nullable score_of) (Some (None, fminus1_0)) items with
  | Some (best_item, best_score) =>
      Some (if flt best_score f0_45 then (None, f0_0)
            else (best_item, best_score))
  | None => None
  end.

(** [netloc.rpartition(c)[2]]: the part of [s] after its last [c], the
    whole of [s] when it holds none. *)
Fixpoint after_last (c : Z) (s : pystr) : pystr :=
  match s with
  | [] => []
  | d :: r =>
      if bool_decide (c ∈ r) then after_last c r
      else if d =? c then r else s
  end.

(** [parsed._hostinfo[0]] of [urllib.parse]: the host name of the net
    location as written, after the user information and before the port;
    [parsed.hostname] is [None] exactly when it is empty. *)
Definition hostinfo_hostname (p : ParseResult) : pystr :=
  let hostinfo := after_last 64 (netloc p) in
  match split_first 91 hostinfo with
  | Some (_, bracketed) => take_until (fun c => c =? 93) bracketed
  | None => take_until (fun c => c =? 58) hostinfo
  end.

Definition has_hostname (p : ParseResult) : bool :=
  negb (is_empty (hostinfo_hostname p)).

Section Sources.

Variable unicode_lower : pystr -> nat -> pystr.
Variable urlparse : pystr -> option ParseResult.

(** The builtin [round(x, 3)] on floats. *)
Variable round3 : float -> float.

Local Abbreviation str_lower := (str_lower unicode_lower).
Local Abbreviation dedupe_urls := (dedupe_urls urlparse).
Local Abbreviation _score_crossref_item :=
  (_score_crossref_item unicode_lower).
Local Abbreviation _score_europe_pmc_result :=
  (_score_europe_pmc_result unicode_lower).
Local Abbreviation extract_europe_pmc_pdf_url :=
  (extract_europe_pmc_pdf_url unicode_lower).
Local Abbreviation _sanitize_filename := (_sanitize_filename unicode_lower).
Local Abbreviation discover_paper := (discover_paper urlparse).
Local Abbreviation lookup := (lookup unicode_lower).

(** *** paper_lookup.py *)

(** [(link or {}).get("URL", "")], with [None] read as the empty string:
    both are false in [if url and ...]. *)
Definition link_url (link : option crossref_link) : pystr :=
  or_empty (from_option link_URL Missing link).

(** [((link or {}).get("content-type") or "").lower()]. *)
Definition link_type (link : option crossref_link) : pystr :=
  str_lower (or_empty (from_option link_content_type Missing link)).

(** The test of the loop: [url and "pdf" in content_type]. *)
Definition link_is_pdf (link : option crossref_link) : bool :=
  negb (is_empty (link_url link)) && contains (link_type link) (lit "pdf").

(** The list [links] at the end of the loop. *)
Definition crossref_pdf_urls (item : crossref_work) : list pystr :=
  link_url <$> filter (λ link, link_is_pdf link = true)
                 (default [] (work_link item)).

Definition extract_crossref_pdf_links (item : crossref_work)
    : option (list pystr) :=
  dedupe_urls (crossref_pdf_urls item).

Definition _extract_year_crossref (item : crossref_work) : option pystr :=
  match default [] (work_date_parts item) with
  | [] => None
  | first :: _ =>
      match default [] first with
      | [] => None
      | Some year :: _ => Some (str_of_int year)
      | None :: _ => Some (lit "None")
      end
  end.

(** The name built for one author:
    [" ".join(part for part in [given, family] if part).strip()]. *)
Definition author_given (author : crossref_author) : pystr :=
  strip is_space (or_empty (given author)).

Definition author_family (author : crossref_author) : pystr :=
  strip is_space (or_empty (family author)).

Definition author_name (author : crossref_author) : pystr :=
  strip is_space
    (join_space (filter (λ part, part ≠ [])
                   [author_given author; author_family author])).

(** The loop of [_format_crossref_authors] from position [index] on, with
    its two accumulators.  The result is [None] when an entry of the list
    is [null]: [author.get] then raises [AttributeError]. *)
Fixpoint format_authors_loop (index : nat)
    (authors : list (option crossref_author))
    (formatted_authors : list pystr) (first_author_last_name : option pystr)
    : option (list pystr * option pystr) :=
  match authors with
  | [] => Some (formatted_authors, first_author_last_name)
  | None :: _ => None
  | Some author :: rest =>
      let family := author_family author in
      let first_author_last_name :=
        if bool_decide (index = 0%nat) && negb (is_empty family)
        then Some family else first_author_last_name in
      let name := author_name author in
      let formatted_authors :=
        if is_empty name then formatted_authors
        else formatted_authors ++ [name] in
      format_authors_loop (S index) rest formatted_authors
        first_author_last_name
  end.

Definition _format_crossref_authors (item : crossref_item)
    : option (list pystr * option pystr) :=
  format_authors_loop 0 (default [] (cr_author item)) [] None.

(** The result is [None] when [_format_crossref_authors] or [dedupe_urls]
    raises. *)
Definition _build_crossref_match (item : crossref_work) (score : float)
    : option match_details :=
  let title := crossref_candidate_title (work_item item) in
  match _format_crossref_authors (work_item item) with
  | None => None
  | Some (authors, first_author_last_name) =>
      match extract_crossref_pdf_links item with
      | None => None
      | Some pdf_links =>
          Some {| md_match :=
                    {| m_source := lit "crossref";
                       m_title := Str title;
                       m_doi := dict_get (cr_DOI (work_item item));
                       m_score := round3 score;
                       m_pdf_links := pdf_links;
                       m_pdf_url := None |};
                  md_publisher := dict_get (work_publisher item);
                  md_journal := Missing;
                  md_year := from_option Str Null
                               (_extract_year_crossref item);
                  md_authors := authors;
                  md_first_author_last_name :=
                    from_option Str Null first_author_last_name;
                  md_is_open_access := None |}
      end
  end.

Definition _build_europe_pmc_match (result : europe_pmc_hit) (score : float)
    : match_details :=
  {| md_match :=
       {| m_source := lit "europe_pmc";
          m_title := dict_get (ep_title (hit_result result));
          m_doi := dict_get (hit_doi result);
          m_score := round3 score;
          m_pdf_links := [];
          m_pdf_url := extract_europe_pmc_pdf_url (hit_result result) |};
     md_publisher := Missing;
     md_journal := dict_get (hit_journalTitle result);
     md_year := dict_get (hit_pubYear result);
     md_authors :=
       if is_empty (or_empty (hit_authorString result)) then []
       else [or_empty (hit_authorString result)];
     md_first_author_last_name :=
       dict_get (ep_firstAuthor (hit_result result));
     md_is_open_access :=
       Some (str_eqb (str_lower (py_str (hit_isOpenAccess result)))
                     (lit "y")) |}.

(** [pick_best_crossref_item] and [pick_best_europe_pmc_result] on the
    lists of the payloads, whose entries are JSON objects or not; the
    result is [None] when the scorer raises. *)
Definition pick_best_crossref_work (items : list (option crossref_work))
    (requested_title requested_first_author_last_name : pystr)
    : option (option crossref_work * float) :=
  pick_best_nullable
    (fun item =>
       _score_crossref_item (work_item item) requested_title
         requested_first_author_last_name)
    items.

Definition pick_best_europe_pmc_hit (results : list (option europe_pmc_hit))
    (requested_title requested_first_author_last_name : pystr)
    : option (option europe_pmc_hit * float) :=
  pick_best_nullable
    (fun result =>
       _score_europe_pmc_result (hit_result result) requested_title
         requested_first_author_last_name)
    results.

(** [fetch_crossref_match] given what the request came to; the payload is
    [response.json()["message"]["items"]], [None] when a level is missing
    or false; an entry of the list is [None] when it is not a JSON object.
    The outer [None] of the result is an exception that escapes. *)
Definition fetch_crossref_match
    (response : upstream (option (list (option crossref_work))))
    (requested_title requested_first_author_last_name : pystr)
    : option (option match_details) :=
  match response with
  | HTTPError => Some None
  | BadBody => None
  | Json payload =>
      let items := default [] payload in
      match pick_best_crossref_work items requested_title
              requested_first_author_last_name with
      | None => None
      | Some (None, _) => Some None
      | Some (Some item, score) =>
          if work_nonempty item
          then Some <$> _build_crossref_match item score
          else Some None
      end
  end.

(** [fetch_europe_pmc_match]; the payload is
    [response.json()["resultList"]["result"]], with [None] for an entry
    that is not a JSON object. *)
Definition fetch_europe_pmc_match
    (response : upstream (option (list (option europe_pmc_hit))))
    (requested_title requested_first_author_last_name : pystr)
    : option (option match_details) :=
  match response with
  | HTTPError => Some None
  | BadBody => None
  | Json payload =>
      let results := default [] payload in
      match pick_best_europe_pmc_hit results requested_title
              requested_first_author_last_name with
      | None => None
      | Some (None, _) => Some None
      | Some (Some result, score) =>
          if hit_nonempty result
          then Some (Some (_build_europe_pmc_match result score))
          else Some None
      end
  end.

(** [(location or {}).get("url_for_pdf") or (location or {}).get("url")],
    with a false value read as the empty string. *)
Definition location_url (location : option oa_location) : pystr :=
  let url_for_pdf := or_empty (from_option loc_url_for_pdf Missing location) in
  if is_empty url_for_pdf
  then or_empty (from_option loc_url Missing location)
  else url_for_pdf.

(** The loop over [oa_locations]. *)
Fixpoint first_location_url (locations : list (option oa_location))
    : option pystr :=
  match locations with
  | [] => None
  | location :: rest =>
      let url := location_url location in
      if is_empty url then first_location_url rest else Some url
  end.

(** [fetch_unpaywall_pdf_url]; [response] is only looked at when a request
    is made. *)
Definition fetch_unpaywall_pdf_url (response : upstream unpaywall_payload)
    (doi unpaywall_email : pystr) : option (option pystr) :=
  if is_empty doi || is_empty unpaywall_email then Some None
  else
    match response with
    | HTTPError => Some None
    | BadBody => None
    | Json payload =>
        let direct := location_url (best_oa_location payload) in
        if negb (is_empty direct) then Some (Some direct)
        else Some (first_location_url (default [] (oa_locations payload)))
    end.

(** [discover_paper] with its three requests: [unpaywall_response doi] is
    what the Unpaywall request for [doi] comes to and [unpaywall_email_env]
    is the value of the environment variable.  The result is [None] when
    an exception escapes. *)
Definition discover_paper_requests
    (crossref_response : upstream (option (list (option crossref_work))))
    (europe_pmc_response : upstream (option (list (option europe_pmc_hit))))
    (unpaywall_response : pystr -> upstream unpaywall_payload)
    (unpaywall_email_env : pystr)
    (requested_title requested_first_author_last_name : pystr)
    : option discovery :=
  let unpaywall_email := strip is_space unpaywall_email_env in
  match fetch_crossref_match crossref_response requested_title
          requested_first_author_last_name with
  | None => None
  | Some crossref =>
      match fetch_europe_pmc_match europe_pmc_response requested_title
              requested_first_author_last_name with
      | None => None
      | Some europe_pmc =>
          let crossref_match := md_match <$> crossref in
          let europe_pmc_match := md_match <$> europe_pmc in
          let primary_match :=
            _pick_primary_match crossref_match europe_pmc_match in
          let doi := discovery_doi primary_match crossref_match in
          let unpaywall_url :=
            if negb (is_empty doi) && negb (is_empty unpaywall_email)
            then fetch_unpaywall_pdf_url (unpaywall_response doi) doi
                   unpaywall_email
            else Some None in
          match unpaywall_url with
          | None => None
          | Some unpaywall_url =>
              discover_paper crossref_match europe_pmc_match
                unpaywall_email (fun _ => unpaywall_url)
          end
      end
  end.

(** *** main.py *)

(** The constraints of [LookupRequest] on the two fields. *)
Definition LookupRequest_valid (title first_author_last_name : pystr)
    : bool :=
  (5 <=? Z.of_nat (length title)) && (Z.of_nat (length title) <=? 500)
  && (2 <=? Z.of_nat (length first_author_last_name))
  && (Z.of_nat (length first_author_last_name) <=? 100).

Definition _filename_from_content_disposition
    (content_disposition : option pystr) : option pystr :=
  match content_disposition with
  | None => None
  | Some header =>
      if is_empty header then None
      else
        match search_filename header with
        | None => None
        | Some name =>
            let filename := strip is_space name in
            if is_empty filename then None
            else Some (_sanitize_filename filename)
        end
  end.

(** The whole of [lookup], for a request that passed validation. *)
Definition lookup_requests (env : register_env)
    (crossref_response : upstream (option (list (option crossref_work))))
    (europe_pmc_response : upstream (option (list (option europe_pmc_hit))))
    (unpaywall_response : pystr -> upstream unpaywall_payload)
    (unpaywall_email_env : pystr)
    (title first_author_last_name : pystr)
    (cache : gmap pystr DownloadEntry)
    : option (http_response * gmap pystr DownloadEntry) :=
  match discover_paper_requests crossref_response europe_pmc_response
          unpaywall_response unpaywall_email_env
          (strip is_space title) (strip is_space first_author_last_name) with
  | None => None
  | Some result => Some (lookup env title result cache)
  end.

(** [response.headers.get("content-type", "application/octet-stream")
    .split(";")[0].strip()], then [media_type or "application/octet-stream"]. *)
Definition media_type_of (content_type : option pystr) : pystr :=
  let value := default (lit "application/octet-stream") content_type in
  let media_type := strip is_space (take_until (fun c => c =? 59) value) in
  if is_empty media_type then lit "application/octet-stream" else media_type.

Definition content_disposition_of (filename : pystr) : pystr :=
  lit "attachment; filename=" ++ 34 :: filename ++ [34].

(** [download] at time [now]; [fetch url] is what the request for [url]
    comes to. *)
Definition download (now : float) (token : pystr)
    (fetch : pystr -> upstream_file) (cache : gmap pystr DownloadEntry)
    : download_response * gmap pystr DownloadEntry :=
  let cache := _prune_download_cache now cache in
  match cache !! token with
  | None =>
      (DownloadException 404
         (lit "Download token not found or expired. Run lookup again to create a fresh token."),
       cache)
  | Some entry =>
      match fetch (url entry) with
      | FetchFailed exc =>
          (DownloadException 502
             (lit "Failed to fetch upstream full text: " ++ exc),
           cache)
      | Fetched content_type content_disposition content =>
          let filename :=
            match _filename_from_content_disposition content_disposition with
            | Some name => if is_empty name then filename entry else name
            | None => filename entry
            end in
          (DownloadResponse content (media_type_of content_type)
             (content_disposition_of filename),
           cache)
      end
  end.

End Sources.

(** ** Predicates used in the statements about the added code *)

(** A file name that can stand between the quotes of a
    [Content-Disposition] header and be used as a file name. *)
Definition safe_filename (name : pystr) : Prop :=
  name ≠ [] ∧ (length name ≤ 140)%nat
  ∧ Forall (λ c, is_filename_char c = true) name.

(** The states of [DOWNLOAD_CACHE]: the module starts with the empty
    dictionary, and the only code that changes it is [lookup] and
    [download]. *)
Inductive reachable_cache (unicode_lower : pystr → nat → pystr)
    : gmap pystr DownloadEntry → Prop :=
  | reachable_initial : reachable_cache unicode_lower ∅
  | reachable_lookup env request_title result cache :
      reachable_cache unicode_lower cache →
      reachable_cache unicode_lower
        (lookup unicode_lower env request_title result cache).2
  | reachable_download now token fetch cache :
      reachable_cache unicode_lower cache →
      reachable_cache unicode_lower
        (download unicode_lower now token fetch cache).2.

(** An entry that [_prune_download_cache] keeps at time [now]. *)
Definition live (now : float) (entry : DownloadEntry) : Prop :=
  fgt (fsub now (created_at entry)) (float_of_Z DOWNLOAD_TTL_SECONDS) = false.

(** An answer of a source whose listed entries are all JSON objects. *)
Definition is_object {A} (entry : option A) : bool :=
  match entry with
  | Some _ => true
  | None => false
  end.

Definition answers_objects {A}
    (response : upstream (option (list (option A)))) : bool :=
  match response with
  | HTTPError => true
  | BadBody => false
  | Json payload => forallb is_object (default [] payload)
  end.

(** [urlparse] raises on [u], or not. *)
Definition parses (urlparse : pystr → option ParseResult) (u : pystr)
    : bool :=
  match urlparse u with
  | Some _ => true
  | None => false
  end.

(** [urlparse] raises neither on [u] nor on the canonical form of [u]. *)
Definition parses_twice (urlparse : pystr → option ParseResult) (u : pystr)
    : bool :=
  match urlparse u with
  | Some p => parses urlparse (geturl p)
  | None => false
  end.

(** Answers of the three sources on which no step of [lookup] raises: the
    body is JSON, the listed entries are objects, no author of a Crossref
    work is [null], and [urlparse] raises on none of the URLs that reach
    it (the PDF links of the works and their canonical forms, the PDF URLs
    of the Europe PMC results, the URLs of the Unpaywall locations). *)
Definition crossref_work_usable (unicode_lower : pystr → nat → pystr)
    (urlparse : pystr → option ParseResult)
    (item : option crossref_work) : bool :=
  match item with
  | Some w =>
      forallb is_object (default [] (cr_author (work_item w)))
      && forallb (parses_twice urlparse) (crossref_pdf_urls unicode_lower w)
  | None => false
  end.

Definition crossref_answer_usable (unicode_lower : pystr → nat → pystr)
    (urlparse : pystr → option ParseResult)
    (response : upstream (option (list (option crossref_work)))) : bool :=
  match response with
  | HTTPError => true
  | BadBody => false
  | Json payload =>
      forallb (crossref_work_usable unicode_lower urlparse)
        (default [] payload)
  end.

Definition europe_pmc_hit_usable (unicode_lower : pystr → nat → pystr)
    (urlparse : pystr → option ParseResult)
    (result : option europe_pmc_hit) : bool :=
  match result with
  | Some h =>
      match extract_europe_pmc_pdf_url unicode_lower (hit_result h) with
      | Some u => parses urlparse u
      | None => true
      end
  | None => false
  end.

Definition europe_pmc_answer_usable (unicode_lower : pystr → nat → pystr)
    (urlparse : pystr → option ParseResult)
    (response : upstream (option (list (option europe_pmc_hit)))) : bool :=
  match response with
  | HTTPError => true
  | BadBody => false
  | Json payload =>
      forallb (europe_pmc_hit_usable unicode_lower urlparse)
        (default [] payload)
  end.

Definition unpaywall_answer_usable (urlparse : pystr → option ParseResult)
    (response : upstream unpaywall_payload) : bool :=
  match response with
  | HTTPError => true
  | BadBody => false
  | Json payload =>
      forallb (λ location, parses urlparse (location_url location))
        (best_oa_location payload :: default [] (oa_locations payload))
  end.

(** The surname kept for the first author of the list. *)
Definition first_family (l : list crossref_author) : option pystr :=
  match l with
  | a :: _ => if is_empty (author_family a) then None
              else Some (author_family a)
  | [] => None
  end.

(** The characters left by [normalize_last_name]. *)
Definition is_name_letter (c : Z) : bool := is_lower_az c || is_digit c.

(** A URL that [dedupe_urls] keeps as it is: it parses with an http or
    https scheme and a net location, and its canonical form is the URL
    itself. *)
Definition reparses (urlparse : pystr → option ParseResult) (c : pystr)
    : bool :=
  match urlparse c with
  | Some p => bool_decide (accepted_form p = Some c)
  | None => false
  end.

(** ** Records used in the examples of the added code *)

(** The links of [test_extract_crossref_pdf_links_filters_non_pdf_links]. *)
Definition test_links : list (option crossref_link) :=
  [Some {| link_URL := Str (lit "https://example.org/file.pdf");
           link_content_type := Str (lit "application/pdf") |};
   Some {| link_URL := Str (lit "https://example.org/xml");
           link_content_type := Str (lit "text/xml") |};
   Some {| link_URL := Str (lit "https://example.org/dup.pdf");
           link_content_type := Str (lit "application/pdf") |};
   Some {| link_URL := Str (lit "https://example.org/dup.pdf");
           link_content_type := Str (lit "application/pdf") |}].

(** The matching work of
    [test_pick_best_crossref_item_uses_title_and_author] with those links,
    and the other work of that test. *)
Definition sample_work : crossref_work :=
  {| work_item := test_crossref_match;
     work_link := Some test_links;
     work_publisher := Str (lit "Example Press");
     work_date_parts := Some [Some [Some 2021; Some 5]];
     work_nonempty := true |}.

Definition sample_work_mismatch : crossref_work :=
  {| work_item := test_crossref_mismatch;
     work_link := None;
     work_publisher := Missing;
     work_date_parts := None;
     work_nonempty := true |}.

(** A work whose author list holds a [null]. *)
Definition crossref_null_author : crossref_item :=
  {| cr_title := Some [lit "Gene therapy"];
     cr_author := Some [Some {| family := Str (lit "Smith");
                                given := Str (lit "J") |};
                        None];
     cr_DOI := Missing |}.

(** A Europe PMC result for the query of the Crossref test. *)
Definition sample_hit : europe_pmc_hit :=
  {| hit_result :=
       {| ep_title := Str test_title;
          ep_firstAuthor := Str (lit "Miller J");
          ep_fullTextUrl := ep_fullTextUrl test_europe_pmc_result;
          ep_pmcid := Str (lit "PMC9999999") |};
     hit_doi := Str (lit "10.1000/match");
     hit_journalTitle := Str (lit "Journal of Examples");
     hit_pubYear := Str (lit "2021");
     hit_authorString := Str (lit "Miller J, Doe A.");
     hit_isOpenAccess := Str (lit "Y");
     hit_nonempty := true |}.

(** An Unpaywall payload whose best location has a landing page only and
    whose second listed location has a PDF. *)
Definition sample_payload : unpaywall_payload :=
  {| best_oa_location :=
       Some {| loc_url_for_pdf := Null;
               loc_url := Str (lit "https://example.org/landing") |};
     oa_locations :=
       Some [None;
             Some {| loc_url_for_pdf := Str (lit "https://example.org/oa.pdf");
                     loc_url := Str (lit "https://example.org/oa") |}] |}.

Definition payload_without_url : unpaywall_payload :=
  {| best_oa_location := None;
     oa_locations :=
       Some [Some {| loc_url_for_pdf := Null; loc_url := Str [] |}] |}.

(** A stand-in for [round(x, 3)] in the examples: it leaves the score as
    it is. *)
Definition same_score (x : float) : float := x.

(** An upstream answer for the examples of [download]. *)
Definition sample_fetch (u : pystr) : upstream_file :=
  Fetched (Some (lit "application/pdf; charset=binary")) None (lit "%PDF").

Definition failing_fetch (u : pystr) : upstream_file :=
  FetchFailed (lit "timed out").

(** A URL with a port and no host name, and a Europe PMC match that
    carries it. *)
Definition url_without_host : pystr := lit "http://:80/a.pdf".

Definition match_without_host : paper_match :=
  {| m_source := lit "europe_pmc";
     m_title := Str (lit "Gene therapy");
     m_doi := Missing;
     m_score := decimal_literal 9 10;
     m_pdf_links := [];
     m_pdf_url := Some url_without_host |}.

(** * Properties *)

(** ** Strings *)

Lemma drop_while_suffix p s : ∃ t, s = t ++ drop_while p s.
Proof.
  induction s as [|c r [t Ht]]; simpl.
  - by exists [].
  - destruct (p c).
    + exists (c :: t). simpl. by f_equal.
    + by exists [].
Qed.

Lemma drop_while_head p s c r : drop_while p s = c :: r → p c = false.
Proof.
  induction s as [|d s IH]; simpl; [done|].
  destruct (p d) eqn:Hd; [done|]. by intros [= <- _].
Qed.

Lemma drop_while_id p s :
  match s with [] => True | c :: _ => p c = false end → drop_while p s = s.
Proof. destruct s as [|c r]; simpl; [done|]. by intros ->. Qed.

Lemma drop_while_idem p s : drop_while p (drop_while p s) = drop_while p s.
Proof.
  apply drop_while_id. destruct (drop_while p s) eqn:E; [done|].
  by eapply drop_while_head.
Qed.

Lemma rstrip_prefix p s : ∃ t, s = rstrip p s ++ t.
Proof.
  unfold rstrip. destruct (drop_while_suffix p (rev s)) as [t Ht].
  exists (rev t). rewrite <- rev_app_distr, <- Ht. by rewrite rev_involutive.
Qed.

Lemma rstrip_idem p s : rstrip p (rstrip p s) = rstrip p s.
Proof. unfold rstrip. by rewrite rev_involutive, drop_while_idem. Qed.

Lemma strip_idem p s : strip p (strip p s) = strip p s.
Proof.
  unfold strip, lstrip.
  assert (H : drop_while p (rstrip p (drop_while p s))
              = rstrip p (drop_while p s)).
  { apply drop_while_id.
    destruct (rstrip_prefix p (drop_while p s)) as [t Ht].
    destruct (rstrip p (drop_while p s)) as [|c r] eqn:E; [done|].
    simpl in Ht. by eapply drop_while_head. }
  rewrite H. apply rstrip_idem.
Qed.

Lemma Forall_drop_while (P : Z → Prop) p s :
  Forall P s → Forall P (drop_while p s).
Proof.
  induction 1 as [|c r Hc Hr IH]; simpl; [constructor|].
  destruct (p c); [done | by constructor].
Qed.

Lemma Forall_strip (P : Z → Prop) p s : Forall P s → Forall P (strip p s).
Proof.
  intros H. unfold strip, rstrip, lstrip.
  apply Forall_rev, Forall_drop_while, Forall_rev.
  by apply Forall_drop_while.
Qed.

Lemma spaced_weaken b s : spaced b s → spaced false s.
Proof.
  destruct s as [|c r]; simpl; [done|].
  destruct (is_space c); [|done]. by intros (_ & -> & ?).
Qed.

Lemma spaced_sub_space_runs b s : spaced b (sub_space_runs b s).
Proof.
  revert b. induction s as [|c r IH]; intros b; simpl; [done|].
  destruct (is_space c) eqn:Hc.
  - destruct b; simpl.
    + specialize (IH true). revert IH.
      generalize (sub_space_runs true r). intros l Hl. exact Hl.
    + change (is_space 32) with true. simpl. auto.
  - simpl. rewrite Hc. apply IH.
Qed.

Lemma sub_space_runs_spaced b s : spaced b s → sub_space_runs b s = s.
Proof.
  revert b. induction s as [|c r IH]; intros b; simpl; [done|].
  destruct (is_space c).
  - intros (-> & -> & H). f_equal. by apply IH.
  - intros H. f_equal. by apply IH.
Qed.

Lemma spaced_drop_while s : spaced false s → spaced false (drop_while is_space s).
Proof.
  induction s as [|c r IH]; simpl; [done|].
  destruct (is_space c) eqn:Hc; simpl.
  - intros (_ & _ & H). apply IH. by eapply spaced_weaken.
  - by rewrite Hc.
Qed.

Lemma spaced_app_l b s t : spaced b (s ++ t) → spaced b s.
Proof.
  revert b. induction s as [|c r IH]; intros b; simpl; [done|].
  destruct (is_space c).
  - intros (? & ? & H). repeat split; [done..|]. by eapply IH.
  - apply IH.
Qed.

Lemma spaced_strip s : spaced false s → spaced false (strip is_space s).
Proof.
  intros H. unfold strip, lstrip.
  apply spaced_drop_while in H.
  destruct (rstrip_prefix is_space (drop_while is_space s)) as [t Ht].
  rewrite Ht in H. by eapply spaced_app_l.
Qed.

Lemma normal_char_keep c : is_normal_char c = true → keep_alnum_space c = true.
Proof.
  unfold is_normal_char, keep_alnum_space.
  destruct (is_lower_az c), (is_digit c); simpl; try done.
  intros ->%Z.eqb_eq. reflexivity.
Qed.

Lemma Forall_sub_not_alnum_space s :
  Forall (λ c, keep_alnum_space c = true) (sub_not_alnum_space s).
Proof.
  unfold sub_not_alnum_space. induction s as [|c r IH]; simpl; constructor; [|done].
  destruct (keep_alnum_space c) eqn:E; [done|reflexivity].
Qed.

Lemma Forall_sub_space_runs b s :
  Forall (λ c, keep_alnum_space c = true) s →
  Forall (λ c, is_normal_char c = true) (sub_space_runs b s).
Proof.
  intros H. revert b. induction H as [|c r Hc Hr IH]; intros b; simpl; [constructor|].
  destruct (is_space c) eqn:E.
  - destruct b; [apply IH|]. constructor; [reflexivity|apply IH].
  - constructor; [|apply IH].
    unfold keep_alnum_space in Hc. unfold is_normal_char.
    rewrite E in Hc. rewrite orb_false_r in Hc. by rewrite Hc.
Qed.

Lemma sub_not_alnum_space_id s :
  Forall (λ c, is_normal_char c = true) s → sub_not_alnum_space s = s.
Proof.
  unfold sub_not_alnum_space.
  induction 1 as [|c r Hc Hr IH]; simpl; [done|].
  rewrite (normal_char_keep _ Hc). by f_equal.
Qed.

Lemma normal_char_range c :
  is_normal_char c = true → 0 <= c < 128 ∧ is_upper_az c = false.
Proof.
  unfold is_normal_char, is_lower_az, is_digit, is_upper_az, in_range.
  intros H. split; [|apply andb_false_iff]; lia.
Qed.

Section TextFacts.

Variable unicode_lower : pystr → nat → pystr.

Local Abbreviation str_lower := (str_lower unicode_lower).
Local Abbreviation normalize_text := (normalize_text unicode_lower).
Local Abbreviation normalize_last_name := (normalize_last_name unicode_lower).

Lemma lower_from_normal whole i s :
  Forall (λ c, is_normal_char c = true) s →
  lower_from unicode_lower whole i s = s.
Proof.
  intros H. revert i. induction H as [|c r Hc Hr IH]; intros i; simpl; [done|].
  destruct (normal_char_range _ Hc) as [Hrange Hup].
  replace ((0 <=? c) && (c <? 128)) with true by (symmetry; apply andb_true_iff; lia).
  unfold ascii_lower. rewrite Hup. simpl. by f_equal.
Qed.

Lemma str_lower_normal s :
  Forall (λ c, is_normal_char c = true) s → str_lower s = s.
Proof. apply lower_from_normal. Qed.

Lemma normalize_text_chars x :
  Forall (λ c, is_normal_char c = true) (normalize_text x).
Proof.
  unfold normalize_text. apply Forall_strip, Forall_sub_space_runs.
  apply Forall_sub_not_alnum_space.
Qed.

Lemma normalize_text_spaced x : spaced false (normalize_text x).
Proof. unfold normalize_text. apply spaced_strip, spaced_sub_space_runs. Qed.

(** C8: [normalize_text] is idempotent. *)
Theorem normalize_text_idempotent (x : pystr) :
  normalize_text (normalize_text x) = normalize_text x.
Proof.
  pose proof (normalize_text_chars x) as Hc.
  pose proof (normalize_text_spaced x) as Hs.
  unfold normalize_text at 1.
  rewrite (str_lower_normal _ Hc), (sub_not_alnum_space_id _ Hc).
  rewrite (sub_space_runs_spaced _ _ Hs).
  unfold normalize_text. apply strip_idem.
Qed.

End TextFacts.

(** [test_normalize_text_removes_punctuation_and_extra_spaces]. *)
Example normalize_text_test :
  normalize_text plain_lower (lit "  CRISPR-Cas9, in   Biotech! ")
  = lit "crispr cas9 in biotech".
Proof. vm_compute. reflexivity. Qed.

(** ** File names of downloads *)

Lemma startswith_app t s : startswith (t ++ s) t = true.
Proof. induction t as [|c t IH]; simpl; [done|]. by rewrite Z.eqb_refl. Qed.

Lemma endswith_app s t : endswith (s ++ t) t = true.
Proof. unfold endswith. rewrite rev_app_distr. apply startswith_app. Qed.

Lemma Forall_sub_filename_runs b s :
  Forall (λ c, is_filename_char c = true) (sub_filename_runs b s).
Proof.
  revert b. induction s as [|c r IH]; intros b; simpl; [constructor|].
  destruct (is_filename_char c) eqn:E; [by constructor|].
  destruct b; [done|]. by constructor.
Qed.

Lemma filename_char_ascii c : is_filename_char c = true → 0 <= c < 128.
Proof.
  unfold is_filename_char, is_lower_az, is_upper_az, is_digit, in_range. lia.
Qed.

Section FilenameFacts.

Variable unicode_lower : pystr → nat → pystr.

Local Abbreviation str_lower := (str_lower unicode_lower).
Local Abbreviation filename_before_cut := (filename_before_cut unicode_lower).
Local Abbreviation _sanitize_filename := (_sanitize_filename unicode_lower).

Lemma lower_from_ascii whole i s :
  Forall (λ c, 0 <= c < 128) s →
  lower_from unicode_lower whole i s = map ascii_lower s.
Proof.
  intros H. revert i. induction H as [|c r Hc Hr IH]; intros i; simpl; [done|].
  replace ((0 <=? c) && (c <? 128)) with true
    by (symmetry; apply andb_true_iff; lia).
  simpl. by f_equal.
Qed.

Lemma str_lower_filename s :
  Forall (λ c, is_filename_char c = true) s → str_lower s = map ascii_lower s.
Proof.
  intros H. apply lower_from_ascii.
  eapply Forall_impl; [exact H|]. apply filename_char_ascii.
Qed.

Lemma filename_before_cut_chars raw :
  Forall (λ c, is_filename_char c = true) (filename_before_cut raw).
Proof.
  unfold filename_before_cut.
  set (cleaned := strip is_underscore (sub_filename_runs false raw)).
  assert (Hc : Forall (λ c, is_filename_char c = true) cleaned)
    by apply Forall_strip, Forall_sub_filename_runs.
  assert (Hp : Forall (λ c, is_filename_char c = true) (lit "paper"))
    by (repeat constructor).
  assert (He : Forall (λ c, is_filename_char c = true) (lit ".pdf"))
    by (repeat constructor).
  destruct (is_empty cleaned);
    match goal with |- context [if ?b then _ else _] => destruct b end;
    try apply Forall_app; auto.
Qed.

Lemma filename_before_cut_nonempty raw : filename_before_cut raw ≠ [].
Proof.
  unfold filename_before_cut.
  set (cleaned := strip is_underscore (sub_filename_runs false raw)).
  set (named := if is_empty cleaned then lit "paper" else cleaned).
  assert (Hn : named ≠ []) by (subst named; by destruct cleaned).
  destruct (endswith (str_lower named) (lit ".pdf")); [done|].
  by destruct named.
Qed.

Lemma filename_before_cut_extension raw :
  endswith (map ascii_lower (filename_before_cut raw)) (lit ".pdf") = true.
Proof.
  pose proof (filename_before_cut_chars raw) as Hall.
  revert Hall. unfold filename_before_cut.
  set (cleaned := strip is_underscore (sub_filename_runs false raw)).
  set (named := if is_empty cleaned then lit "paper" else cleaned).
  destruct (endswith (str_lower named) (lit ".pdf")) eqn:E; intros Hall.
  - by rewrite <- (str_lower_filename _ Hall).
  - rewrite map_app. apply endswith_app.
Qed.

(** C2, as amended: the sanitized file name is never empty and has at
    most 140 characters; whenever the name fits the cap without being cut,
    it ends with ".pdf" up to the case of its letters. *)
Theorem sanitize_filename_shape (raw_title : pystr) :
  _sanitize_filename raw_title ≠ []
  ∧ (length (_sanitize_filename raw_title) ≤ 140)%nat
  ∧ ((length (filename_before_cut raw_title) ≤ 140)%nat →
     endswith (map ascii_lower (_sanitize_filename raw_title)) (lit ".pdf")
     = true).
Proof.
  unfold _sanitize_filename. split; [|split].
  - pose proof (filename_before_cut_nonempty raw_title) as H.
    destruct (filename_before_cut raw_title); [done|]. done.
  - rewrite length_take. lia.
  - intros Hfit. rewrite take_ge by lia. apply filename_before_cut_extension.
Qed.

End FilenameFacts.

Lemma sanitize_filename_shape_witness :
  (length (filename_before_cut plain_lower (lit "CRISPR screens: a review"))
   ≤ 140)%nat
  ∧ endswith
      (map ascii_lower
           (_sanitize_filename plain_lower (lit "CRISPR screens: a review")))
      (lit ".pdf") = true.
Proof.
  split; [vm_compute; lia|].
  apply (sanitize_filename_shape plain_lower (lit "CRISPR screens: a review")).
  vm_compute. lia.
Defined.

(** C2 as stated fails: an upper-case extension is kept as it is, and a
    long name loses the extension to the cut at 140 characters. *)
Lemma sanitize_filename_counterexample :
  endswith (_sanitize_filename plain_lower (lit "REPORT.PDF")) (lit ".pdf")
  = false
  ∧ endswith (_sanitize_filename plain_lower (replicate 200 97)) (lit ".pdf")
    = false.
Proof. split; vm_compute; reflexivity. Qed.

Example sanitize_filename_values :
  _sanitize_filename plain_lower (lit "REPORT.PDF") = lit "REPORT.PDF"
  ∧ _sanitize_filename plain_lower (replicate 200 97) = replicate 140 97
  ∧ _sanitize_filename plain_lower (lit "CRISPR screens: a review")
    = lit "CRISPR_screens_a_review.pdf"
  ∧ _sanitize_filename plain_lower (lit "?!") = lit "paper.pdf".
Proof. repeat split; vm_compute; reflexivity. Qed.

(** ** Full-text extraction for Europe PMC *)

Section FullTextFacts.

Variable unicode_lower : pystr → nat → pystr.

Local Abbreviation entry_is_pdf := (entry_is_pdf unicode_lower).
Local Abbreviation first_pdf_entry := (first_pdf_entry unicode_lower).
Local Abbreviation extract_europe_pmc_pdf_url :=
  (extract_europe_pmc_pdf_url unicode_lower).

Lemma first_pdf_entry_found pre entry post :
  Forall (λ e, entry_is_pdf e = false) pre →
  entry_is_pdf entry = true →
  first_pdf_entry (pre ++ entry :: post) = Some (entry_url entry).
Proof.
  induction 1 as [|e pre He Hpre IH]; simpl; intros Hentry.
  - by rewrite Hentry.
  - rewrite He. by apply IH.
Qed.

Lemma first_pdf_entry_none entries :
  Forall (λ e, entry_is_pdf e = false) entries →
  first_pdf_entry entries = None.
Proof. induction 1 as [|e l He Hl IH]; simpl; [done|]. by rewrite He. Qed.

(** C6, as amended: the extraction returns the URL of the first entry that
    has a non-empty URL and whose style is "pdf" or whose URL ends in
    ".pdf", letter case ignored; when there is no such entry it returns
    the viewer URL built from the [pmcid] trimmed of white space, provided
    that is not empty, and nothing otherwise. *)
Theorem extract_europe_pmc_pdf_url_cases (result : europe_pmc_result) :
  let entries := default [] (ep_fullTextUrl result) in
  let pmcid := strip is_space (or_empty (ep_pmcid result)) in
  (∀ pre entry post,
     entries = pre ++ entry :: post →
     Forall (λ e, entry_is_pdf e = false) pre →
     entry_is_pdf entry = true →
     extract_europe_pmc_pdf_url result = Some (entry_url entry))
  ∧ (Forall (λ e, entry_is_pdf e = false) entries →
     extract_europe_pmc_pdf_url result
     = if is_empty pmcid then None else Some (viewer_url pmcid)).
Proof.
  intros entries pmcid. unfold extract_europe_pmc_pdf_url.
  fold entries. fold pmcid. split.
  - intros pre entry post -> Hpre Hentry.
    by rewrite (first_pdf_entry_found _ _ _ Hpre Hentry).
  - intros Hnone. by rewrite (first_pdf_entry_none _ Hnone).
Qed.

End FullTextFacts.

Lemma extract_europe_pmc_pdf_url_cases_witness :
  extract_europe_pmc_pdf_url plain_lower test_europe_pmc_result
  = Some (lit "https://example.org/paper.pdf")
  ∧ extract_europe_pmc_pdf_url plain_lower europe_pmc_result_blank_pmcid
    = None.
Proof.
  split.
  - apply (proj1 (extract_europe_pmc_pdf_url_cases plain_lower
                    test_europe_pmc_result)
             [Some {| ftu_url := Str (lit "https://example.org/html");
                      ftu_documentStyle := Str (lit "html") |}]
             (Some {| ftu_url := Str (lit "https://example.org/paper.pdf");
                      ftu_documentStyle := Str (lit "pdf") |})
             []).
    + reflexivity.
    + repeat constructor.
    + vm_compute. reflexivity.
  - apply (proj2 (extract_europe_pmc_pdf_url_cases plain_lower
                    europe_pmc_result_blank_pmcid)).
    constructor.
Defined.

(** C6 as stated fails on an entry tagged "pdf" that carries no URL, which
    the code skips, and on a [pmcid] made of white space, for which the
    code builds no viewer URL. *)
Lemma extract_europe_pmc_pdf_url_counterexample :
  (stated_extract_pdf_url plain_lower europe_pmc_result_without_url = Some []
   ∧ extract_europe_pmc_pdf_url plain_lower europe_pmc_result_without_url
     = Some (lit "https://example.org/paper.pdf"))
  ∧ (stated_extract_pdf_url plain_lower europe_pmc_result_blank_pmcid
     = Some (viewer_url (lit "  "))
     ∧ extract_europe_pmc_pdf_url plain_lower europe_pmc_result_blank_pmcid
       = None).
Proof. repeat split; vm_compute; reflexivity. Qed.

Example extract_europe_pmc_pdf_url_test :
  extract_europe_pmc_pdf_url plain_lower test_europe_pmc_result
  = Some (lit "https://example.org/paper.pdf").
Proof. vm_compute. reflexivity. Qed.

(** ** The Crossref scorer *)

Section CrossrefScoreFacts.

Variable unicode_lower : pystr → nat → pystr.

Local Abbreviation normalize_last_name := (normalize_last_name unicode_lower).
Local Abbreviation title_similarity := (title_similarity unicode_lower).
Local Abbreviation author_last_name := (author_last_name unicode_lower).
Local Abbreviation _score_crossref_item :=
  (_score_crossref_item unicode_lower).

Lemma is_empty_false (s : pystr) : s ≠ [] → is_empty s = false.
Proof. by destruct s. Qed.

Lemma str_eqb_eq (s t : pystr) : str_eqb s t = true ↔ s = t.
Proof. unfold str_eqb. apply bool_decide_eq_true. Qed.

Lemma str_eqb_neq (s t : pystr) : str_eqb s t = false ↔ s ≠ t.
Proof. unfold str_eqb. apply bool_decide_eq_false. Qed.

Lemma existsb_author_false target (authors : list (option crossref_author)) :
  Forall (λ a, author_last_name a ≠ target) authors →
  existsb (λ a, str_eqb (author_last_name a) target) authors = false.
Proof.
  induction 1 as [|a l Ha Hl IH]; simpl; [done|].
  rewrite IH, orb_false_r. by apply str_eqb_neq.
Qed.

Lemma existsb_author_true target (authors : list (option crossref_author)) :
  Exists (λ a, author_last_name a = target) authors →
  existsb (λ a, str_eqb (author_last_name a) target) authors = true.
Proof.
  induction 1 as [a l Ha|a l Hl IH]; simpl.
  - apply orb_true_iff. left. by apply str_eqb_eq.
  - rewrite IH. apply orb_true_r.
Qed.

(** C1, as amended: with a usable surname in the query, the Crossref scorer
    returns [base + 0.30] when the first author's normalized surname is
    the requested one, [base + 0.10] when it is not but another listed
    author's is, [base] when the author list is not empty and no surname
    matches, and [base - 0.05] when the record has no author list or an
    empty one. *)
Theorem score_crossref_item_cases (item : crossref_item)
    (requested_title requested_first_author_last_name : pystr) :
  let base := title_similarity (crossref_candidate_title item)
                requested_title in
  let target := normalize_last_name requested_first_author_last_name in
  let authors := default [] (cr_author item) in
  let score := _score_crossref_item item requested_title
                 requested_first_author_last_name in
  target ≠ [] →
  (authors = [] → score = fsub base f0_05)
  ∧ (∀ first rest, authors = first :: rest →
       (author_last_name first = target → score = fadd base f0_30)
       ∧ (author_last_name first ≠ target →
          Exists (λ a, author_last_name a = target) rest →
          score = fadd base f0_10)
       ∧ (Forall (λ a, author_last_name a ≠ target) authors →
          score = base)).
Proof.
  intros base target authors score Htarget.
  subst score. unfold _score_crossref_item.
  fold base. fold target. fold authors.
  rewrite (is_empty_false _ Htarget). split.
  - by intros ->.
  - intros first rest ->. split; [|split].
    + intros Hfirst. rewrite Hfirst, (is_empty_false _ Htarget). simpl.
      by rewrite (proj2 (str_eqb_eq target target) eq_refl).
    + intros Hfirst Hrest.
      rewrite (proj2 (str_eqb_neq _ _) Hfirst), andb_false_r.
      by rewrite (existsb_author_true _ _ Hrest).
    + intros Hnone. pose proof (Forall_inv Hnone) as Hfirst. simpl in Hfirst.
      rewrite (proj2 (str_eqb_neq _ _) Hfirst), andb_false_r.
      by rewrite (existsb_author_false _ _ (Forall_inv_tail Hnone)).
Qed.

End CrossrefScoreFacts.

Lemma score_crossref_item_cases_witness :
  normalize_last_name plain_lower test_last_name ≠ []
  ∧ _score_crossref_item plain_lower crossref_no_author test_title
      test_last_name
    = fsub (title_similarity plain_lower (lit "Editing CAR-T cells")
              test_title) f0_05
  ∧ _score_crossref_item plain_lower test_crossref_match test_title
      test_last_name
    = fadd (title_similarity plain_lower
              (lit "Editing CAR-T cells with CRISPR-Cas9 improves persistence")
              test_title) f0_30
  ∧ _score_crossref_item plain_lower crossref_second_author test_title
      test_last_name
    = fadd (title_similarity plain_lower (lit "Editing CAR-T cells")
              test_title) f0_10.
Proof.
  assert (Htarget : normalize_last_name plain_lower test_last_name ≠ [])
    by (vm_compute; discriminate).
  split; [exact Htarget|]. split; [|split].
  - apply (proj1 (score_crossref_item_cases plain_lower crossref_no_author
                    test_title test_last_name Htarget)).
    reflexivity.
  - refine (proj1 (proj2 (score_crossref_item_cases plain_lower
                            test_crossref_match test_title test_last_name
                            Htarget) _ _ eq_refl) _).
    vm_compute. reflexivity.
  - refine (proj1 (proj2 (proj2 (score_crossref_item_cases plain_lower
                                   crossref_second_author test_title
                                   test_last_name Htarget) _ _ eq_refl)) _ _).
    + vm_compute. discriminate.
    + constructor. vm_compute. reflexivity.
Defined.

(** C1 as stated fails on a record whose authors are listed and do not
    match: the scorer returns the bare title similarity, which differs
    from the similarity lowered by 0.05. *)
Lemma score_crossref_item_counterexample :
  let base := title_similarity plain_lower
                (crossref_candidate_title test_crossref_mismatch)
                test_title in
  normalize_last_name plain_lower test_last_name ≠ []
  ∧ default [] (cr_author test_crossref_mismatch) ≠ []
  ∧ Forall (λ a, author_last_name plain_lower a
                 ≠ normalize_last_name plain_lower test_last_name)
           (default [] (cr_author test_crossref_mismatch))
  ∧ _score_crossref_item plain_lower test_crossref_mismatch test_title
      test_last_name = base
  ∧ _score_crossref_item plain_lower test_crossref_mismatch test_title
      test_last_name ≠ fsub base f0_05.
Proof.
  intros base. subst base. split; [|split; [|split; [|split]]].
  - vm_compute. discriminate.
  - vm_compute. discriminate.
  - repeat constructor. vm_compute. discriminate.
  - vm_compute. reflexivity.
  - vm_compute. discriminate.
Qed.

(** ** The Europe PMC scorer *)

Section EuropePmcScoreFacts.

Variable unicode_lower : pystr → nat → pystr.

Local Abbreviation normalize_last_name := (normalize_last_name unicode_lower).
Local Abbreviation title_similarity := (title_similarity unicode_lower).
Local Abbreviation _score_europe_pmc_result :=
  (_score_europe_pmc_result unicode_lower).

(** C10, as amended: with a usable surname in the query, the Europe PMC
    scorer returns [base + 0.30] exactly when the part of the
    white-space-trimmed [firstAuthor] field that precedes its first U+0020
    normalizes to the requested surname, and the bare title similarity in
    every other case. *)
Theorem score_europe_pmc_result_cases (result : europe_pmc_result)
    (requested_title requested_first_author_last_name : pystr) :
  let base := title_similarity (or_empty (ep_title result)) requested_title in
  let target := normalize_last_name requested_first_author_last_name in
  let first_author := normalize_last_name (europe_pmc_first_token result) in
  let score := _score_europe_pmc_result result requested_title
                 requested_first_author_last_name in
  target ≠ [] →
  (first_author = target → score = fadd base f0_30)
  ∧ (first_author ≠ target → score = base).
Proof.
  intros base target first_author score Htarget.
  subst score. unfold _score_europe_pmc_result.
  fold base. fold target. fold first_author.
  rewrite (is_empty_false _ Htarget). split.
  - intros ->. rewrite (is_empty_false _ Htarget). simpl.
    by rewrite (proj2 (str_eqb_eq target target) eq_refl).
  - intros Hne. by rewrite (proj2 (str_eqb_neq _ _) Hne), andb_false_r.
Qed.

End EuropePmcScoreFacts.

Lemma score_europe_pmc_result_cases_witness :
  normalize_last_name plain_lower (lit "van") ≠ []
  ∧ _score_europe_pmc_result plain_lower europe_pmc_long_surname
      (lit "Gene therapy") (lit "van")
    = fadd (title_similarity plain_lower (lit "Gene therapy")
              (lit "Gene therapy")) f0_30.
Proof.
  assert (Htarget : normalize_last_name plain_lower (lit "van") ≠ [])
    by (vm_compute; discriminate).
  split; [exact Htarget|].
  apply (proj1 (score_europe_pmc_result_cases plain_lower
                  europe_pmc_long_surname (lit "Gene therapy") (lit "van")
                  Htarget)).
  vm_compute. reflexivity.
Defined.

(** C10 as stated fails when the surname is followed by white space other
    than U+0020: the first white-space-separated token of "Smith<TAB>J"
    normalizes to the requested "smith", yet the scorer compares
    "smithj" and adds no bonus. *)
Lemma score_europe_pmc_result_counterexample :
  let token :=
    first_whitespace_token (py_str (ep_firstAuthor europe_pmc_tab_author)) in
  let base := title_similarity plain_lower
                (or_empty (ep_title europe_pmc_tab_author))
                (lit "Gene therapy") in
  normalize_last_name plain_lower (lit "Smith") ≠ []
  ∧ normalize_last_name plain_lower token
    = normalize_last_name plain_lower (lit "Smith")
  ∧ _score_europe_pmc_result plain_lower europe_pmc_tab_author
      (lit "Gene therapy") (lit "Smith") = base
  ∧ _score_europe_pmc_result plain_lower europe_pmc_tab_author
      (lit "Gene therapy") (lit "Smith") ≠ fadd base f0_30.
Proof.
  intros token base. subst token base. split; [|split; [|split]].
  - vm_compute. discriminate.
  - vm_compute. reflexivity.
  - vm_compute. reflexivity.
  - vm_compute. discriminate.
Qed.

(** A surname of several words: Europe PMC is compared by its first word,
    Crossref by the whole family name. *)
Example long_surname_first_word :
  europe_pmc_first_token europe_pmc_long_surname = lit "van"
  ∧ _score_europe_pmc_result plain_lower europe_pmc_long_surname
      (lit "Gene therapy") (lit "van der Berg")
    = title_similarity plain_lower (lit "Gene therapy") (lit "Gene therapy")
  ∧ _score_crossref_item plain_lower crossref_long_surname
      (lit "Gene therapy") (lit "van der Berg")
    = fadd (title_similarity plain_lower (lit "Gene therapy")
              (lit "Gene therapy")) f0_30.
Proof. repeat split; vm_compute; reflexivity. Qed.

(** ** Order of floats *)

Lemma SFcompare_key x y :
  is_nan x = false → is_nan y = false →
  ∃ c, SFcompare x y = Some c
       ∧ (c = Lt ↔ key_lt (fkey x) (fkey y))
       ∧ (c = Gt ↔ key_lt (fkey y) (fkey x)).
Proof.
  unfold key_lt.
  destruct x as [sx|sx| |sx mx ex], y as [sy|sy| |sy my ey];
    try discriminate; intros _ _; simpl;
    try (destruct sx); try (destruct sy); simpl;
    try (eexists; split; [reflexivity|]; simpl; split; split;
         first [discriminate | lia | reflexivity]).
  - change (Pos.compare_cont Eq mx my) with (Pos.compare mx my).
    destruct (Z.compare_spec ex ey) as [He|He|He];
      [destruct (Pos.compare_spec mx my) as [Hm|Hm|Hm]|..];
      eexists; (split; [reflexivity|]); simpl; split; split;
      first [discriminate | lia | reflexivity].
  - change (Pos.compare_cont Eq mx my) with (Pos.compare mx my).
    destruct (Z.compare_spec ex ey) as [He|He|He];
      [destruct (Pos.compare_spec mx my) as [Hm|Hm|Hm]|..];
      eexists; (split; [reflexivity|]); simpl; split; split;
      first [discriminate | lia | reflexivity].
Qed.

Lemma flt_not_nan x y : flt x y = true → is_nan x = false ∧ is_nan y = false.
Proof. unfold flt, SFltb. by destruct x, y. Qed.

Lemma fle_not_nan x y : fle x y = true → is_nan x = false ∧ is_nan y = false.
Proof. unfold fle, SFleb. by destruct x, y. Qed.

Lemma flt_key x y :
  flt x y = true ↔
  is_nan x = false ∧ is_nan y = false ∧ key_lt (fkey x) (fkey y).
Proof.
  split.
  - intros H. destruct (flt_not_nan _ _ H) as [Hx Hy].
    split; [done|split; [done|]].
    destruct (SFcompare_key x y Hx Hy) as (c & Hc & Hlt & _).
    unfold flt, SFltb in H. rewrite Hc in H. apply Hlt. by destruct c.
  - intros (Hx & Hy & H).
    destruct (SFcompare_key x y Hx Hy) as (c & Hc & Hlt & _).
    unfold flt, SFltb. rewrite Hc. by rewrite (proj2 Hlt H).
Qed.

Lemma fle_key x y :
  fle x y = true ↔
  is_nan x = false ∧ is_nan y = false ∧ ¬ key_lt (fkey y) (fkey x).
Proof.
  split.
  - intros H. destruct (fle_not_nan _ _ H) as [Hx Hy].
    split; [done|split; [done|]].
    destruct (SFcompare_key x y Hx Hy) as (c & Hc & _ & Hgt).
    unfold fle, SFleb in H. rewrite Hc in H. intros Hk.
    apply Hgt in Hk. subst c. discriminate.
  - intros (Hx & Hy & H).
    destruct (SFcompare_key x y Hx Hy) as (c & Hc & _ & Hgt).
    unfold fle, SFleb. rewrite Hc.
    destruct c; try reflexivity. exfalso. by apply H, Hgt.
Qed.

(** [x < y] excludes [y < x]. *)
Lemma flt_asym x y : flt x y = true → flt y x = false.
Proof.
  intros H. apply not_true_is_false. intros H'.
  apply flt_key in H as (_ & _ & H). apply flt_key in H' as (_ & _ & H').
  unfold key_lt in *. lia.
Qed.

Lemma flt_le_trans x y z : flt x y = true → fle y z = true → flt x z = true.
Proof.
  intros (Hx & _ & H)%flt_key (_ & Hz & H')%fle_key.
  apply flt_key. split; [done|split; [done|]].
  unfold key_lt in *. lia.
Qed.

Lemma fle_not_lt x y : fle x y = true → flt y x = false.
Proof.
  intros (_ & _ & H)%fle_key. apply not_true_is_false.
  by intros (_ & _ & H')%flt_key.
Qed.

(** Among floats that are not NaN, [x < y] or [y <= x]. *)
Lemma flt_or_fle x y :
  is_nan x = false → is_nan y = false → flt x y = true ∨ fle y x = true.
Proof.
  intros Hx Hy. destruct (flt x y) eqn:E; [by left|right].
  apply fle_key. split; [done|split; [done|]]. intros Hk.
  assert (flt x y = true) by (apply flt_key; auto). congruence.
Qed.

(** ** Arbitration between the two sources *)

(** C3: when both sources have a match, [_pick_primary_match] returns the
    Europe PMC match if its score is strictly greater and the Crossref
    match otherwise, in particular when the Crossref score is greater and
    when the scores are equal; when one source has a match it returns
    that one, and when none has, it returns nothing. *)
Theorem pick_primary_match_cases (c e : paper_match) :
  (flt (m_score c) (m_score e) = true →
   _pick_primary_match (Some c) (Some e) = Some e)
  ∧ (flt (m_score e) (m_score c) = true →
     _pick_primary_match (Some c) (Some e) = Some c)
  ∧ (SFeqb (m_score c) (m_score e) = true →
     _pick_primary_match (Some c) (Some e) = Some c)
  ∧ (flt (m_score c) (m_score e) = false →
     _pick_primary_match (Some c) (Some e) = Some c)
  ∧ _pick_primary_match (Some c) None = Some c
  ∧ _pick_primary_match None (Some e) = Some e
  ∧ _pick_primary_match None None = None.
Proof.
  unfold _pick_primary_match, fgt.
  split; [|split; [|split; [|split]]].
  - unfold flt. by intros ->.
  - intros H%flt_asym. unfold flt in H. by rewrite H.
  - unfold SFeqb, SFltb. by destruct (SFcompare _ _) as [[]|].
  - unfold flt. by intros ->.
  - done.
Qed.

Lemma pick_primary_match_cases_witness :
  _pick_primary_match (Some sample_crossref_match)
    (Some sample_europe_pmc_match) = Some sample_europe_pmc_match
  ∧ _pick_primary_match (Some sample_europe_pmc_match)
      (Some sample_crossref_match) = Some sample_europe_pmc_match
  ∧ _pick_primary_match (Some sample_crossref_match)
      (Some sample_crossref_match) = Some sample_crossref_match.
Proof.
  split; [|split].
  - apply (proj1 (pick_primary_match_cases sample_crossref_match
                    sample_europe_pmc_match)).
    vm_compute. reflexivity.
  - apply (proj1 (proj2 (pick_primary_match_cases sample_europe_pmc_match
                           sample_crossref_match))).
    vm_compute. reflexivity.
  - apply (proj1 (proj2 (proj2 (pick_primary_match_cases sample_crossref_match
                                  sample_crossref_match)))).
    vm_compute. reflexivity.
Defined.

(** ** The lookup endpoint *)

Section LookupFacts.

Variable unicode_lower : pystr → nat → pystr.

Local Abbreviation lookup := (lookup unicode_lower).

(** C9: [lookup] answers 404 exactly when the discovery has no primary
    match and no candidate URL, and 200 in every other case; a download
    token is registered in the cache, for the first candidate URL, when the
    list of candidate URLs is not empty, and the cache is left as it was
    when the list is empty. *)
Theorem lookup_status (env : register_env) (request_title : pystr)
    (result : discovery) (cache : gmap pystr DownloadEntry) :
  let out := lookup env request_title result cache in
  (status_of out.1 = 404
   ↔ d_match result = None ∧ d_candidate_urls result = [])
  ∧ (¬ (d_match result = None ∧ d_candidate_urls result = []) →
     status_of out.1 = 200)
  ∧ (d_candidate_urls result = [] →
     out.2 = cache ∧ download_of out.1 = None)
  ∧ (∀ first rest, d_candidate_urls result = first :: rest →
       download_of out.1
       = Some (env_token env, lit "/api/download/" ++ env_token env)
       ∧ ∃ entry,
           url entry = first
           ∧ out.2 !! env_token env = Some entry
           ∧ out.2 = <[env_token env := entry]>
                       (_prune_download_cache (env_prune_time env) cache)).
Proof.
  intros out. subst out. unfold lookup, _register_download.
  destruct (d_match result) as [m|] eqn:Hm,
           (d_candidate_urls result) as [|first rest] eqn:Hu; simpl;
    (split; [split; [discriminate || tauto | intros [? ?]; done]|]);
    (split; [tauto || (intros H; exfalso; apply H; done)|]);
    (split; [intros; done || discriminate|]);
    intros first' rest' Heq; try discriminate;
    injection Heq as <- <-;
    (split; [reflexivity|]);
    eexists; (split; [|split; [apply lookup_insert_eq|reflexivity]]);
    reflexivity.
Qed.

End LookupFacts.

Lemma lookup_status_witness :
  status_of (lookup plain_lower sample_env test_title discovery_nothing ∅).1
  = 404
  ∧ status_of
      (lookup plain_lower sample_env test_title discovery_match_only ∅).1
    = 200
  ∧ download_of
      (lookup plain_lower sample_env test_title discovery_match_only ∅).1
    = None
  ∧ download_of
      (lookup plain_lower sample_env test_title discovery_with_url ∅).1
    = Some (env_token sample_env,
            lit "/api/download/" ++ env_token sample_env).
Proof.
  split; [|split; [|split]].
  - apply (proj1 (lookup_status plain_lower sample_env test_title
                    discovery_nothing ∅)).
    split; reflexivity.
  - apply (proj1 (proj2 (lookup_status plain_lower sample_env test_title
                           discovery_match_only ∅))).
    intros [H _]. discriminate H.
  - apply (proj1 (proj2 (proj2 (lookup_status plain_lower sample_env
                                  test_title discovery_match_only ∅)))).
    reflexivity.
  - apply (proj2 (proj2 (proj2 (lookup_status plain_lower sample_env
                                  test_title discovery_with_url ∅)))
             (lit "https://example.org/a.pdf") []).
    reflexivity.
Defined.

(** ** Deduplication of candidate URLs *)

Lemma keep_first_elem_of (l : list pystr) (x : pystr) : x ∈ keep_first l ↔ x ∈ l.
Proof.
  induction l as [|y r IH]; simpl; [done|].
  rewrite !elem_of_cons, list_elem_of_filter, IH.
  destruct (decide (x = y)); naive_solver.
Qed.

Lemma keep_first_NoDup (l : list pystr) : NoDup (keep_first l).
Proof.
  induction l as [|y r IH]; simpl; [constructor|].
  constructor.
  - rewrite list_elem_of_filter. naive_solver.
  - by apply NoDup_filter.
Qed.

Lemma keep_first_sublist (l : list pystr) : keep_first l `sublist_of` l.
Proof.
  induction l as [|y r IH]; simpl; [done|].
  apply sublist_skip. etrans; [apply sublist_filter|done].
Qed.

Section DedupeFacts.

Variable urlparse : pystr → option ParseResult.

Local Abbreviation dedupe_loop := (dedupe_loop urlparse).
Local Abbreviation dedupe_urls := (dedupe_urls urlparse).
Local Abbreviation accepted_urls := (accepted_urls urlparse).
Local Abbreviation http_form_of := (http_form_of urlparse).

Lemma accepted_form_Some p c :
  accepted_form p = Some c ↔
  http_scheme (scheme p) = true ∧ netloc p ≠ [] ∧ c = geturl p.
Proof.
  unfold accepted_form.
  destruct (http_scheme (scheme p)), (netloc p) as [|x n]; simpl;
    naive_solver.
Qed.

Lemma accepted_urls_None (urls : list pystr) :
  accepted_urls urls = None ↔ Exists (λ u, urlparse u = None) urls.
Proof.
  induction urls as [|u r IH]; simpl.
  - split; [done|]. by intros H%Exists_nil.
  - rewrite Exists_cons. destruct (urlparse u) as [p|]; [|naive_solver].
    destruct (accepted_urls r) as [l|]; naive_solver.
Qed.

Lemma accepted_urls_elem_of (urls l : list pystr) (c : pystr) :
  accepted_urls urls = Some l → c ∈ l → http_form_of urls c.
Proof.
  unfold http_form_of.
  revert l. induction urls as [|u r IH]; simpl; intros l.
  - intros [= <-] H. by apply elem_of_nil in H.
  - destruct (urlparse u) as [p|] eqn:Hp; [|done].
    destruct (accepted_urls r) as [l'|] eqn:Hr; [|done].
    intros [= <-] Hc.
    assert (Hrest : c ∈ l' → ∃ u0 p0, u0 ∈ u :: r ∧ urlparse u0 = Some p0
                     ∧ http_scheme (scheme p0) = true ∧ netloc p0 ≠ []
                     ∧ c = geturl p0).
    { intros Hin. destruct (IH l' eq_refl Hin) as (u0 & p0 & Hu0 & H).
      exists u0, p0. split; [by apply elem_of_cons; right|done]. }
    destruct (accepted_form p) as [c'|] eqn:Ha; [|by apply Hrest].
    apply elem_of_cons in Hc as [->|Hc]; [|by apply Hrest].
    apply accepted_form_Some in Ha as (Hs & Hn & ->).
    exists u, p. split; [by apply elem_of_cons; left|done].
Qed.

(** The loop computes the first occurrences of the accepted forms that
    are not yet in [seen]. *)
Lemma dedupe_loop_spec (urls : list pystr) (seen : gset pystr)
    (deduped : list pystr) :
  dedupe_loop urls seen deduped
  = (λ l, deduped ++ filter (λ c, c ∉ seen) (keep_first l))
    <$> accepted_urls urls.
Proof.
  revert seen deduped. induction urls as [|u r IH]; intros seen deduped; simpl.
  - by rewrite app_nil_r.
  - destruct (urlparse u) as [p|] eqn:Hp; [|done].
    unfold accepted_form.
    destruct (http_scheme (scheme p) && negb (is_empty (netloc p))) eqn:Hok.
    + apply andb_true_iff in Hok as [Hs Hn]. rewrite Hs.
      apply negb_true_iff in Hn. rewrite Hn. simpl.
      case_bool_decide as Hseen.
      * rewrite IH. destruct (accepted_urls r) as [l|]; [|done]. simpl.
        f_equal. f_equal. rewrite filter_cons_False by naive_solver.
        rewrite list_filter_filter. apply list_filter_iff.
        intros c. split; [|naive_solver].
        intros Hc. split; [done|]. intros ->. by apply Hc.
      * rewrite IH. destruct (accepted_urls r) as [l|]; [|done]. simpl.
        f_equal. rewrite filter_cons_True by done.
        rewrite <- app_assoc. simpl. f_equal. f_equal.
        rewrite list_filter_filter. apply list_filter_iff.
        intros c. rewrite elem_of_union, elem_of_singleton. naive_solver.
    + assert (Hskip : negb (http_scheme (scheme p)) || is_empty (netloc p)
                      = true).
      { apply andb_false_iff in Hok as [->| ->%negb_false_iff]; [done|].
        apply orb_true_r. }
      rewrite Hskip. rewrite IH. by destruct (accepted_urls r).
Qed.

Lemma dedupe_urls_spec (urls : list pystr) :
  dedupe_urls urls = keep_first <$> accepted_urls urls.
Proof.
  unfold dedupe_urls. rewrite dedupe_loop_spec.
  destruct (accepted_urls urls) as [l|]; [|done]. simpl. f_equal.
  generalize (keep_first l). intros k.
  induction k as [|c k IH]; [done|].
  rewrite filter_cons_True by apply not_elem_of_empty. by f_equal.
Qed.

(** C5 for [dedupe_urls]: the call fails only when [urlparse] raises on
    some input; otherwise every output is the canonical form of an input
    with an http or https scheme and a net location, the output has no
    duplicate, and it lists the accepted canonical forms by first
    occurrence, in input order. *)
Lemma dedupe_urls_properties (urls : list pystr) :
  (dedupe_urls urls = None ↔ Exists (λ u, urlparse u = None) urls)
  ∧ ∀ out, dedupe_urls urls = Some out →
      Forall (http_form_of urls) out
      ∧ NoDup out
      ∧ ∃ accepted, accepted_urls urls = Some accepted
                    ∧ out = keep_first accepted
                    ∧ out `sublist_of` accepted.
Proof.
  rewrite dedupe_urls_spec. split.
  - rewrite <- accepted_urls_None. by destruct (accepted_urls urls).
  - intros out. destruct (accepted_urls urls) as [l|] eqn:Hl; [|done].
    intros [= <-]. split; [|split].
    + apply Forall_forall. intros c Hc.
      apply (proj1 (keep_first_elem_of l c)) in Hc.
      exact (accepted_urls_elem_of _ _ _ Hl Hc).
    + apply keep_first_NoDup.
    + exists l. split; [done|split; [done|apply keep_first_sublist]].
Qed.

End DedupeFacts.

Section CandidateFacts.

Variable urlparse : pystr → option ParseResult.

Local Abbreviation dedupe_urls := (dedupe_urls urlparse).
Local Abbreviation discover_paper := (discover_paper urlparse).

(** C5, as amended: [dedupe_urls] fails only when [urlparse] raises on
    some input; otherwise every URL of its output is the canonical form of
    an input URL that parses with an http or https scheme and a net
    location that is not empty (the net location, not the host name: a
    port or user information alone is a net location), the output has no
    duplicate, and it lists the accepted canonical forms by first
    occurrence, in input order.  The [candidate_urls] of every discovery
    are the output of [dedupe_urls] on the collected links, so they have
    the same properties. *)
Theorem candidate_urls_deduplicated :
  (∀ urls : list pystr,
     (dedupe_urls urls = None ↔ Exists (λ u, urlparse u = None) urls)
     ∧ ∀ out, dedupe_urls urls = Some out →
         Forall (http_form_of urlparse urls) out
         ∧ NoDup out
         ∧ ∃ accepted, accepted_urls urlparse urls = Some accepted
                       ∧ out = keep_first accepted
                       ∧ out `sublist_of` accepted)
  ∧ (∀ crossref_match europe_pmc_match unpaywall_email unpaywall d,
       discover_paper crossref_match europe_pmc_match unpaywall_email
         unpaywall = Some d →
       let collected :=
         collect_candidate_urls crossref_match europe_pmc_match
           unpaywall_email unpaywall in
       dedupe_urls collected = Some (d_candidate_urls d)
       ∧ Forall (http_form_of urlparse collected) (d_candidate_urls d)
       ∧ NoDup (d_candidate_urls d)
       ∧ ∃ accepted, accepted_urls urlparse collected = Some accepted
                     ∧ d_candidate_urls d = keep_first accepted).
Proof.
  split; [apply dedupe_urls_properties|].
  intros c e email unpaywall d Hd collected.
  unfold discover_paper in Hd. fold collected in Hd.
  destruct (dedupe_urls collected) as [out|] eqn:Hout; [|done].
  injection Hd as <-. simpl.
  destruct (proj2 (dedupe_urls_properties urlparse collected) out Hout)
    as (Hform & Hnodup & accepted & Hacc & Hfirst & _).
  split; [done|]. split; [done|]. split; [done|]. by exists accepted.
Qed.

End CandidateFacts.

Lemma candidate_urls_deduplicated_witness :
  dedupe_urls urlparse_ascii test_urls
  = Some [lit "https://example.org/a.pdf"; lit "http://example.org/b.pdf"]
  ∧ NoDup [lit "https://example.org/a.pdf"; lit "http://example.org/b.pdf"]
  ∧ ∃ d, discover_paper urlparse_ascii (Some sample_crossref_match)
           (Some sample_europe_pmc_match) [] (λ _, None) = Some d
         ∧ NoDup (d_candidate_urls d).
Proof.
  assert (Hout : dedupe_urls urlparse_ascii test_urls
                 = Some [lit "https://example.org/a.pdf";
                         lit "http://example.org/b.pdf"])
    by (vm_compute; reflexivity).
  split; [exact Hout|]. split.
  - exact (proj1 (proj2 (proj2 (proj1 (candidate_urls_deduplicated
                                          urlparse_ascii) test_urls)
                           _ Hout))).
  - assert (Hd : ∃ d, discover_paper urlparse_ascii
                        (Some sample_crossref_match)
                        (Some sample_europe_pmc_match) [] (λ _, None)
                      = Some d)
      by (eexists; vm_compute; reflexivity).
    destruct Hd as [d Hd]. exists d. split; [exact Hd|].
    exact (proj1 (proj2 (proj2 (proj2 (candidate_urls_deduplicated
                                         urlparse_ascii)
                                  _ _ _ _ d Hd)))).
Defined.

(** C5 as stated fails: [urlparse] reads a URL with a port and no host
    name with the net location [:80], so [dedupe_urls] keeps it and it
    becomes a candidate URL, while the host name of the parsed URL is
    empty ([parsed.hostname] is [None]). *)
Lemma candidate_urls_counterexample :
  urlparse_ascii url_without_host
  = Some {| scheme := lit "http"; netloc := lit ":80";
            path := lit "/a.pdf"; params := []; query := [];
            fragment := [] |}
  ∧ has_hostname <$> urlparse_ascii url_without_host = Some false
  ∧ dedupe_urls urlparse_ascii [url_without_host] = Some [url_without_host]
  ∧ d_candidate_urls
      <$> discover_paper urlparse_ascii None (Some match_without_host) []
            (λ _, None)
    = Some [url_without_host].
Proof. repeat split; vm_compute; reflexivity. Qed.

(** [test_dedupe_urls_keeps_only_http_and_https] and a discovery. *)
Example dedupe_urls_test :
  dedupe_urls urlparse_ascii test_urls
  = Some [lit "https://example.org/a.pdf"; lit "http://example.org/b.pdf"]
  ∧ d_candidate_urls
      <$> discover_paper urlparse_ascii (Some sample_crossref_match)
            (Some sample_europe_pmc_match) [] (λ _, None)
    = Some [lit "https://example.org/b.pdf"; lit "https://example.org/a.pdf"].
Proof. split; vm_compute; reflexivity. Qed.

(** ** Selection of the best candidate *)

Section PickFacts.

Context {A : Type} (score_of : A → float).

Lemma pick_fold_below (items : list A) (st : option A * float) :
  flt st.2 f0_45 = true →
  Forall (λ x, flt (score_of x) f0_45 = true) items →
  flt (foldl (pick_step score_of) st items).2 f0_45 = true.
Proof.
  intros Hst Hall. revert st Hst.
  induction Hall as [|x l Hx Hl IH]; intros st Hst; simpl; [done|].
  apply IH. unfold pick_step. by destruct (fgt (score_of x) st.2).
Qed.

Lemma pick_fold_before (pre : list A) (st : option A * float) (x : A) :
  flt st.2 (score_of x) = true →
  Forall (λ y, flt (score_of y) (score_of x) = true) pre →
  flt (foldl (pick_step score_of) st pre).2 (score_of x) = true.
Proof.
  intros Hst Hall. revert st Hst.
  induction Hall as [|y l Hy Hl IH]; intros st Hst; simpl; [done|].
  apply IH. unfold pick_step. by destruct (fgt (score_of y) st.2).
Qed.

Lemma pick_fold_after (post : list A) (x : A) :
  Forall (λ y, fle (score_of y) (score_of x) = true) post →
  foldl (pick_step score_of) (Some x, score_of x) post
  = (Some x, score_of x).
Proof.
  induction 1 as [|y l Hy Hl IH]; simpl; [done|].
  unfold pick_step at 2. simpl. unfold fgt.
  change (SFltb (score_of x) (score_of y)) with (flt (score_of x) (score_of y)).
  by rewrite (fle_not_lt _ _ Hy).
Qed.

(** A list whose scores are all below 0.45, the empty list among them,
    gives [(None, 0.0)]. *)
Lemma pick_best_below (items : list A) :
  Forall (λ x, flt (score_of x) f0_45 = true) items →
  pick_best score_of items = (None, f0_0).
Proof.
  intros Hall. unfold pick_best.
  pose proof (pick_fold_below items (None, fminus1_0) eq_refl Hall) as H.
  destruct (foldl _ _ _) as [best_item best_score]. simpl in H.
  by rewrite H.
Qed.

(** Otherwise the first item that attains the greatest score is returned
    with its score. *)
Lemma pick_best_first_max (pre : list A) (x : A) (post : list A) :
  fle f0_45 (score_of x) = true →
  Forall (λ y, flt (score_of y) (score_of x) = true) pre →
  Forall (λ y, fle (score_of y) (score_of x) = true) post →
  pick_best score_of (pre ++ x :: post) = (Some x, score_of x).
Proof.
  intros Hx Hpre Hpost. unfold pick_best.
  rewrite foldl_app. simpl.
  assert (Hinit : flt fminus1_0 (score_of x) = true)
    by (eapply flt_le_trans; [|exact Hx]; reflexivity).
  pose proof (pick_fold_before pre (None, fminus1_0) x Hinit Hpre) as Hbefore.
  destruct (foldl (pick_step score_of) (None, fminus1_0) pre)
    as [best_item best_score].
  simpl in Hbefore. unfold pick_step at 2. simpl. unfold fgt.
  change (SFltb best_score (score_of x)) with (flt best_score (score_of x)).
  rewrite Hbefore, (pick_fold_after post x Hpost).
  by rewrite (fle_not_lt _ _ Hx).
Qed.

(** Among items whose scores are not NaN, one of the two cases applies. *)
Lemma pick_best_exhaustive (items : list A) :
  Forall (λ x, is_nan (score_of x) = false) items →
  Forall (λ x, flt (score_of x) f0_45 = true) items
  ∨ ∃ pre x post,
      items = pre ++ x :: post
      ∧ fle f0_45 (score_of x) = true
      ∧ Forall (λ y, flt (score_of y) (score_of x) = true) pre
      ∧ Forall (λ y, fle (score_of y) (score_of x) = true) post.
Proof.
  induction 1 as [|x l Hx Hl IH]; [by left|].
  destruct IH as [Hbelow|(pre & m & post & -> & Hm & Hpre & Hpost)].
  - destruct (flt_or_fle (score_of x) f0_45 Hx eq_refl) as [Hlt|Hge].
    + left. by constructor.
    + right. exists [], x, l. split; [done|]. split; [done|].
      split; [constructor|].
      eapply Forall_impl; [exact Hbelow|]. intros y Hy. simpl in Hy.
      apply fle_key. apply flt_key in Hy as (Hy & _ & Hk).
      apply fle_key in Hge as (_ & _ & Hk').
      split; [done|]. split; [done|]. unfold key_lt in *. lia.
  - right.
    assert (Hmn : is_nan (score_of m) = false)
      by (by apply fle_not_nan in Hm as [_ ?]).
    destruct (flt_or_fle (score_of x) (score_of m) Hx Hmn) as [Hlt|Hge].
    + exists (x :: pre), m, post. repeat split; try done. by constructor.
    + exists [], x, (pre ++ m :: post). split; [done|]. split.
      { apply fle_key. apply fle_key in Hm as (? & _ & Hk).
        apply fle_key in Hge as (_ & _ & Hk').
        split; [done|]. split; [done|]. unfold key_lt in *. lia. }
      split; [constructor|].
      apply Forall_app. split; [|constructor; [done|]].
      * eapply Forall_impl; [exact Hpre|]. intros y Hy. simpl in Hy.
        apply fle_key. apply flt_key in Hy as (Hy & _ & Hk).
        apply fle_key in Hge as (_ & _ & Hk').
        split; [done|]. split; [done|]. unfold key_lt in *. lia.
      * eapply Forall_impl; [exact Hpost|]. intros y Hy. simpl in Hy.
        apply fle_key. apply fle_key in Hy as (Hy & _ & Hk).
        apply fle_key in Hge as (_ & _ & Hk').
        split; [done|]. split; [done|]. unfold key_lt in *. lia.
Qed.

End PickFacts.

Section SelectorFacts.

Variable unicode_lower : pystr → nat → pystr.

Local Abbreviation _score_crossref_item :=
  (_score_crossref_item unicode_lower).
Local Abbreviation _score_europe_pmc_result :=
  (_score_europe_pmc_result unicode_lower).
Local Abbreviation pick_best_crossref_item :=
  (pick_best_crossref_item unicode_lower).
Local Abbreviation pick_best_europe_pmc_result :=
  (pick_best_europe_pmc_result unicode_lower).

(** C4: for either source, a list of records whose combined scores are
    all below 0.45, the empty list included, yields [(None, 0.0)]; when
    the greatest combined score is at least 0.45, the selector returns the
    first record that attains it (every earlier record scores strictly
    less, no later record scores more) together with that score. *)
Theorem pick_best_selectors
    (requested_title requested_first_author_last_name : pystr) :
  let crossref_score item :=
    _score_crossref_item item requested_title
      requested_first_author_last_name in
  let europe_pmc_score result :=
    _score_europe_pmc_result result requested_title
      requested_first_author_last_name in
  (∀ items,
     Forall (λ x, flt (crossref_score x) f0_45 = true) items →
     pick_best_crossref_item items requested_title
       requested_first_author_last_name = (None, f0_0))
  ∧ (∀ pre x post,
       fle f0_45 (crossref_score x) = true →
       Forall (λ y, flt (crossref_score y) (crossref_score x) = true) pre →
       Forall (λ y, fle (crossref_score y) (crossref_score x) = true) post →
       pick_best_crossref_item (pre ++ x :: post) requested_title
         requested_first_author_last_name = (Some x, crossref_score x))
  ∧ (∀ results,
       Forall (λ x, flt (europe_pmc_score x) f0_45 = true) results →
       pick_best_europe_pmc_result results requested_title
         requested_first_author_last_name = (None, f0_0))
  ∧ (∀ pre x post,
       fle f0_45 (europe_pmc_score x) = true →
       Forall (λ y, flt (europe_pmc_score y) (europe_pmc_score x) = true)
         pre →
       Forall (λ y, fle (europe_pmc_score y) (europe_pmc_score x) = true)
         post →
       pick_best_europe_pmc_result (pre ++ x :: post) requested_title
         requested_first_author_last_name = (Some x, europe_pmc_score x)).
Proof.
  intros crossref_score europe_pmc_score.
  unfold pick_best_crossref_item, pick_best_europe_pmc_result.
  split; [|split; [|split]].
  - intros items. apply (pick_best_below crossref_score).
  - intros pre x post. apply (pick_best_first_max crossref_score).
  - intros results. apply (pick_best_below europe_pmc_score).
  - intros pre x post. apply (pick_best_first_max europe_pmc_score).
Qed.

End SelectorFacts.

Lemma pick_best_selectors_witness :
  pick_best_crossref_item plain_lower [] test_title test_last_name
  = (None, f0_0)
  ∧ pick_best_crossref_item plain_lower [test_crossref_mismatch] test_title
      test_last_name = (None, f0_0)
  ∧ pick_best_crossref_item plain_lower
      ([test_crossref_mismatch] ++ test_crossref_match :: [])
      test_title test_last_name
    = (Some test_crossref_match,
       _score_crossref_item plain_lower test_crossref_match test_title
         test_last_name)
  ∧ pick_best_europe_pmc_result plain_lower
      ([] ++ europe_pmc_long_surname :: [europe_pmc_tab_author])
      (lit "Gene therapy") (lit "van")
    = (Some europe_pmc_long_surname,
       _score_europe_pmc_result plain_lower europe_pmc_long_surname
         (lit "Gene therapy") (lit "van")).
Proof.
  split; [|split; [|split]].
  - apply (proj1 (pick_best_selectors plain_lower test_title test_last_name)).
    constructor.
  - apply (proj1 (pick_best_selectors plain_lower test_title test_last_name)).
    repeat constructor.
  - apply (proj1 (proj2 (pick_best_selectors plain_lower test_title
                           test_last_name))).
    + vm_compute. reflexivity.
    + repeat constructor.
    + constructor.
  - apply (proj2 (proj2 (proj2 (pick_best_selectors plain_lower
                                  (lit "Gene therapy") (lit "van"))))).
    + vm_compute. reflexivity.
    + constructor.
    + repeat constructor.
Defined.

(** [test_pick_best_crossref_item_uses_title_and_author]: the second
    record is selected and its score exceeds 0.8. *)
Example pick_best_crossref_item_test :
  (pick_best_crossref_item plain_lower
     [test_crossref_mismatch; test_crossref_match] test_title
     test_last_name).1 = Some test_crossref_match
  ∧ fgt (pick_best_crossref_item plain_lower
           [test_crossref_mismatch; test_crossref_match] test_title
           test_last_name).2 (decimal_literal 8 10) = true.
Proof. split; vm_compute; reflexivity. Qed.

(** ** Floating-point value of the ratio *)

Lemma digits2_pos_log2 p : Z.pos (digits2_pos p) = Z.log2 (Z.pos p) + 1.
Proof.
  assert (H : ∀ q, digits2_pos q = Pos.size q).
  { induction q as [q IH|q IH|]; simpl; by rewrite ?IH. }
  rewrite H. destruct p; simpl; lia.
Qed.

Lemma digits2_pos_bounds p k :
  2 ^ (k - 1) <= Z.pos p < 2 ^ k → 0 < k → Z.pos (digits2_pos p) = k.
Proof.
  intros Hb Hk. rewrite digits2_pos_log2.
  rewrite (Z.log2_unique (Z.pos p) (k - 1)); [lia|lia|].
  by replace (Z.succ (k - 1)) with k by lia.
Qed.

Lemma digits2_pos_range p :
  2 ^ (Z.pos (digits2_pos p) - 1) <= Z.pos p < 2 ^ Z.pos (digits2_pos p).
Proof.
  rewrite digits2_pos_log2. replace (Z.log2 (Z.pos p) + 1 - 1) with (Z.log2 (Z.pos p)) by lia.
  pose proof (Z.log2_spec (Z.pos p)). replace (Z.succ (Z.log2 (Z.pos p))) with (Z.log2 (Z.pos p) + 1) in H by lia.
  apply H. lia.
Qed.

Lemma fexp_normal e : -1074 <= e - 53 → fexp prec emax e = e - 53.
Proof. intros H. unfold fexp, emin, prec, emax. lia. Qed.

Lemma shr_fexp_noshift m e l :
  Z.pos (digits2_pos m) = 53 → -1074 <= e →
  shr_fexp prec emax (Z.pos m) e l = (shr_record_of_loc (Z.pos m) l, e).
Proof.
  intros Hd He. unfold shr_fexp. simpl Zdigits2. rewrite Hd.
  rewrite fexp_normal by lia. replace (53 + e - 53 - e) with 0 by lia.
  reflexivity.
Qed.

Lemma binary_round_aux_canonical s m e :
  Z.pos (digits2_pos m) = 53 → -1074 <= e <= 971 →
  binary_round_aux prec emax s (Z.pos m) e loc_Exact = S754_finite s m e.
Proof.
  intros Hd He. unfold binary_round_aux.
  rewrite shr_fexp_noshift by lia. simpl.
  rewrite shr_fexp_noshift by lia. simpl.
  replace (e <=? emax - prec) with true; [done|].
  symmetry. apply Z.leb_le. unfold emax, prec. lia.
Qed.

Lemma pos_iter_xO p k : Z.pos (Pos.iter xO p k) = Z.pos p * 2 ^ Z.pos k.
Proof.
  induction k as [|k IH] using Pos.peano_ind.
  - simpl. lia.
  - rewrite Pos.iter_succ, Pos2Z.inj_succ, Z.pow_succ_r by lia.
    rewrite Pos2Z.inj_xO, IH. lia.
Qed.

Lemma pow2_split (a b : Z) : 0 <= a → 0 <= b → 2 ^ (a + b) = 2 ^ a * 2 ^ b.
Proof. intros. by apply Z.pow_add_r. Qed.

Lemma float_of_Z_exact n :
  0 < n < 2 ^ 53 →
  ∃ m e, float_of_Z n = S754_finite false m e
         ∧ Z.pos (digits2_pos m) = 53
         ∧ -52 <= e <= 0
         ∧ Z.pos m = n * 2 ^ (- e)
         ∧ e = Z.log2 n - 52.
Proof.
  intros Hn. destruct n as [|p|p]; try lia.
  unfold float_of_Z, binary_normalize, binary_round.
  pose proof (digits2_pos_range p) as Hr.
  pose proof (digits2_pos_log2 p) as Hl.
  set (d := Z.pos (digits2_pos p)) in *.
  assert (Hd : 1 <= d <= 53).
  { split; [lia|]. destruct (Z_le_gt_dec d 53) as [|Hgt]; [done|].
    assert (2 ^ 53 <= 2 ^ (d - 1)) by (apply Z.pow_le_mono_r; lia). lia. }
  rewrite Z.add_0_r, fexp_normal by lia.
  unfold shl_align.
  destruct (Z.eq_dec d 53) as [Heq|Hne].
  - rewrite Heq. change (53 - 53 - 0) with 0. cbv beta iota.
    exists p, 0. rewrite binary_round_aux_canonical by (fold d; lia).
    split; [done|]. split; [by fold d|]. split; [lia|]. split; [simpl; lia|lia].
  - destruct (d - 53 - 0) as [|k|k] eqn:Hk; try lia. cbv beta iota.
    assert (Hk' : Z.pos k = 53 - d) by lia.
    assert (Hm : Z.pos (Pos.iter xO p k) = Z.pos p * 2 ^ (53 - d))
      by (rewrite pos_iter_xO; by rewrite Hk').
    assert (Hpow : 2 ^ (d - 1) * 2 ^ (53 - d) = 2 ^ 52)
      by (rewrite <- pow2_split by lia; f_equal; lia).
    assert (Hpow' : 2 ^ d * 2 ^ (53 - d) = 2 ^ 53)
      by (rewrite <- pow2_split by lia; f_equal; lia).
    assert (Hpos : 0 < 2 ^ (53 - d)) by (apply Z.pow_pos_nonneg; lia).
    assert (Hdig : Z.pos (digits2_pos (Pos.iter xO p k)) = 53).
    { apply digits2_pos_bounds; [|lia]. rewrite Hm. simpl (53 - 1). nia. }
    exists (Pos.iter xO p k), (d - 53).
    rewrite binary_round_aux_canonical by (try done; lia).
    split; [done|]. split; [done|]. split; [lia|].
    split; [|lia]. rewrite Hm. f_equal. f_equal. lia.
Qed.

Lemma iter_pos_iter {A} (f : A → A) k x : iter_pos f k x = Pos.iter f x k.
Proof.
  revert x. induction k as [k IH|k IH|]; intros x; simpl.
  - rewrite !IH. by rewrite <- !Pos.iter_swap.
  - by rewrite !IH.
  - done.
Qed.

Lemma iter_shr_1_exact k m :
  iter_pos shr_1 k
    {| shr_m := Z.pos (Pos.iter xO m k); shr_r := false; shr_s := false |}
  = {| shr_m := Z.pos m; shr_r := false; shr_s := false |}.
Proof.
  rewrite iter_pos_iter.
  induction k as [|k IH] using Pos.peano_ind.
  - reflexivity.
  - rewrite !Pos.iter_succ, <- Pos.iter_swap.
    simpl shr_1. exact IH.
Qed.

Lemma fmul_two m e :
  Z.pos (digits2_pos m) = 53 → -1074 <= e + 1 <= 971 →
  fmul f2_0 (S754_finite false m e) = S754_finite false m (e + 1).
Proof.
  intros Hd He. unfold fmul, f2_0, SFmul. simpl xorb.
  change (4503599627370496 * m)%positive with (Pos.iter xO m 52).
  pose proof (digits2_pos_range m) as Hr. rewrite Hd in Hr.
  assert (Hdig : Z.pos (digits2_pos (Pos.iter xO m 52)) = 105).
  { apply digits2_pos_bounds; [|lia]. rewrite pos_iter_xO.
    change (2 ^ (105 - 1)) with (2 ^ 52 * 2 ^ 52).
    change (2 ^ 105) with (2 ^ 53 * 2 ^ 52).
    change (2 ^ (53 - 1)) with (2 ^ 52) in Hr.
    assert (0 < 2 ^ 52) by lia. nia. }
  unfold binary_round_aux.
  assert (Hshr : shr_fexp prec emax (Z.pos (Pos.iter xO m 52)) (-51 + e)
                   loc_Exact
                 = ({| shr_m := Z.pos m; shr_r := false; shr_s := false |},
                    e + 1)).
  { unfold shr_fexp, Zdigits2. rewrite Hdig.
    rewrite fexp_normal by lia.
    replace (105 + (-51 + e) - 53 - (-51 + e)) with 52 by lia.
    unfold shr, shr_record_of_loc. rewrite iter_shr_1_exact.
    f_equal. lia. }
  rewrite Hshr. simpl shr_m. simpl loc_of_shr_record.
  simpl round_nearest_even.
  rewrite shr_fexp_noshift by lia. simpl.
  replace (e + 1 <=? emax - prec) with true; [done|].
  symmetry. apply Z.leb_le. unfold emax, prec. lia.
Qed.

Lemma loc_of_shr_record_of_loc m l :
  loc_of_shr_record (shr_record_of_loc m l) = l.
Proof. by destruct l as [|[]]. Qed.

Lemma round_nearest_even_range m l :
  m <= round_nearest_even m l <= m + 1
  ∧ (l = loc_Exact → round_nearest_even m l = m).
Proof.
  unfold round_nearest_even.
  destruct l as [|[]]; try destruct (Z.even m); split; try lia; done.
Qed.

Lemma binary_round_aux_finish s mx ex lx :
  binary_round_aux prec emax s mx ex lx
  = let '(mrs, e) := shr_fexp prec emax mx ex lx in
    round_finish s (round_nearest_even (shr_m mrs) (loc_of_shr_record mrs)) e.
Proof. reflexivity. Qed.

Lemma round_finish_cases s m e :
  2 ^ 52 <= m <= 2 ^ 53 → -1074 <= e → e + 1 <= 971 →
  ∃ mf ef, round_finish s m e = S754_finite s mf ef
           ∧ ((m < 2 ^ 53 ∧ ef = e ∧ Z.pos mf = m)
              ∨ (m = 2 ^ 53 ∧ ef = e + 1 ∧ Z.pos mf = 2 ^ 52)).
Proof.
  intros Hm He He'. destruct m as [|p|p]; try lia.
  destruct (Z.eq_dec (Z.pos p) (2 ^ 53)) as [Heq|Hne].
  - injection Heq as ->. exists (4503599627370496)%positive, (e + 1).
    split; [|right; done]. unfold round_finish, shr_fexp.
    change (Zdigits2 _) with 54. rewrite fexp_normal by lia.
    replace (54 + e - 53 - e) with 1 by lia. simpl.
    replace (e + 1 <=? emax - prec) with true; [done|].
    symmetry. apply Z.leb_le. unfold emax, prec. lia.
  - exists p, e. split; [|left; lia].
    unfold round_finish. rewrite shr_fexp_noshift; [|apply digits2_pos_bounds; lia|lia].
    simpl.
    replace (e <=? emax - prec) with true; [done|].
    symmetry. apply Z.leb_le. unfold emax, prec. lia.
Qed.

Lemma binary_round_aux_53 s q e l :
  2 ^ 52 <= Z.pos q < 2 ^ 53 → -1074 <= e → e + 1 <= 971 →
  ∃ mf ef, binary_round_aux prec emax s (Z.pos q) e l = S754_finite s mf ef
           ∧ ((ef = e ∧ 2 ^ 52 <= Z.pos mf < 2 ^ 53)
              ∨ (ef = e + 1 ∧ Z.pos mf = 2 ^ 52)).
Proof.
  intros Hq He He'. rewrite binary_round_aux_finish.
  rewrite shr_fexp_noshift; [|apply digits2_pos_bounds; lia|lia].
  rewrite loc_of_shr_record_of_loc.
  replace (shr_m (shr_record_of_loc (Z.pos q) l)) with (Z.pos q)
    by (by destruct l as [|[]]).
  destruct (round_nearest_even_range (Z.pos q) l) as [Hr _].
  destruct (round_finish_cases s (round_nearest_even (Z.pos q) l) e)
    as (mf & ef & -> & Hcases); [lia..|].
  exists mf, ef. split; [done|]. lia.
Qed.

Lemma shr_1_m m r s : 0 <= m → shr_m (shr_1 (Build_shr_record m r s)) = m / 2.
Proof.
  intros Hm. destruct m as [|[p|p|]|]; cbn [shr_1 shr_m]; try lia.
  - reflexivity.
  - rewrite Pos2Z.inj_xI. apply Z.div_unique with 1; lia.
  - rewrite Pos2Z.inj_xO. apply Z.div_unique with 0; lia.
  - reflexivity.
Qed.

Lemma binary_round_aux_54 s q e l :
  2 ^ 53 <= Z.pos q < 2 ^ 54 → -1074 <= e → e + 2 <= 971 →
  ∃ mf ef, binary_round_aux prec emax s (Z.pos q) e l = S754_finite s mf ef
           ∧ ((ef = e + 1 ∧ 2 ^ 52 <= Z.pos mf < 2 ^ 53)
              ∨ (ef = e + 2 ∧ Z.pos mf = 2 ^ 52))
           ∧ (Z.pos q = 2 ^ 53 → l = loc_Exact →
              ef = e + 1 ∧ Z.pos mf = 2 ^ 52).
Proof.
  intros Hq He He'. rewrite binary_round_aux_finish.
  unfold shr_fexp at 1.
  replace (Zdigits2 (Z.pos q)) with 54
    by (symmetry; apply digits2_pos_bounds; lia).
  rewrite fexp_normal by lia. replace (54 + e - 53 - e) with 1 by lia.
  unfold shr. cbv beta iota. change (iter_pos shr_1 1 ?x) with (shr_1 x).
  set (rec := shr_1 (shr_record_of_loc (Z.pos q) l)).
  assert (Hm : shr_m rec = Z.pos q / 2).
  { subst rec. destruct l as [|[]]; simpl shr_record_of_loc;
      apply shr_1_m; lia. }
  assert (Hhalf : 2 ^ 52 <= Z.pos q / 2 < 2 ^ 53).
  { split; [apply Z.div_le_lower_bound; lia|apply Z.div_lt_upper_bound; lia]. }
  destruct (round_nearest_even_range (shr_m rec) (loc_of_shr_record rec))
    as [Hr Hexact].
  destruct (round_finish_cases s
              (round_nearest_even (shr_m rec) (loc_of_shr_record rec))
              (e + 1))
    as (mf & ef & -> & Hcases); [lia..|].
  exists mf, ef. split; [done|]. split; [lia|].
  intros Hq53 ->. subst rec. injection Hq53 as ->. simpl in *. lia.
Qed.

Lemma new_location_exact nb : new_location nb 0 = loc_Exact.
Proof. unfold new_location. by destruct (Z.even nb). Qed.

(** Division of two normal numbers whose quotient is at most one. *)
Lemma fdiv_at_most_one m1 e1 m2 e2 :
  Z.pos (digits2_pos m1) = 53 → Z.pos (digits2_pos m2) = 53 →
  -60 <= e1 <= 60 → -60 <= e2 <= 60 →
  e1 < e2 ∨ (e1 = e2 ∧ Z.pos m1 <= Z.pos m2) →
  ∃ mf ef,
    fdiv (S754_finite false m1 e1) (S754_finite false m2 e2)
    = S754_finite false mf ef
    ∧ (ef <= -53 ∨ (ef = -52 ∧ Z.pos mf = 2 ^ 52)).
Proof.
  intros Hd1 Hd2 He1 He2 Hle.
  pose proof (digits2_pos_range m1) as Hr1. rewrite Hd1 in Hr1.
  pose proof (digits2_pos_range m2) as Hr2. rewrite Hd2 in Hr2.
  change (2 ^ (53 - 1)) with (2 ^ 52) in Hr1, Hr2.
  unfold fdiv, SFdiv, SFdiv_core_binary, Zdigits2. rewrite Hd1, Hd2.
  rewrite fexp_normal by lia.
  replace (Z.min (53 + e1 - (53 + e2) - 53) (e1 - e2)) with (e1 - e2 - 53)
    by lia.
  replace (e1 - e2 - (e1 - e2 - 53)) with 53 by lia.
  rewrite Z.shiftl_mul_pow2 by lia.
  pose proof (Z_div_mod (Z.pos m1 * 2 ^ 53) (Z.pos m2) eq_refl) as Hdiv.
  destruct (Z.div_eucl (Z.pos m1 * 2 ^ 53) (Z.pos m2)) as [q r].
  destruct Hdiv as [Hq Hr]. simpl xorb.
  assert (Hq52 : 2 ^ 52 <= q) by nia.
  assert (Hq54 : q < 2 ^ 54) by nia.
  destruct q as [|q|q]; try lia.
  destruct (Z_lt_ge_dec (Z.pos q) (2 ^ 53)) as [Hlt|Hge].
  - destruct (binary_round_aux_53 false q (e1 - e2 - 53)
                (new_location (Z.pos m2) r))
      as (mf & ef & -> & Hcases); [lia..|].
    exists mf, ef. split; [done|]. lia.
  - destruct (binary_round_aux_54 false q (e1 - e2 - 53)
                (new_location (Z.pos m2) r))
      as (mf & ef & -> & Hcases & Hone); [lia..|].
    exists mf, ef. split; [done|].
    destruct Hle as [Hlt|[Heq Hm]]; [lia|].
    assert (Hq53 : Z.pos q = 2 ^ 53) by nia.
    assert (Hr0 : r = 0) by nia.
    subst r. rewrite new_location_exact in Hone.
    destruct (Hone Hq53 eq_refl) as [-> ->]. right. lia.
Qed.

Lemma fle_zero_finite m e : fle f0_0 (S754_finite false m e) = true.
Proof. reflexivity. Qed.

Lemma fle_at_most_one mf ef :
  ef <= -53 ∨ (ef = -52 ∧ Z.pos mf = 2 ^ 52) →
  fle (S754_finite false mf ef) f1_0 = true.
Proof.
  unfold fle, SFleb, f1_0, SFcompare.
  intros [He|[-> Hm]].
  - replace (ef ?= -52) with Lt; [done|]. symmetry. apply Z.compare_lt_iff. lia.
  - injection Hm as ->. reflexivity.
Qed.

Lemma shr_1_spec m r s :
  0 <= m →
  shr_1 {| shr_m := m; shr_r := r; shr_s := s |}
  = {| shr_m := m / 2; shr_r := Z.odd m; shr_s := r || s |}.
Proof.
  intros Hm. destruct m as [|[p|p|]|]; try lia; cbn [shr_1]; f_equal.
  - rewrite Pos2Z.inj_xI. apply Z.div_unique with 1; lia.
  - rewrite Pos2Z.inj_xO. apply Z.div_unique with 0; lia.
Qed.

Lemma odd_div_pow2 n k :
  0 <= n → 0 <= k →
  Z.odd (n / 2 ^ k) = (2 ^ k <=? n mod 2 ^ (k + 1)).
Proof.
  intros Hn Hk.
  assert (Hpow : 0 < 2 ^ k) by (apply Z.pow_pos_nonneg; lia).
  rewrite Z.pow_add_r, Z.pow_1_r by lia.
  rewrite Z.rem_mul_r by lia.
  pose proof (Z.mod_pos_bound n (2 ^ k) Hpow) as Hrem.
  rewrite (Zodd_mod (n / 2 ^ k)).
  pose proof (Z.mod_pos_bound (n / 2 ^ k) 2 ltac:(lia)) as Hbit.
  destruct (Z.eq_dec ((n / 2 ^ k) mod 2) 0) as [H0|H1].
  - rewrite H0. simpl. symmetry. apply Z.leb_gt. lia.
  - assert ((n / 2 ^ k) mod 2 = 1) as -> by lia. simpl.
    symmetry. apply Z.leb_le. lia.
Qed.

Lemma mod_pow2_succ_zero n k :
  0 <= n → 0 <= k →
  (n mod 2 ^ (k + 1) =? 0)
  = negb (Z.odd (n / 2 ^ k)) && (n mod 2 ^ k =? 0).
Proof.
  intros Hn Hk.
  assert (Hpow : 0 < 2 ^ k) by (apply Z.pow_pos_nonneg; lia).
  rewrite Z.pow_add_r, Z.pow_1_r by lia.
  rewrite Z.rem_mul_r by lia.
  pose proof (Z.mod_pos_bound n (2 ^ k) Hpow) as Hrem.
  rewrite (Zodd_mod (n / 2 ^ k)).
  pose proof (Z.mod_pos_bound (n / 2 ^ k) 2 ltac:(lia)) as Hbit.
  destruct (Z.eq_dec ((n / 2 ^ k) mod 2) 0) as [H0|H1].
  - rewrite H0. simpl. f_equal. lia.
  - assert ((n / 2 ^ k) mod 2 = 1) as -> by lia. simpl.
    apply Z.eqb_neq. lia.
Qed.

(** [k] right shifts with the round and sticky bits. *)
Lemma iter_shr_1_spec k n :
  0 <= n →
  iter_pos shr_1 k {| shr_m := n; shr_r := false; shr_s := false |}
  = {| shr_m := n / 2 ^ Z.pos k;
       shr_r := Z.odd (n / 2 ^ (Z.pos k - 1));
       shr_s := negb (n mod 2 ^ (Z.pos k - 1) =? 0) |}.
Proof.
  intros Hn. rewrite iter_pos_iter.
  induction k as [|k IH] using Pos.peano_ind.
  - cbn [Pos.iter]. rewrite shr_1_spec by done.
    change (Z.pos 1 - 1) with 0. change (2 ^ 0) with 1.
    rewrite Z.div_1_r, Z.mod_1_r. reflexivity.
  - rewrite Pos.iter_succ, IH.
    assert (Hpow : 0 < 2 ^ Z.pos k) by (apply Z.pow_pos_nonneg; lia).
    rewrite shr_1_spec by (apply Z.div_pos; lia).
    rewrite Pos2Z.inj_succ.
    replace (Z.succ (Z.pos k) - 1) with (Z.pos k) by lia.
    f_equal.
    + rewrite Z.div_div by lia. f_equal.
      replace (Z.succ (Z.pos k)) with (Z.pos k + 1) by lia.
      rewrite Z.pow_add_r by lia. lia.
    + replace (Z.pos k) with (Z.pos k - 1 + 1) at 3 by lia.
      rewrite mod_pow2_succ_zero by lia.
      destruct (Z.odd (n / 2 ^ (Z.pos k - 1))); simpl; [done|].
      by destruct (n mod 2 ^ (Z.pos k - 1) =? 0).
Qed.

Lemma log2_bounds n :
  0 < n → 2 ^ Z.log2 n <= n < 2 ^ (Z.log2 n + 1).
Proof.
  intros Hn. pose proof (Z.log2_spec n Hn) as H.
  by replace (Z.succ (Z.log2 n)) with (Z.log2 n + 1) in H by lia.
Qed.

Lemma rn_mantissa_range n :
  0 < n → 2 ^ 52 <= rn_mantissa n < 2 ^ 53.
Proof.
  intros Hn. unfold rn_mantissa, rn_exponent.
  pose proof (log2_bounds n Hn) as Hb.
  pose proof (Z.log2_nonneg n) as Hl.
  destruct (Z.leb_spec (Z.log2 n + 1 - 53) 0) as [He|He].
  - assert (Hlow : 2 ^ Z.log2 n * 2 ^ (- (Z.log2 n + 1 - 53)) = 2 ^ 52)
      by (rewrite <- Z.pow_add_r by lia; f_equal; lia).
    assert (Hhigh : 2 ^ (Z.log2 n + 1) * 2 ^ (- (Z.log2 n + 1 - 53)) = 2 ^ 53)
      by (rewrite <- Z.pow_add_r by lia; f_equal; lia).
    assert (0 < 2 ^ (- (Z.log2 n + 1 - 53))) by (apply Z.pow_pos_nonneg; lia).
    nia.
  - assert (Hpow : 0 < 2 ^ (Z.log2 n + 1 - 53))
      by (apply Z.pow_pos_nonneg; lia).
    assert (Hlow : 2 ^ Z.log2 n = 2 ^ 52 * 2 ^ (Z.log2 n + 1 - 53))
      by (rewrite <- Z.pow_add_r by lia; f_equal; lia).
    assert (Hhigh : 2 ^ (Z.log2 n + 1) = 2 ^ 53 * 2 ^ (Z.log2 n + 1 - 53))
      by (rewrite <- Z.pow_add_r by lia; f_equal; lia).
    split.
    + apply Z.div_le_lower_bound; lia.
    + apply Z.div_lt_upper_bound; lia.
Qed.

Lemma rn_range n :
  0 < n →
  2 ^ 52 <= (rn n).1 < 2 ^ 53
  ∧ rn_exponent n <= (rn n).2 <= rn_exponent n + 1
  ∧ ((rn n).2 = rn_exponent n + 1 → (rn n).1 = 2 ^ 52).
Proof.
  intros Hn. pose proof (rn_mantissa_range n Hn) as Hm. unfold rn.
  destruct (rn_up n);
    match goal with
    | |- context [?a =? ?b] => destruct (Z.eqb_spec a b)
    end; simpl; lia.
Qed.

Lemma round_nearest_even_up n :
  0 < n → 0 < rn_exponent n →
  round_nearest_even (n / 2 ^ rn_exponent n)
    (loc_of_shr_record
       {| shr_m := n / 2 ^ rn_exponent n;
          shr_r := Z.odd (n / 2 ^ (rn_exponent n - 1));
          shr_s := negb (n mod 2 ^ (rn_exponent n - 1) =? 0) |})
  = rn_mantissa n + (if rn_up n then 1 else 0).
Proof.
  intros Hn He. unfold rn_mantissa, rn_up.
  destruct (Z.leb_spec (rn_exponent n) 0) as [|_]; [lia|].
  set (e := rn_exponent n) in *.
  assert (Hhalf : 0 < 2 ^ (e - 1)) by (apply Z.pow_pos_nonneg; lia).
  assert (Hpow : 2 ^ e = 2 ^ (e - 1) * 2).
  { replace e with (e - 1 + 1) at 1 by lia.
    by rewrite Z.pow_add_r, Z.pow_1_r by lia. }
  rewrite (odd_div_pow2 n (e - 1)) by lia.
  replace (e - 1 + 1) with e by lia.
  assert (Hrem : n mod 2 ^ e
                 = 2 ^ (e - 1) * ((n / 2 ^ (e - 1)) mod 2) + n mod 2 ^ (e - 1)).
  { rewrite Hpow, Z.rem_mul_r by lia. lia. }
  pose proof (Z.mod_pos_bound n (2 ^ (e - 1)) Hhalf) as Hlow.
  pose proof (Z.mod_pos_bound (n / 2 ^ (e - 1)) 2 ltac:(lia)) as Hbit.
  assert (Hcase : n mod 2 ^ e = n mod 2 ^ (e - 1)
                  ∨ n mod 2 ^ e = 2 ^ (e - 1) + n mod 2 ^ (e - 1)).
  { destruct (Z.eq_dec ((n / 2 ^ (e - 1)) mod 2) 0) as [H0|H1].
    - left. rewrite Hrem, H0. lia.
    - right. rewrite Hrem. replace ((n / 2 ^ (e - 1)) mod 2) with 1 by lia.
      lia. }
  clear Hrem Hbit.
  unfold round_nearest_even, loc_of_shr_record.
  destruct (Z.leb_spec (2 ^ (e - 1)) (n mod 2 ^ e)) as [Hr|Hr];
    destruct (Z.eqb_spec (n mod 2 ^ (e - 1)) 0) as [Hs|Hs]; simpl negb; cbv iota.
  - replace (2 ^ (e - 1) <? n mod 2 ^ e) with false
      by (symmetry; apply Z.ltb_ge; lia).
    replace (n mod 2 ^ e =? 2 ^ (e - 1)) with true
      by (symmetry; apply Z.eqb_eq; lia).
    rewrite <- Z.negb_odd. simpl.
    destruct (Z.odd (n / 2 ^ e)); simpl; lia.
  - replace (2 ^ (e - 1) <? n mod 2 ^ e) with true
      by (symmetry; apply Z.ltb_lt; lia).
    simpl. lia.
  - replace (2 ^ (e - 1) <? n mod 2 ^ e) with false
      by (symmetry; apply Z.ltb_ge; lia).
    replace (n mod 2 ^ e =? 2 ^ (e - 1)) with false
      by (symmetry; apply Z.eqb_neq; lia).
    simpl. lia.
  - replace (2 ^ (e - 1) <? n mod 2 ^ e) with false
      by (symmetry; apply Z.ltb_ge; lia).
    replace (n mod 2 ^ e =? 2 ^ (e - 1)) with false
      by (symmetry; apply Z.eqb_neq; lia).
    simpl. lia.
Qed.

(** The conversion of a positive integer below 2^64 to [float]. *)
Lemma float_of_Z_rn n :
  0 < n < 2 ^ 64 →
  float_of_Z n = S754_finite false (Z.to_pos (rn n).1) (rn n).2.
Proof.
  intros Hn. pose proof (rn_mantissa_range n ltac:(lia)) as Hm.
  pose proof (log2_bounds n ltac:(lia)) as Hb.
  assert (Hlog : Z.log2 n < 64).
  { apply Z.log2_lt_pow2; lia. }
  pose proof (Z.log2_nonneg n) as Hl.
  destruct (Z.leb_spec (rn_exponent n) 0) as [He|He].
  - assert (Hsmall : n < 2 ^ 53).
    { unfold rn_exponent in He.
      assert (2 ^ (Z.log2 n + 1) <= 2 ^ 53)
        by (apply Z.pow_le_mono_r; lia). lia. }
    destruct (float_of_Z_exact n ltac:(lia))
      as (m & e & -> & Hd & Her & Hv & Hle).
    unfold rn, rn_up, rn_mantissa in *.
    destruct (Z.leb_spec (rn_exponent n) 0) as [_|]; [|lia].
    rewrite Z.add_0_r in *.
    destruct (Z.eqb_spec (n * 2 ^ (- rn_exponent n)) (2 ^ 53)); [lia|].
    simpl. unfold rn_exponent in *.
    replace (Z.log2 n + 1 - 53) with e by lia.
    f_equal. rewrite <- Hv. done.
  - destruct n as [|p|p]; try lia.
    unfold float_of_Z, binary_normalize, binary_round.
    rewrite Z.add_0_r.
    assert (Hd : Z.pos (digits2_pos p) = rn_exponent (Z.pos p) + 53)
      by (rewrite digits2_pos_log2; unfold rn_exponent; lia).
    rewrite Hd, fexp_normal by lia.
    replace (rn_exponent (Z.pos p) + 53 - 53) with (rn_exponent (Z.pos p))
      by lia.
    unfold shl_align. rewrite Z.sub_0_r.
    destruct (rn_exponent (Z.pos p)) as [|k|k] eqn:Hk; try lia.
    cbv beta iota. rewrite binary_round_aux_finish.
    unfold shr_fexp, Zdigits2. rewrite Z.add_0_r, Hd, fexp_normal by lia.
    replace (Z.pos k + 53 - 53 - 0) with (Z.pos k) by lia.
    unfold shr, shr_record_of_loc. rewrite iter_shr_1_spec by lia.
    cbn [shr_m]. rewrite <- Hk.
    rewrite round_nearest_even_up by lia.
    unfold rn. rewrite Z.add_0_l.
    destruct (round_finish_cases false
                (rn_mantissa (Z.pos p)
                 + (if rn_up (Z.pos p) then 1 else 0))
                (rn_exponent (Z.pos p)))
      as (mf & ef & -> & Hcases).
    { destruct (rn_up (Z.pos p)); lia. }
    { lia. }
    { unfold rn_exponent. lia. }
    destruct Hcases as [(Hlt & -> & Hmf)|(Heq & -> & Hmf)].
    + destruct (Z.eqb_spec (rn_mantissa (Z.pos p)
                            + (if rn_up (Z.pos p) then 1 else 0)) (2 ^ 53));
        [lia|].
      simpl. f_equal. rewrite <- Hmf. done.
    + rewrite Heq. simpl. f_equal. lia.
Qed.

Lemma rn_exponent_double n : 0 < n → rn_exponent (2 * n) = rn_exponent n + 1.
Proof. intros Hn. unfold rn_exponent. rewrite Z.log2_double by lia. lia. Qed.

Lemma rn_mantissa_double n : 0 < n → rn_mantissa (2 * n) = rn_mantissa n.
Proof.
  intros Hn. unfold rn_mantissa. rewrite rn_exponent_double by done.
  set (e := rn_exponent n).
  destruct (Z.leb_spec (e + 1) 0) as [He|He];
    destruct (Z.leb_spec e 0) as [He'|He']; try lia.
  - replace (- e) with (- (e + 1) + 1) by lia.
    rewrite Z.pow_add_r, Z.pow_1_r by lia. lia.
  - assert (e = 0) as -> by lia. simpl. rewrite Z.mul_comm, Z.div_mul; lia.
  - rewrite Z.pow_add_r, Z.pow_1_r by lia.
    rewrite (Z.mul_comm (2 ^ e) 2).
    assert (0 < 2 ^ e) by (apply Z.pow_pos_nonneg; lia).
    apply Z.div_mul_cancel_l; lia.
Qed.

Lemma rn_up_double n : 0 < n → rn_up (2 * n) = rn_up n.
Proof.
  intros Hn. unfold rn_up. rewrite rn_exponent_double by done.
  set (e := rn_exponent n).
  destruct (Z.leb_spec (e + 1) 0) as [He|He];
    destruct (Z.leb_spec e 0) as [He'|He']; try lia; try done.
  - assert (e = 0) as -> by lia. simpl.
    rewrite Z.mul_comm, Z.mod_mul by lia. reflexivity.
  - assert (Hpow : 0 < 2 ^ e) by (apply Z.pow_pos_nonneg; lia).
    assert (Hhalf : 0 < 2 ^ (e - 1)) by (apply Z.pow_pos_nonneg; lia).
    replace (e + 1 - 1) with e by lia.
    assert (He2 : 2 ^ e = 2 * 2 ^ (e - 1)).
    { replace e with (e - 1 + 1) at 1 by lia.
      rewrite Z.pow_add_r, Z.pow_1_r by lia. lia. }
    rewrite Z.pow_add_r, Z.pow_1_r by lia.
    rewrite (Z.mul_comm (2 ^ e) 2).
    rewrite Z.mul_mod_distr_l by lia.
    rewrite Z.div_mul_cancel_l by lia.
    f_equal; [|f_equal].
    + destruct (Z.ltb_spec (2 ^ e) (2 * (n mod 2 ^ e)));
        destruct (Z.ltb_spec (2 ^ (e - 1)) (n mod 2 ^ e)); lia.
    + destruct (Z.eqb_spec (2 * (n mod 2 ^ e)) (2 ^ e));
        destruct (Z.eqb_spec (n mod 2 ^ e) (2 ^ (e - 1))); lia.
Qed.

(** Doubling an integer adds one to the exponent of its float. *)
Lemma rn_double n : 0 < n → rn (2 * n) = ((rn n).1, (rn n).2 + 1).
Proof.
  intros Hn. unfold rn.
  rewrite rn_exponent_double, rn_mantissa_double, rn_up_double by done.
  by destruct (_ =? _).
Qed.

Lemma rn_mantissa_mono a b :
  0 < a <= b → rn_exponent a = rn_exponent b →
  rn_mantissa a + (if rn_up a then 1 else 0)
  <= rn_mantissa b + (if rn_up b then 1 else 0).
Proof.
  intros Hab He. unfold rn_mantissa, rn_up. rewrite He.
  set (e := rn_exponent b).
  destruct (Z.leb_spec e 0) as [Hle|Hgt].
  - assert (0 < 2 ^ (- e)) by (apply Z.pow_pos_nonneg; lia). nia.
  - assert (Hpow : 0 < 2 ^ e) by (apply Z.pow_pos_nonneg; lia).
    pose proof (Z.div_mod a (2 ^ e) ltac:(lia)) as Ha.
    pose proof (Z.div_mod b (2 ^ e) ltac:(lia)) as Hb.
    pose proof (Z.mod_pos_bound a (2 ^ e) Hpow) as Hra.
    pose proof (Z.mod_pos_bound b (2 ^ e) Hpow) as Hrb.
    assert (Hdiv : a / 2 ^ e <= b / 2 ^ e) by (apply Z.div_le_mono; lia).
    destruct (Z.eq_dec (a / 2 ^ e) (b / 2 ^ e)) as [Heq|Hne].
    + rewrite Heq in *.
      assert (Hrem : a mod 2 ^ e <= b mod 2 ^ e) by lia.
      destruct (Z.ltb_spec (2 ^ (e - 1)) (a mod 2 ^ e));
        destruct (Z.ltb_spec (2 ^ (e - 1)) (b mod 2 ^ e));
        destruct (Z.eqb_spec (a mod 2 ^ e) (2 ^ (e - 1)));
        destruct (Z.eqb_spec (b mod 2 ^ e) (2 ^ (e - 1)));
        destruct (Z.odd (b / 2 ^ e)); simpl; lia.
    + destruct (_ || _); destruct (_ || _); lia.
Qed.

(** The conversion to [float] is monotone. *)
Lemma rn_mono a b :
  0 < a <= b →
  (rn a).2 < (rn b).2 ∨ ((rn a).2 = (rn b).2 ∧ (rn a).1 <= (rn b).1).
Proof.
  intros Hab.
  destruct (rn_range a ltac:(lia)) as (Hma & Hea & Hca).
  destruct (rn_range b ltac:(lia)) as (Hmb & Heb & Hcb).
  assert (Hlog : rn_exponent a <= rn_exponent b).
  { unfold rn_exponent. pose proof (Z.log2_le_mono a b ltac:(lia)). lia. }
  destruct (Z.eq_dec (rn_exponent a) (rn_exponent b)) as [He|Hne]; [|lia].
  pose proof (rn_mantissa_mono a b Hab He) as Hmono.
  pose proof (rn_mantissa_range a ltac:(lia)) as Hra.
  pose proof (rn_mantissa_range b ltac:(lia)) as Hrb.
  unfold rn in *. rewrite He in *.
  destruct (Z.eqb_spec (rn_mantissa a + (if rn_up a then 1 else 0)) (2 ^ 53));
    destruct (Z.eqb_spec (rn_mantissa b + (if rn_up b then 1 else 0))
                (2 ^ 53));
    simpl in *; destruct (rn_up a), (rn_up b); lia.
Qed.

Lemma digits2_pos_rn n : 0 < n → Z.pos (digits2_pos (Z.to_pos (rn n).1)) = 53.
Proof.
  intros Hn. destruct (rn_range n Hn) as (Hm & _).
  apply digits2_pos_bounds; [|lia]. rewrite Z2Pos.id by lia. simpl. lia.
Qed.

Lemma rn_exponent_range n : 0 < n < 2 ^ 64 → -52 <= (rn n).2 <= 12.
Proof.
  intros Hn. destruct (rn_range n ltac:(lia)) as (_ & He & _).
  unfold rn_exponent in He.
  pose proof (Z.log2_nonneg n).
  assert (Z.log2 n < 64) by (apply Z.log2_lt_pow2; lia). lia.
Qed.

(** A normal number divided by itself. *)
Lemma fdiv_self m e :
  Z.pos (digits2_pos m) = 53 → -60 <= e <= 60 →
  fdiv (S754_finite false m e) (S754_finite false m e) = f1_0.
Proof.
  intros Hd He.
  pose proof (digits2_pos_range m) as Hr. rewrite Hd in Hr.
  change (2 ^ (53 - 1)) with (2 ^ 52) in Hr.
  unfold fdiv, SFdiv, SFdiv_core_binary, Zdigits2. rewrite Hd.
  rewrite fexp_normal by lia.
  replace (Z.min (53 + e - (53 + e) - 53) (e - e)) with (-53) by lia.
  replace (e - e - -53) with 53 by lia.
  rewrite Z.shiftl_mul_pow2 by lia.
  replace (Z.pos m * 2 ^ 53) with (2 ^ 53 * Z.pos m) by lia.
  pose proof (Z_div_mod (2 ^ 53 * Z.pos m) (Z.pos m) eq_refl) as Hdiv.
  destruct (Z.div_eucl (2 ^ 53 * Z.pos m) (Z.pos m)) as [q r].
  destruct Hdiv as [Hq Hrem].
  assert (Hq53 : q = 2 ^ 53) by nia.
  assert (Hr0 : r = 0) by nia.
  subst q r. rewrite new_location_exact. reflexivity.
Qed.

(** [_calculate_ratio] for lengths below 2^64. *)
Lemma calculate_ratio_range matches length :
  0 <= matches → 2 * matches <= length → length < 2 ^ 64 →
  fle f0_0 (calculate_ratio matches length) = true
  ∧ fle (calculate_ratio matches length) f1_0 = true.
Proof.
  intros Hm Hle Hlen. unfold calculate_ratio.
  destruct (Z.eqb_spec length 0) as [|Hne]; [done|].
  rewrite (float_of_Z_rn length) by lia.
  destruct (Z.eq_dec matches 0) as [->|Hm0]; [split; reflexivity|].
  rewrite (float_of_Z_rn matches) by lia.
  pose proof (digits2_pos_rn matches ltac:(lia)) as Hd1.
  pose proof (digits2_pos_rn length ltac:(lia)) as Hd2.
  pose proof (rn_exponent_range matches ltac:(lia)) as He1.
  pose proof (rn_exponent_range length ltac:(lia)) as He2.
  destruct (rn_range matches ltac:(lia)) as (Hm1 & _).
  destruct (rn_range length ltac:(lia)) as (Hm2 & _).
  rewrite fmul_two by (try done; lia).
  pose proof (rn_mono (2 * matches) length ltac:(lia)) as Hmono.
  rewrite rn_double in Hmono by lia. cbn [fst snd] in Hmono.
  assert (Hord : (rn matches).2 + 1 < (rn length).2
                 ∨ ((rn matches).2 + 1 = (rn length).2
                    ∧ Z.pos (Z.to_pos (rn matches).1)
                      <= Z.pos (Z.to_pos (rn length).1)))
    by (rewrite !Z2Pos.id by lia; lia).
  destruct (fdiv_at_most_one (Z.to_pos (rn matches).1) ((rn matches).2 + 1)
              (Z.to_pos (rn length).1) (rn length).2 Hd1 Hd2
              ltac:(lia) ltac:(lia) Hord)
    as (mf & ef & -> & Hcases).
  split; [apply fle_zero_finite|by apply fle_at_most_one].
Qed.

Lemma calculate_ratio_one n :
  0 < n → 2 * n < 2 ^ 64 → calculate_ratio n (2 * n) = f1_0.
Proof.
  intros Hn Hlen. unfold calculate_ratio.
  destruct (Z.eqb_spec (2 * n) 0) as [|Hne]; [lia|].
  rewrite (float_of_Z_rn (2 * n)), (float_of_Z_rn n) by lia.
  rewrite rn_double by lia. cbn [fst snd].
  pose proof (rn_exponent_range n ltac:(lia)) as He.
  rewrite fmul_two by (try apply digits2_pos_rn; lia).
  apply fdiv_self; [by apply digits2_pos_rn|lia].
Qed.

(** ** The matcher *)

Section MatcherBounds.

Variable sm : SequenceMatcher.

Lemma extend_back_in fuel junk alo ahi blo bhi best :
  block_in alo ahi blo bhi best →
  block_in alo ahi blo bhi (extend_back fuel sm junk alo blo best).
Proof.
  revert best. induction fuel as [|fuel IH]; intros [[i j] k]; simpl; [done|].
  intros H. destruct (_ && _) eqn:E; [|done].
  apply IH. repeat (apply andb_true_iff in E as [E ?]).
  unfold block_in in *. simpl in *. lia.
Qed.

Lemma extend_forth_in fuel junk alo ahi blo bhi best :
  block_in alo ahi blo bhi best →
  block_in alo ahi blo bhi (extend_forth fuel sm junk ahi bhi best).
Proof.
  revert best. induction fuel as [|fuel IH]; intros [[i j] k]; simpl; [done|].
  intros H. destruct (_ && _) eqn:E; [|done].
  apply IH. repeat (apply andb_true_iff in E as [E ?]).
  unfold block_in in *. simpl in *. lia.
Qed.

Lemma flm_row_in js alo ahi blo bhi i j2len newj2len best :
  alo <= i < ahi →
  row_bounded alo blo bhi (i - 1) j2len →
  row_bounded alo blo bhi i newj2len →
  block_in alo ahi blo bhi best →
  row_bounded alo blo bhi i (flm_row js blo bhi i j2len newj2len best).1
  ∧ block_in alo ahi blo bhi (flm_row js blo bhi i j2len newj2len best).2.
Proof.
  intros Hi Hprev. revert newj2len best.
  induction js as [|j js IH]; intros newj2len best Hnew Hbest; simpl; [done|].
  destruct (Z.ltb_spec j blo) as [Hlo|Hlo]; [by apply IH|].
  destruct (Z.leb_spec bhi j) as [Hhi|Hhi]; [done|].
  set (k := default 0 (j2len !! (j - 1)) + 1).
  assert (Hk : 1 <= k ∧ k <= i - alo + 1 ∧ k <= j - blo + 1).
  { subst k. destruct (j2len !! (j - 1)) as [v|] eqn:Hv; simpl; [|lia].
    destruct (Hprev _ _ Hv). lia. }
  apply IH.
  - intros j' v. rewrite lookup_insert. case_decide as Hj.
    + intros [= <-]. subst j'. lia.
    + apply Hnew.
  - destruct (Z.ltb_spec best.2 k); [|done].
    unfold block_in. simpl. lia.
Qed.

Lemma flm_fold_in alo ahi blo bhi n lo st :
  alo <= lo → lo + Z.of_nat n <= ahi →
  row_bounded alo blo bhi (lo - 1) st.1 →
  block_in alo ahi blo bhi st.2 →
  block_in alo ahi blo bhi
    (foldl (flm_step sm blo bhi) st (seqZ lo (Z.of_nat n))).2.
Proof.
  revert lo st. induction n as [|n IH]; intros lo st Hlo Hhi Hrow Hbest.
  - done.
  - rewrite seqZ_cons by lia. simpl foldl.
    replace (Z.pred (Z.of_nat (S n))) with (Z.of_nat n) by lia.
    destruct (flm_row_in
                (match char_at (sm_a sm) lo with
                 | Some c => default [] (sm_b2j sm !! c)
                 | None => []
                 end) alo ahi blo bhi lo st.1 ∅ st.2) as [Hrow' Hbest'];
      [lia|done| |done|].
    { intros j v. by rewrite lookup_empty. }
    apply IH; [lia|lia| |done].
    by replace (Z.succ lo - 1) with lo by lia.
Qed.

Lemma flm_scan_in alo ahi blo bhi :
  alo <= ahi → blo <= bhi →
  block_in alo ahi blo bhi (flm_scan sm alo ahi blo bhi).
Proof.
  intros Ha Hb. unfold flm_scan.
  replace (ahi - alo) with (Z.of_nat (Z.to_nat (ahi - alo))) by lia.
  apply flm_fold_in; simpl; [lia|lia| |].
  - intros j v. by rewrite lookup_empty.
  - unfold block_in. simpl. lia.
Qed.

Lemma find_longest_match_in alo ahi blo bhi :
  alo <= ahi → blo <= bhi →
  block_in alo ahi blo bhi (find_longest_match sm alo ahi blo bhi).
Proof.
  intros Ha Hb. unfold find_longest_match.
  apply extend_forth_in, extend_back_in, extend_forth_in, extend_back_in.
  by apply flm_scan_in.
Qed.

Lemma sum_sizes_app l1 l2 : sum_sizes (l1 ++ l2) = sum_sizes l1 + sum_sizes l2.
Proof. unfold sum_sizes. induction l1 as [|x l IH]; simpl; lia. Qed.

Lemma matching_loop_sum fuel queue acc :
  Forall span_ok queue →
  sum_sizes acc <= sum_sizes (matching_loop fuel sm queue acc)
  <= sum_sizes acc + queue_cap queue.
Proof.
  revert queue acc. induction fuel as [|fuel IH]; intros queue acc Hq.
  - assert (0 <= queue_cap queue).
    { induction Hq as [|[[[alo ahi] blo] bhi] q Hs Hq' IHq]; simpl; [lia|].
      destruct Hs. lia. }
    simpl. lia.
  - destruct queue as [|[[[alo ahi] blo] bhi] queue]; [simpl; lia|].
    apply Forall_cons in Hq as [[Ha Hb] Hq]. simpl matching_loop.
    pose proof (find_longest_match_in alo ahi blo bhi Ha Hb) as Hin.
    destruct (find_longest_match sm alo ahi blo bhi) as [[i j] k].
    unfold block_in in Hin. simpl in Hin.
    destruct (Z.eqb_spec k 0) as [->|Hk].
    + specialize (IH queue acc Hq). simpl. lia.
    + destruct ((alo <? i) && (blo <? j)) eqn:E1;
        destruct ((i + k <? ahi) && (j + k <? bhi)) eqn:E2;
        try (apply andb_true_iff in E1 as [?%Z.ltb_lt ?%Z.ltb_lt]);
        try (apply andb_true_iff in E2 as [?%Z.ltb_lt ?%Z.ltb_lt]);
        match goal with
        | |- context [matching_loop fuel sm ?q ?a] =>
            assert (Hq' : Forall span_ok q)
              by (repeat (apply Forall_cons; split; [simpl; lia|]); done);
            specialize (IH q a Hq')
        end;
        rewrite sum_sizes_app in IH; simpl in IH; simpl queue_cap; lia.
Qed.

End MatcherBounds.

Lemma sum_sizes_insert_block x l :
  sum_sizes (insert_block x l) = x.2 + sum_sizes l.
Proof.
  induction l as [|y l IH]; simpl; [done|].
  destruct (block_leb x y); simpl; [done|]. rewrite IH. lia.
Qed.

Lemma sum_sizes_sort_blocks l : sum_sizes (sort_blocks l) = sum_sizes l.
Proof.
  induction l as [|x l IH]; [done|].
  change (sort_blocks (x :: l)) with (insert_block x (sort_blocks l)).
  rewrite sum_sizes_insert_block, IH. done.
Qed.

Lemma collapse_fold_sum l st :
  let st' := foldl collapse_step st l in
  st'.1.2 + sum_sizes st'.2 = st.1.2 + sum_sizes st.2 + sum_sizes l.
Proof.
  revert st. induction l as [|[[i2 j2] k2] l IH]; intros [[[i1 j1] k1] na];
    simpl; [lia|].
  specialize (IH (collapse_step (i1, j1, k1, na) (i2, j2, k2))).
  simpl in IH. rewrite IH. clear IH.
  destruct (_ && _); simpl; [lia|].
  destruct (k1 =? 0) eqn:E; [apply Z.eqb_eq in E; lia|].
  rewrite sum_sizes_app. simpl. lia.
Qed.

Lemma sum_sizes_collapse_blocks l : sum_sizes (collapse_blocks l) = sum_sizes l.
Proof.
  unfold collapse_blocks.
  pose proof (collapse_fold_sum l ((0, 0, 0), [])) as H. simpl in H.
  destruct (foldl collapse_step (0, 0, 0, []) l) as [[[i1 j1] k1] na].
  simpl in H. destruct (k1 =? 0) eqn:E; [apply Z.eqb_eq in E; lia|].
  rewrite sum_sizes_app. simpl. lia.
Qed.

Lemma sum_sizes_get_matching_blocks sm :
  sum_sizes (get_matching_blocks sm)
  = sum_sizes (matching_loop (matching_fuel sm) sm
                 [(0, Z.of_nat (length (sm_a sm)), 0,
                   Z.of_nat (length (sm_b sm)))] []).
Proof.
  unfold get_matching_blocks. rewrite sum_sizes_app. simpl.
  rewrite sum_sizes_collapse_blocks, sum_sizes_sort_blocks. lia.
Qed.

(** The number of matched elements is at most the length of the shorter
    sequence. *)
Lemma matches_bounds sm :
  let matches := sum_sizes (get_matching_blocks sm) in
  0 <= matches
  ∧ 2 * matches <= Z.of_nat (length (sm_a sm)) + Z.of_nat (length (sm_b sm)).
Proof.
  intros matches. subst matches. rewrite sum_sizes_get_matching_blocks.
  pose proof (matching_loop_sum sm (matching_fuel sm)
                [(0, Z.of_nat (length (sm_a sm)), 0,
                  Z.of_nat (length (sm_b sm)))] []) as H.
  unfold queue_cap, span_cap in H. cbn [foldr] in H.
  change (sum_sizes []) with 0 in H. assert (Hok : Forall span_ok
      [(0, Z.of_nat (length (sm_a sm)), 0, Z.of_nat (length (sm_b sm)))]).
  { constructor; [simpl; lia|constructor]. }
  specialize (H Hok). lia.
Qed.
(** *** The index of the second sequence *)

Lemma b2j_fold_lookup (b : pystr) (i c : Z) (m : gmap Z (list Z)) :
  default [] (foldl (λ (b2j : gmap Z (list Z)) '(i, elt),
                       <[elt := default [] (b2j !! elt) ++ [i]]> b2j)
                m (zip (seqZ i (Z.of_nat (length b))) b) !! c)
  = default [] (m !! c) ++ positions_from c i b.
Proof.
  revert i m. induction b as [|x r IH]; intros i m.
  - simpl. by rewrite app_nil_r.
  - cbn [length]. rewrite seqZ_cons by lia.
    replace (Z.pred (Z.of_nat (S (length r)))) with (Z.of_nat (length r))
      by lia.
    cbn [zip zip_with foldl positions_from].
    replace (Z.succ i) with (i + 1) by lia. rewrite IH.
    rewrite lookup_insert. destruct (Z.eqb_spec x c) as [->|Hne].
    + rewrite decide_True by done. simpl. by rewrite <- app_assoc.
    + rewrite decide_False by done. done.
Qed.

Lemma b2j_all_lookup (b : pystr) (c : Z) :
  default [] (b2j_all b !! c) = positions_from c 0 b.
Proof. unfold b2j_all, enumerate. by rewrite b2j_fold_lookup, lookup_empty. Qed.

Lemma chain_b_lookup (b : pystr) (c : Z) (js : list Z) :
  chain_b b !! c = Some js → js = positions_from c 0 b.
Proof.
  unfold chain_b. intros H.
  assert (Hall : b2j_all b !! c = Some js).
  { destruct (200 <=? Z.of_nat (length b)); [|done].
    by apply map_lookup_filter_Some in H as [H _]. }
  rewrite <- b2j_all_lookup. by rewrite Hall.
Qed.

Lemma elem_of_positions_from (c i j : Z) (s : pystr) :
  j ∈ positions_from c i s ↔ i <= j ∧ char_at s (j - i) = Some c.
Proof.
  revert i. induction s as [|x r IH]; intros i; simpl.
  - rewrite elem_of_nil. unfold char_at.
    destruct (j - i <? 0); [naive_solver|]. rewrite lookup_nil. naive_solver.
  - rewrite elem_of_app, IH. unfold char_at.
    destruct (Z.eqb_spec x c) as [->|Hne].
    + rewrite list_elem_of_singleton. split.
      * intros [->|[Hi Hc]].
        -- split; [lia|]. by replace (i - i) with 0 by lia.
        -- split; [lia|]. destruct (Z.ltb_spec (j - (i + 1)) 0); [done|].
           destruct (Z.ltb_spec (j - i) 0); [lia|].
           replace (Z.to_nat (j - i)) with (S (Z.to_nat (j - (i + 1)))) by lia.
           done.
      * intros [Hi Hc]. destruct (Z.eq_dec j i) as [|Hne]; [by left|right].
        split; [lia|]. destruct (Z.ltb_spec (j - i) 0); [done|].
        destruct (Z.ltb_spec (j - (i + 1)) 0); [lia|].
        replace (Z.to_nat (j - i)) with (S (Z.to_nat (j - (i + 1)))) in Hc
          by lia.
        done.
    + rewrite elem_of_nil. split.
      * intros [[]|[Hi Hc]].
        split; [lia|]. destruct (Z.ltb_spec (j - (i + 1)) 0); [done|].
        destruct (Z.ltb_spec (j - i) 0); [lia|].
        replace (Z.to_nat (j - i)) with (S (Z.to_nat (j - (i + 1)))) by lia.
        done.
      * intros [Hi Hc]. right.
        destruct (Z.ltb_spec (j - i) 0); [done|].
        destruct (Z.eq_dec j i) as [->|Hji].
        { replace (i - i) with 0 in Hc by lia. simpl in Hc. congruence. }
        split; [lia|]. destruct (Z.ltb_spec (j - (i + 1)) 0); [lia|].
        replace (Z.to_nat (j - i)) with (S (Z.to_nat (j - (i + 1)))) in Hc
          by lia.
        done.
Qed.

Lemma ascending_positions_from (c i : Z) (s : pystr) :
  ascending (positions_from c i s).
Proof.
  revert i. induction s as [|x r IH]; intros i; simpl; [done|].
  destruct (x =? c); simpl; [|apply IH]. split; [|apply IH].
  apply Forall_forall. intros j Hj%elem_of_positions_from. lia.
Qed.

Lemma char_at_Some (s : pystr) (i c : Z) :
  char_at s i = Some c → 0 <= i < Z.of_nat (length s).
Proof.
  unfold char_at. destruct (Z.ltb_spec i 0) as [Hneg|Hpos]; [done|].
  intros Hlook%lookup_lt_Some. lia.
Qed.

Lemma char_at_is_Some (s : pystr) (i : Z) :
  0 <= i < Z.of_nat (length s) → ∃ c, char_at s i = Some c.
Proof.
  intros Hi. unfold char_at. destruct (Z.ltb_spec i 0); [lia|].
  destruct (lookup_lt_is_Some_2 s (Z.to_nat i)) as [c Hc]; [lia|]. eauto.
Qed.

(** Either the element at [i] is not in the index, or its row lists all
    the positions of that element. *)
Lemma row_js_cases (s : pystr) (i : Z) :
  row_js s i = []
  ∨ ∃ c, char_at s i = Some c ∧ row_js s i = positions_from c 0 s.
Proof.
  unfold row_js. destruct (char_at s i) as [c|] eqn:Hc; [|by left].
  destruct (chain_b s !! c) as [js|] eqn:Hjs; [|by left].
  right. exists c. split; [done|]. simpl. by eapply chain_b_lookup.
Qed.

Lemma row_js_elem (s : pystr) (i j : Z) :
  j ∈ row_js s i →
  row_js s j = row_js s i ∧ i ∈ row_js s i
  ∧ 0 <= j < Z.of_nat (length s) ∧ 0 <= i < Z.of_nat (length s).
Proof.
  intros Hj. destruct (row_js_cases s i) as [He|(c & Hc & Hrow)].
  { rewrite He in Hj. by apply elem_of_nil in Hj. }
  rewrite Hrow in Hj. apply elem_of_positions_from in Hj as [Hj0 Hjc].
  rewrite Z.sub_0_r in Hjc. split; [|split; [|split]].
  - unfold row_js at 1. rewrite Hjc. unfold row_js. by rewrite Hc.
  - rewrite Hrow. apply elem_of_positions_from. rewrite Z.sub_0_r.
    split; [|done]. apply char_at_Some in Hc. lia.
  - by eapply char_at_Some.
  - by eapply char_at_Some.
Qed.

Lemma ascending_row_js (s : pystr) (i : Z) : ascending (row_js s i).
Proof.
  destruct (row_js_cases s i) as [->|(c & _ & ->)]; [done|].
  apply ascending_positions_from.
Qed.

Lemma run_nat_nonneg s p : 0 <= run_nat s p.
Proof. induction p; simpl; case_decide; lia. Qed.

Lemma run_nonneg s p : 0 <= run s p.
Proof. unfold run. destruct (p <? 0); [lia|apply run_nat_nonneg]. Qed.

Lemma run_step s p :
  0 <= p →
  run s p = if decide (row_js s p = []) then 0 else run s (p - 1) + 1.
Proof.
  intros Hp. unfold run. destruct (Z.ltb_spec p 0); [lia|].
  destruct (Z.to_nat p) as [|q] eqn:Hq.
  - assert (p = 0) as -> by lia. simpl. by case_decide.
  - simpl run_nat. replace (Z.of_nat (S q)) with p by lia.
    case_decide; [done|]. destruct (Z.ltb_spec (p - 1) 0); [lia|].
    by replace (Z.to_nat (p - 1)) with q by lia.
Qed.

(** *** A sequence compared with itself *)

Section SelfMatch.

Variable s : pystr.

Local Abbreviation n := (Z.of_nat (length s)).
Local Abbreviation sm := (new_matcher s s).
Local Abbreviation diag_rows := (diag_rows s).
Local Abbreviation diag_best := (diag_best s).

Lemma run_empty p : row_js s p = [] → run s p = 0.
Proof.
  intros He. destruct (Z_lt_ge_dec p 0) as [Hneg|Hpos].
  - unfold run. by destruct (Z.ltb_spec p 0); [|lia].
  - rewrite run_step by lia. by rewrite decide_True.
Qed.

Lemma run_indexed p :
  0 <= p → row_js s p ≠ [] → run s p = run s (p - 1) + 1.
Proof. intros Hp Hne. rewrite run_step by lia. by rewrite decide_False. Qed.

Lemma row_js_self i : row_js s i ≠ [] → i ∈ row_js s i.
Proof.
  intros Hne. destruct (row_js_cases s i) as [|(c & Hc & Hrow)]; [done|].
  rewrite Hrow. apply elem_of_positions_from. rewrite Z.sub_0_r.
  split; [|done]. apply char_at_Some in Hc. lia.
Qed.

Lemma diag_prev_lookup i j2len :
  diag_rows (i - 1) j2len →
  default 0 (j2len !! (i - 1)) = run s (i - 1).
Proof.
  intros [Hall Hdiag].
  destruct (decide (row_js s (i - 1) = [])) as [He|Hne].
  - rewrite (run_empty _ He).
    destruct (j2len !! (i - 1)) as [v|] eqn:Hv; [|done].
    destruct (Hall _ _ Hv) as (_ & ? & _ & Hle).
    rewrite (run_empty _ He) in Hle. lia.
  - by rewrite (Hdiag Hne).
Qed.

Lemma flm_row_diag js i j2len newj2len best :
  0 <= i < n →
  diag_rows (i - 1) j2len →
  (∀ j, j ∈ js → j ∈ row_js s i) →
  ascending js →
  (∀ j v, newj2len !! j = Some v →
          0 <= j < n ∧ 1 <= v ∧ v <= run s j ∧ v <= run s i) →
  (i ∉ js → row_js s i ≠ [] → newj2len !! i = Some (run s i)) →
  best.1.1 = best.1.2 → 0 <= best.2 →
  (∀ p, 0 <= p < i → run s p <= best.2) →
  (i ∉ js → run s i <= best.2) →
  diag_rows i (flm_row js 0 n i j2len newj2len best).1
  ∧ diag_best i (flm_row js 0 n i j2len newj2len best).2.
Proof.
  intros Hi Hprev. revert newj2len best.
  induction js as [|j rest IH];
    intros newj2len best Hrow Hasc Hacc Hself Hdiag Hsize Hbefore Hhere.
  - simpl. split; [split|split; [done|split; [done|]]].
    + done.
    + apply Hself. apply not_elem_of_nil.
    + intros p Hp. destruct (Z.eq_dec p i) as [->|Hne].
      * apply Hhere, not_elem_of_nil.
      * apply Hbefore. lia.
  - destruct Hasc as [Hgt Hasc].
    assert (Hj : j ∈ row_js s i) by (apply Hrow; left).
    destruct (row_js_elem s i j Hj) as (Hsame & Hin & Hjn & _).
    assert (Hrowi : row_js s i ≠ []).
    { intros He. rewrite He in Hj. by apply elem_of_nil in Hj. }
    assert (Hrowj : row_js s j ≠ []) by (by rewrite Hsame).
    pose proof (run_indexed j ltac:(lia) Hrowj) as Hrunj.
    pose proof (run_indexed i ltac:(lia) Hrowi) as Hruni.
    pose proof (run_nonneg s (j - 1)) as Hnnj.
    pose proof (run_nonneg s (i - 1)) as Hnni.
    simpl flm_row.
    destruct (Z.ltb_spec j 0) as [|_]; [lia|].
    destruct (Z.leb_spec n j) as [|_]; [lia|].
    set (k := default 0 (j2len !! (j - 1)) + 1).
    assert (Hk : 1 <= k ∧ k <= run s j ∧ k <= run s i).
    { subst k. destruct (j2len !! (j - 1)) as [v|] eqn:Hv; simpl; [|lia].
      destruct Hprev as [Hall _]. destruct (Hall _ _ Hv). lia. }
    assert (Hki : j = i → k = run s i).
    { intros ->. subst k. rewrite (diag_prev_lookup i j2len Hprev). lia. }
    assert (Hnotin : i ≠ j → i ∉ rest → i ∉ j :: rest).
    { intros Hne Hr [?|?]%elem_of_cons; done. }
    assert (Hlater : i < j → i ∉ j :: rest).
    { intros Hlt [?|Hr]%elem_of_cons; [lia|].
      rewrite Forall_forall in Hgt. specialize (Hgt _ Hr). lia. }
    assert (Hnoupd : j ≠ i → k <= best.2).
    { intros Hne. destruct (Z.lt_trichotomy j i) as [Hlt|[?|Hgt']]; [|done|].
      - specialize (Hbefore j ltac:(lia)). lia.
      - assert (run s i <= best.2) by (apply Hhere, Hlater; lia). lia. }
    apply IH.
    + intros j' Hj'. apply Hrow. by right.
    + done.
    + intros j' v. rewrite lookup_insert. case_decide as Hjj.
      * intros [= <-]. subst j'. lia.
      * apply Hacc.
    + intros Hr _. rewrite lookup_insert. case_decide as Hjj.
      * by rewrite (Hki Hjj).
      * apply Hself; [|done]. apply Hnotin; [congruence|done].
    + destruct (Z.ltb_spec best.2 k); simpl; [|done].
      destruct (Z.eq_dec j i) as [->|Hne]; [done|].
      specialize (Hnoupd Hne). lia.
    + destruct (Z.ltb_spec best.2 k); simpl; lia.
    + intros p Hp. specialize (Hbefore p Hp).
      destruct (Z.ltb_spec best.2 k); simpl; lia.
    + intros Hr.
      destruct (Z.eq_dec j i) as [Heq|Hne].
      * specialize (Hki Heq). destruct (Z.ltb_spec best.2 k); simpl; lia.
      * assert (run s i <= best.2)
          by (apply Hhere, Hnotin; [congruence|done]).
        destruct (Z.ltb_spec best.2 k); simpl; lia.
Qed.

Lemma flm_fold_diag k lo st :
  0 <= lo → lo + Z.of_nat k <= n →
  diag_rows (lo - 1) st.1 → diag_best (lo - 1) st.2 →
  (foldl (flm_step sm 0 n) st (seqZ lo (Z.of_nat k))).2.1.1
  = (foldl (flm_step sm 0 n) st (seqZ lo (Z.of_nat k))).2.1.2.
Proof.
  revert lo st. induction k as [|k IH]; intros lo st Hlo Hhi Hrows Hbest.
  - by destruct Hbest.
  - rewrite seqZ_cons by lia. simpl foldl.
    replace (Z.pred (Z.of_nat (S k))) with (Z.of_nat k) by lia.
    destruct Hbest as (Hd & Hsz & Hruns).
    assert (Hnotin : lo ∉ row_js s lo → row_js s lo = []).
    { intros Hn. destruct (decide (row_js s lo = [])) as [|Hne]; [done|].
      by apply row_js_self in Hne. }
    assert (Hrow : diag_rows lo
                     (flm_row (row_js s lo) 0 n lo st.1 ∅ st.2).1
                   ∧ diag_best lo
                       (flm_row (row_js s lo) 0 n lo st.1 ∅ st.2).2).
    { apply flm_row_diag.
      - lia.
      - done.
      - done.
      - apply ascending_row_js.
      - intros j v. by rewrite lookup_empty.
      - intros Hn Hne. by apply Hnotin in Hn.
      - done.
      - done.
      - intros p Hp. apply Hruns. lia.
      - intros Hn. rewrite (run_empty lo (Hnotin Hn)). lia. }
    destruct Hrow as [Hrows' Hbest'].
    apply IH; [lia|lia| |].
    + by replace (Z.succ lo - 1) with lo by lia.
    + by replace (Z.succ lo - 1) with lo by lia.
Qed.

Lemma flm_scan_diag :
  ∃ d k, flm_scan sm 0 n 0 n = (d, d, k) ∧ 0 <= d ∧ 0 <= k ∧ d + k <= n.
Proof.
  pose proof (flm_scan_in sm 0 n 0 n ltac:(lia) ltac:(lia)) as Hin.
  assert (Hd : (flm_scan sm 0 n 0 n).1.1 = (flm_scan sm 0 n 0 n).1.2).
  { unfold flm_scan.
    replace (n - 0) with (Z.of_nat (Z.to_nat (n - 0))) by lia.
    apply flm_fold_diag; simpl; try lia.
    - split.
      + intros j v. by rewrite lookup_empty.
      + intros Hne. exfalso. apply Hne. unfold row_js, char_at. done.
    - split; [done|]. split; [done|]. intros p Hp. lia. }
  destruct (flm_scan sm 0 n 0 n) as [[d d'] k]. simpl in *. subst d'.
  unfold block_in in Hin. simpl in Hin. exists d, k. split; [done|lia].
Qed.

Lemma isbjunk_new x : isbjunk sm x = false.
Proof. destruct x; simpl; [|done]. by apply bool_decide_eq_false_2. Qed.

Lemma same_char_refl i : 0 <= i < n → same_char (char_at s i) (char_at s i) = true.
Proof.
  intros Hi. destruct (char_at_is_Some s i Hi) as [c ->]. simpl.
  apply Z.eqb_refl.
Qed.

Lemma extend_back_self fuel d k :
  d = Z.of_nat fuel → 0 <= k → d + k <= n →
  extend_back fuel sm false 0 0 (d, d, k) = (0, 0, k + d).
Proof.
  revert d k. induction fuel as [|fuel IH]; intros d k Hd Hk Hn.
  - simpl. subst d. f_equal. simpl. lia.
  - simpl extend_back. rewrite isbjunk_new. cbn [sm_a sm_b new_matcher].
    rewrite same_char_refl by lia.
    replace (0 <? d) with true by (symmetry; apply Z.ltb_lt; lia).
    simpl. rewrite IH by lia. f_equal. lia.
Qed.

Lemma extend_forth_self fuel k :
  0 <= k → k + Z.of_nat fuel = n →
  extend_forth fuel sm false n n (0, 0, k) = (0, 0, n).
Proof.
  revert k. induction fuel as [|fuel IH]; intros k Hk Hn.
  - simpl. f_equal. lia.
  - simpl extend_forth. rewrite isbjunk_new. cbn [sm_a sm_b new_matcher].
    rewrite same_char_refl by lia.
    replace (0 + k <? n) with true by (symmetry; apply Z.ltb_lt; lia).
    simpl. apply IH; lia.
Qed.

Lemma extend_back_at_start fuel junk k :
  extend_back fuel sm junk 0 0 (0, 0, k) = (0, 0, k).
Proof. by destruct fuel. Qed.

Lemma extend_forth_at_end fuel junk :
  extend_forth fuel sm junk n n (0, 0, n) = (0, 0, n).
Proof.
  destruct fuel; [done|]. simpl extend_forth.
  by replace (0 + n <? n) with false by (symmetry; apply Z.ltb_ge; lia).
Qed.

(** The longest match of a sequence with itself is the whole sequence. *)
Lemma find_longest_match_self : find_longest_match sm 0 n 0 n = (0, 0, n).
Proof.
  unfold find_longest_match.
  destruct flm_scan_diag as (d & k & Hscan & Hd & Hk & Hdk).
  rewrite Hscan. cbv zeta.
  change (back_bound 0 (d, d, k)) with (Z.to_nat (d - 0)).
  rewrite Z.sub_0_r, (extend_back_self (Z.to_nat d) d k) by lia.
  change (forth_bound n (0, 0, k + d)) with (Z.to_nat (n - (0 + (k + d)))).
  rewrite (extend_forth_self (Z.to_nat (n - (0 + (k + d)))) (k + d)) by lia.
  rewrite extend_back_at_start. apply extend_forth_at_end.
Qed.

Lemma matches_self : sum_sizes (get_matching_blocks sm) = n.
Proof.
  rewrite sum_sizes_get_matching_blocks. unfold matching_fuel.
  cbn [sm_a sm_b new_matcher]. cbn [matching_loop].
  rewrite find_longest_match_self.
  destruct (Z.eqb_spec n 0) as [Hz|Hnz].
  - destruct (2 * length s)%nat; simpl; lia.
  - replace (0 <? 0) with false by done.
    replace (0 + n <? n) with false by (symmetry; apply Z.ltb_ge; lia).
    cbn [andb app].
    destruct (2 * length s)%nat; unfold sum_sizes; simpl; lia.
Qed.

End SelfMatch.

(** *** The loop bounds are never reached *)

Lemma extend_back_fuel fuel extra sm junk alo blo best :
  (back_bound alo best <= fuel)%nat →
  extend_back (fuel + extra) sm junk alo blo best
  = extend_back fuel sm junk alo blo best.
Proof.
  revert best. induction fuel as [|fuel IH]; intros [[i j] k] Hb.
  - unfold back_bound in Hb. simpl in Hb.
    destruct extra; [done|]. simpl.
    by replace (alo <? i) with false by (symmetry; apply Z.ltb_ge; lia).
  - simpl. destruct (_ && _) eqn:E; [|done]. apply IH.
    unfold back_bound in *. simpl in *. lia.
Qed.

Lemma extend_forth_fuel fuel extra sm junk ahi bhi best :
  (forth_bound ahi best <= fuel)%nat →
  extend_forth (fuel + extra) sm junk ahi bhi best
  = extend_forth fuel sm junk ahi bhi best.
Proof.
  revert best. induction fuel as [|fuel IH]; intros [[i j] k] Hb.
  - unfold forth_bound in Hb. simpl in Hb.
    destruct extra; [done|]. simpl.
    by replace (i + k <? ahi) with false by (symmetry; apply Z.ltb_ge; lia).
  - simpl. destruct (_ && _) eqn:E; [|done]. apply IH.
    unfold forth_bound in *. simpl in *. lia.
Qed.

Lemma queue_work_pos queue : Forall span_ok queue → 0 <= queue_work queue.
Proof.
  induction 1 as [|[[[alo ahi] blo] bhi] q [Ha Hb] Hq IH]; simpl; lia.
Qed.

Lemma matching_loop_fuel sm fuel extra queue acc :
  Forall span_ok queue → queue_work queue <= Z.of_nat fuel →
  matching_loop (fuel + extra) sm queue acc = matching_loop fuel sm queue acc.
Proof.
  revert queue acc. induction fuel as [|fuel IH]; intros queue acc Hq Hw.
  - destruct queue as [|[[[alo ahi] blo] bhi] queue]; [by destruct extra|].
    apply Forall_cons in Hq as [[Ha Hb] Hq].
    pose proof (queue_work_pos queue Hq). simpl in Hw. lia.
  - destruct queue as [|[[[alo ahi] blo] bhi] queue]; [done|].
    apply Forall_cons in Hq as [[Ha Hb] Hq].
    pose proof (queue_work_pos queue Hq) as Hpos.
    simpl plus. simpl matching_loop.
    pose proof (find_longest_match_in sm alo ahi blo bhi Ha Hb) as Hin.
    destruct (find_longest_match sm alo ahi blo bhi) as [[i j] k].
    unfold block_in in Hin. simpl in Hin. simpl in Hw.
    destruct (Z.eqb_spec k 0) as [->|Hk]; [apply IH; [done|lia]|].
    destruct ((alo <? i) && (blo <? j)) eqn:E1;
      destruct ((i + k <? ahi) && (j + k <? bhi)) eqn:E2;
      try (apply andb_true_iff in E1 as [?%Z.ltb_lt ?%Z.ltb_lt]);
      try (apply andb_true_iff in E2 as [?%Z.ltb_lt ?%Z.ltb_lt]);
      apply IH;
      try (repeat (apply Forall_cons; split; [simpl; lia|]); done);
      simpl; lia.
Qed.

(** The bound given to the loop of [get_matching_blocks] is enough: a
    greater one gives the same blocks. *)
Lemma get_matching_blocks_fuel sm extra :
  matching_loop (matching_fuel sm + extra) sm
    [(0, Z.of_nat (length (sm_a sm)), 0, Z.of_nat (length (sm_b sm)))] []
  = matching_loop (matching_fuel sm) sm
      [(0, Z.of_nat (length (sm_a sm)), 0, Z.of_nat (length (sm_b sm)))] [].
Proof.
  apply matching_loop_fuel.
  - constructor; [simpl; lia|constructor].
  - unfold matching_fuel. simpl. lia.
Qed.

(** ** Title similarity *)

Section SimilarityFacts.

Variable unicode_lower : pystr → nat → pystr.

Local Abbreviation normalize_text := (normalize_text unicode_lower).
Local Abbreviation title_similarity := (title_similarity unicode_lower).
Local Abbreviation lengths_in_range := (lengths_in_range unicode_lower).

Lemma ratio_range (a b : pystr) :
  Z.of_nat (length a) + Z.of_nat (length b) < 2 ^ 64 →
  fle f0_0 (ratio (new_matcher a b)) = true
  ∧ fle (ratio (new_matcher a b)) f1_0 = true.
Proof.
  intros Hlen. unfold ratio.
  destruct (matches_bounds (new_matcher a b)) as [Hpos Hle].
  apply calculate_ratio_range; [done|done|].
  cbn [sm_a sm_b new_matcher]. lia.
Qed.

Lemma ratio_self (a : pystr) :
  Z.of_nat (length a) + Z.of_nat (length a) < 2 ^ 64 →
  ratio (new_matcher a a) = f1_0.
Proof.
  intros Hlen. unfold ratio. rewrite matches_self.
  cbn [sm_a sm_b new_matcher].
  destruct (Z.eq_dec (Z.of_nat (length a)) 0) as [Hz|Hnz].
  - rewrite Hz. reflexivity.
  - replace (Z.of_nat (length a) + Z.of_nat (length a))
      with (2 * Z.of_nat (length a)) by lia.
    apply calculate_ratio_one; lia.
Qed.

(** C7: [title_similarity] returns 0.0 whenever either argument is the
    empty string, 1.0 whenever both arguments are the same non-empty
    string, and in every case a value between 0.0 and 1.0.  The normalized
    titles are Python strings, of fewer than 2^63 characters each. *)
Theorem title_similarity_range :
  (∀ right, title_similarity [] right = f0_0)
  ∧ (∀ left, title_similarity left [] = f0_0)
  ∧ (∀ a, a ≠ [] → lengths_in_range a a → title_similarity a a = f1_0)
  ∧ (∀ left right, lengths_in_range left right →
       fle f0_0 (title_similarity left right) = true
       ∧ fle (title_similarity left right) f1_0 = true).
Proof.
  unfold title_similarity, lengths_in_range.
  split; [done|]. split; [by intros []|]. split.
  - intros a Ha [Hlen _]. rewrite (is_empty_false _ Ha). simpl.
    apply ratio_self. lia.
  - intros left right [Hl Hr].
    destruct (is_empty left || is_empty right); [done|].
    apply ratio_range. lia.
Qed.

End SimilarityFacts.

Lemma title_similarity_range_witness :
  title_similarity plain_lower test_title test_title = f1_0
  ∧ fle f0_0 (title_similarity plain_lower
                (lit "A study that should not match") test_title) = true
  ∧ fle (title_similarity plain_lower
           (lit "A study that should not match") test_title) f1_0 = true.
Proof.
  split.
  - apply (proj1 (proj2 (proj2 (title_similarity_range plain_lower)))).
    + discriminate.
    + split; vm_compute; reflexivity.
  - apply (proj2 (proj2 (proj2 (title_similarity_range plain_lower)))).
    split; vm_compute; reflexivity.
Defined.

Example title_similarity_values :
  title_similarity plain_lower (lit "!!!") (lit "!!!") = f1_0
  ∧ title_similarity plain_lower (lit "abcd") (lit "bcde")
    = decimal_literal 75 100
  ∧ title_similarity plain_lower [] (lit "abcd") = f0_0.
Proof. repeat split; vm_compute; reflexivity. Qed.

(** ** Scores are numbers, and the selection cases cover every list *)

Lemma shr_1_nonneg mrs : 0 <= shr_m mrs → 0 <= shr_m (shr_1 mrs).
Proof.
  destruct mrs as [m r s]. simpl shr_m at 1. intros Hm.
  rewrite shr_1_spec by done. simpl. apply Z.div_pos; lia.
Qed.

Lemma shr_nonneg mrs e n : 0 <= shr_m mrs → 0 <= shr_m (shr mrs e n).1.
Proof.
  intros Hm. unfold shr. destruct n as [|k|k]; simpl; try done.
  rewrite iter_pos_iter.
  induction k as [|k IH] using Pos.peano_ind; simpl.
  - by apply shr_1_nonneg.
  - rewrite Pos.iter_succ. by apply shr_1_nonneg.
Qed.

Lemma shr_fexp_nonneg m e l : 0 <= m → 0 <= shr_m (shr_fexp prec emax m e l).1.
Proof.
  intros Hm. unfold shr_fexp. apply shr_nonneg. by destruct l as [|[]].
Qed.

Lemma binary_round_aux_not_nan s m e l :
  0 <= m → is_nan (binary_round_aux prec emax s m e l) = false.
Proof.
  intros Hm. unfold binary_round_aux.
  pose proof (shr_fexp_nonneg m e l Hm) as H1.
  destruct (shr_fexp prec emax m e l) as [mrs1 e1]. simpl in H1.
  pose proof (round_nearest_even_range (shr_m mrs1) (loc_of_shr_record mrs1))
    as [Hr _].
  pose proof (shr_fexp_nonneg
                (round_nearest_even (shr_m mrs1) (loc_of_shr_record mrs1))
                e1 loc_Exact ltac:(lia)) as H2.
  destruct (shr_fexp prec emax _ e1 loc_Exact) as [mrs2 e2]. simpl in H2.
  destruct (shr_m mrs2) as [|p|p]; [done| |lia].
  by destruct (e2 <=? emax - prec).
Qed.

Lemma binary_normalize_not_nan z e :
  is_nan (binary_normalize prec emax z e false) = false.
Proof.
  unfold binary_normalize, binary_round.
  destruct z as [|p|p]; [done| |];
    destruct (shl_align _ _ _) as [mz ez];
    by apply binary_round_aux_not_nan.
Qed.

Lemma fadd_not_nan x y :
  is_finite x = true → is_finite y = true → is_nan (fadd x y) = false.
Proof.
  destruct x as [sx|sx| |sx mx ex], y as [sy|sy| |sy my ey]; try done;
    intros _ _; unfold fadd, SFadd.
  - by destruct sx, sy.
  - apply binary_normalize_not_nan.
Qed.

Lemma fsub_not_nan x y :
  is_finite x = true → is_finite y = true → is_nan (fsub x y) = false.
Proof.
  destruct x as [sx|sx| |sx mx ex], y as [sy|sy| |sy my ey]; try done;
    intros _ _; unfold fsub, SFsub.
  - by destruct sx, sy.
  - apply binary_normalize_not_nan.
Qed.

Lemma is_finite_between x :
  fle f0_0 x = true → fle x f1_0 = true → is_finite x = true.
Proof. by destruct x as [s|[]| |s m e]. Qed.

Lemma is_finite_not_nan x : is_finite x = true → is_nan x = false.
Proof. by destruct x. Qed.

Section SelectionFacts.

Variable unicode_lower : pystr → nat → pystr.

Local Abbreviation title_similarity := (title_similarity unicode_lower).
Local Abbreviation lengths_in_range := (lengths_in_range unicode_lower).
Local Abbreviation _score_crossref_item :=
  (_score_crossref_item unicode_lower).
Local Abbreviation _score_europe_pmc_result :=
  (_score_europe_pmc_result unicode_lower).

Lemma title_similarity_between left right :
  lengths_in_range left right →
  fle f0_0 (title_similarity left right) = true
  ∧ fle (title_similarity left right) f1_0 = true.
Proof.
  unfold title_similarity, lengths_in_range. intros [Hl Hr].
  destruct (is_empty left || is_empty right); [done|].
  apply ratio_range. lia.
Qed.

Lemma title_similarity_finite left right :
  lengths_in_range left right →
  is_finite (title_similarity left right) = true.
Proof.
  intros Hlen. destruct (title_similarity_between left right Hlen).
  by apply is_finite_between.
Qed.

Lemma score_crossref_item_not_nan item requested_title last_name :
  lengths_in_range (crossref_candidate_title item) requested_title →
  is_nan (_score_crossref_item item requested_title last_name) = false.
Proof.
  intros Hlen. pose proof (title_similarity_finite _ _ Hlen) as Hfin.
  unfold _score_crossref_item.
  destruct (is_empty _); [by apply is_finite_not_nan|].
  destruct (default [] (cr_author item)) as [|first rest].
  - by apply fsub_not_nan.
  - destruct (_ && _); [by apply fadd_not_nan|].
    destruct (existsb _ _); [by apply fadd_not_nan|].
    by apply is_finite_not_nan.
Qed.

Lemma score_europe_pmc_result_not_nan result requested_title last_name :
  lengths_in_range (or_empty (ep_title result)) requested_title →
  is_nan (_score_europe_pmc_result result requested_title last_name) = false.
Proof.
  intros Hlen. pose proof (title_similarity_finite _ _ Hlen) as Hfin.
  unfold _score_europe_pmc_result.
  destruct (is_empty _); [by apply is_finite_not_nan|].
  destruct (_ && _); [by apply fadd_not_nan|].
  by apply is_finite_not_nan.
Qed.

(** For records whose titles are Python strings, the two cases of the
    selection cover every list. *)
Lemma pick_best_crossref_item_exhaustive items requested_title last_name :
  let score item := _score_crossref_item item requested_title last_name in
  Forall (λ item, lengths_in_range (crossref_candidate_title item)
                    requested_title) items →
  Forall (λ x, flt (score x) f0_45 = true) items
  ∨ ∃ pre x post,
      items = pre ++ x :: post
      ∧ fle f0_45 (score x) = true
      ∧ Forall (λ y, flt (score y) (score x) = true) pre
      ∧ Forall (λ y, fle (score y) (score x) = true) post.
Proof.
  intros score Hall. apply pick_best_exhaustive.
  eapply Forall_impl; [exact Hall|]. intros item Hlen.
  by apply score_crossref_item_not_nan.
Qed.

Lemma pick_best_europe_pmc_result_exhaustive results requested_title
    last_name :
  let score result :=
    _score_europe_pmc_result result requested_title last_name in
  Forall (λ result, lengths_in_range (or_empty (ep_title result))
                      requested_title) results →
  Forall (λ x, flt (score x) f0_45 = true) results
  ∨ ∃ pre x post,
      results = pre ++ x :: post
      ∧ fle f0_45 (score x) = true
      ∧ Forall (λ y, flt (score y) (score x) = true) pre
      ∧ Forall (λ y, fle (score y) (score x) = true) post.
Proof.
  intros score Hall. apply pick_best_exhaustive.
  eapply Forall_impl; [exact Hall|]. intros result Hlen.
  by apply score_europe_pmc_result_not_nan.
Qed.

End SelectionFacts.

(** * Properties of the other helpers and of the endpoints *)

(** ** File names taken from upstream headers *)

Lemma strip_id p s :
  match s with [] => True | c :: _ => p c = false end →
  match rev s with [] => True | c :: _ => p c = false end →
  strip p s = s.
Proof.
  intros Hfirst Hlast. unfold strip, lstrip, rstrip.
  rewrite (drop_while_id p s Hfirst), (drop_while_id p (rev s) Hlast).
  apply rev_involutive.
Qed.

(** A stripped string neither starts nor ends with a stripped character. *)
Lemma strip_ends p s :
  match strip p s with [] => True | c :: _ => p c = false end
  ∧ match rev (strip p s) with [] => True | c :: _ => p c = false end.
Proof.
  unfold strip, lstrip, rstrip. rewrite rev_involutive. split.
  - destruct (rstrip_prefix p (drop_while p s)) as [t Ht].
    unfold rstrip in Ht.
    destruct (rev (drop_while p (rev (drop_while p s)))) as [|c r] eqn:E;
      [done|].
    simpl in Ht. by eapply drop_while_head.
  - destruct (drop_while p (rev (drop_while p s))) as [|c r] eqn:E; [done|].
    by eapply drop_while_head.
Qed.

Lemma sub_filename_runs_id b s :
  Forall (λ c, is_filename_char c = true) s → sub_filename_runs b s = s.
Proof.
  intros H. revert b. induction H as [|c r Hc Hr IH]; intros b; simpl; [done|].
  rewrite Hc. by f_equal.
Qed.

Lemma startswith_cons_last (s : pystr) (c : Z) (t : pystr) :
  endswith s (t ++ [c]) = true → ∃ r, s = r ++ [c].
Proof.
  unfold endswith. rewrite rev_app_distr. simpl.
  destruct (rev s) as [|d r] eqn:E; [done|].
  intros [Hd _]%andb_true_iff. apply Z.eqb_eq in Hd as ->.
  exists (rev r). by rewrite <- (rev_involutive s), E.
Qed.

Lemma take_while_app_stop p (s : pystr) c (t : pystr) :
  Forall (λ x, p x = true) s → p c = false →
  take_while p (s ++ c :: t) = s.
Proof.
  intros Hs Hc. induction Hs as [|x r Hx Hr IH]; simpl.
  - by rewrite Hc.
  - rewrite Hx. by f_equal.
Qed.

Lemma take_while_Forall p (s : pystr) : Forall (λ x, p x = true) (take_while p s).
Proof.
  induction s as [|c r IH]; simpl; [constructor|].
  destruct (p c) eqn:E; by constructor.
Qed.

Lemma take_while_prefix p (s : pystr) : ∃ t, s = take_while p s ++ t.
Proof.
  induction s as [|c r [t Ht]]; simpl; [by exists []|].
  destruct (p c); [|by eexists]. exists t. simpl. by f_equal.
Qed.

Lemma filename_char_not_space c : is_filename_char c = true → is_space c = false.
Proof.
  unfold is_filename_char, is_space, is_lower_az, is_upper_az, is_digit,
    in_range. intros H. apply not_true_is_false. intros H'. lia.
Qed.

Lemma filename_char_name c : is_filename_char c = true → is_name_char c = true.
Proof.
  unfold is_filename_char, is_name_char, is_lower_az, is_upper_az, is_digit,
    in_range. lia.
Qed.

Section HeaderFacts.

Variable unicode_lower : pystr → nat → pystr.

Local Abbreviation str_lower := (str_lower unicode_lower).
Local Abbreviation filename_before_cut := (filename_before_cut unicode_lower).
Local Abbreviation _sanitize_filename := (_sanitize_filename unicode_lower).
Local Abbreviation _filename_from_content_disposition :=
  (_filename_from_content_disposition unicode_lower).

Lemma sanitize_filename_Forall raw :
  Forall (λ c, is_filename_char c = true) (_sanitize_filename raw).
Proof. apply Forall_take, filename_before_cut_chars. Qed.

Lemma sanitize_filename_nonempty raw : _sanitize_filename raw ≠ [].
Proof.
  unfold _sanitize_filename.
  pose proof (filename_before_cut_nonempty unicode_lower raw) as H.
  by destruct (filename_before_cut raw).
Qed.

Lemma sanitize_filename_length raw : (length (_sanitize_filename raw) ≤ 140)%nat.
Proof. unfold _sanitize_filename. rewrite length_take. lia. Qed.

(** The name built before the cut starts with no underscore. *)
Lemma filename_before_cut_first raw :
  match filename_before_cut raw with
  | [] => True
  | c :: _ => is_underscore c = false
  end.
Proof.
  unfold filename_before_cut.
  set (cleaned := strip is_underscore (sub_filename_runs false raw)).
  pose proof (proj1 (strip_ends is_underscore
                       (sub_filename_runs false raw))) as Hfirst.
  fold cleaned in Hfirst.
  destruct cleaned as [|c r]; cbn [is_empty].
  - by destruct (endswith (str_lower (lit "paper")) (lit ".pdf")).
  - by destruct (endswith (str_lower (c :: r)) (lit ".pdf")).
Qed.

Lemma filename_before_cut_last raw :
  match rev (filename_before_cut raw) with
  | [] => True
  | c :: _ => is_underscore c = false
  end.
Proof.
  pose proof (filename_before_cut_extension unicode_lower raw) as H.
  apply (startswith_cons_last _ 102 (lit ".pd")) in H as [r Hr].
  destruct (filename_before_cut raw) as [|c0 s0] using rev_ind; [done|].
  rewrite rev_app_distr. simpl.
  rewrite map_app in Hr. simpl in Hr. apply app_inj_tail in Hr as [_ Hc].
  unfold is_underscore, ascii_lower, is_upper_az, in_range in *.
  destruct ((65 <=? c0) && (c0 <=? 90)) eqn:E; lia.
Qed.

Lemma filename_before_cut_fixed raw :
  filename_before_cut (filename_before_cut raw) = filename_before_cut raw.
Proof.
  pose proof (filename_before_cut_chars unicode_lower raw) as Hc.
  pose proof (filename_before_cut_nonempty unicode_lower raw) as Hn.
  pose proof (filename_before_cut_extension unicode_lower raw) as He.
  pose proof (filename_before_cut_first raw) as Hf.
  pose proof (filename_before_cut_last raw) as Hl.
  revert Hc Hn He Hf Hl. generalize (filename_before_cut raw). intros f.
  intros Hc Hn He Hf Hl. unfold filename_before_cut.
  rewrite (sub_filename_runs_id _ _ Hc), (strip_id _ _ Hf Hl).
  rewrite (is_empty_false _ Hn).
  by rewrite (str_lower_filename unicode_lower _ Hc), He.
Qed.

(** X1: every character of a sanitized download file name is an ASCII
    letter, a digit, a dot, an underscore or a hyphen; in particular the
    name holds no double quote, slash, backslash, semicolon, line break,
    space or NUL. *)
Theorem sanitize_filename_safe (raw_title : pystr) :
  Forall (λ c, is_filename_char c = true) (_sanitize_filename raw_title)
  ∧ Forall (λ c, c ∉ [34; 47; 92; 59; 10; 13; 32; 0])
      (_sanitize_filename raw_title).
Proof.
  split; [apply sanitize_filename_Forall|].
  eapply Forall_impl; [apply sanitize_filename_Forall|].
  intros c Hc Hin. simpl in Hc.
  repeat (apply elem_of_cons in Hin as [->|Hin]; [discriminate Hc|]).
  by apply elem_of_nil in Hin.
Qed.

Lemma sanitize_filename_fixed (raw_title : pystr) :
  (length (filename_before_cut raw_title) ≤ 140)%nat →
  _sanitize_filename (_sanitize_filename raw_title)
  = _sanitize_filename raw_title.
Proof.
  intros Hfit. unfold _sanitize_filename.
  rewrite (take_ge (filename_before_cut raw_title)) by lia.
  rewrite filename_before_cut_fixed. apply take_ge. lia.
Qed.

(** X2: [_sanitize_filename] is idempotent on the names that the cut at
    140 characters leaves whole: sanitizing a sanitized name changes
    nothing. *)
Theorem sanitize_filename_idempotent (raw_title : pystr) :
  (length (filename_before_cut raw_title) ≤ 140)%nat →
  _sanitize_filename (_sanitize_filename raw_title)
  = _sanitize_filename raw_title.
Proof. apply sanitize_filename_fixed. Qed.

End HeaderFacts.

Lemma startswith_split (s t : pystr) :
  startswith s t = true → s = t ++ drop (length t) s.
Proof.
  revert s. induction t as [|d t IH]; intros s; simpl; [done|].
  destruct s as [|c s]; [done|].
  intros [Hc Hs]%andb_true_iff. apply Z.eqb_eq in Hc as ->.
  simpl. f_equal. by apply IH.
Qed.

Lemma match_name_Some (s g : pystr) :
  match_name s = Some g →
  g ≠ [] ∧ Forall (λ c, is_name_char c = true) g ∧ ∃ post, s = g ++ post.
Proof.
  unfold match_name. intros H.
  pose proof (take_while_Forall is_name_char s) as Hall.
  pose proof (take_while_prefix is_name_char s) as Hpre.
  destruct (take_while is_name_char s) as [|c r]; [done|].
  by injection H as <-.
Qed.

Lemma match_quoted_name_Some (s g : pystr) :
  match_quoted_name s = Some g →
  g ≠ [] ∧ Forall (λ c, is_name_char c = true) g
  ∧ ∃ pre post, s = pre ++ g ++ post.
Proof.
  assert (Hplain : match_name s = Some g →
            g ≠ [] ∧ Forall (λ c, is_name_char c = true) g
            ∧ ∃ pre post, s = pre ++ g ++ post).
  { intros (Hn & Hall & post & ->)%match_name_Some.
    split; [done|]. split; [done|]. by exists [], post. }
  unfold match_quoted_name.
  destruct s as [|c r]; [exact Hplain|].
  destruct (Z.eq_dec c 34) as [->|Hc].
  - destruct (match_name r) as [g'|] eqn:Hr; [|exact Hplain].
    intros [= <-]. apply match_name_Some in Hr as (Hn & Hall & post & ->).
    split; [done|]. split; [done|]. by exists [34], post.
  - intros H. apply Hplain. revert H.
    destruct c as [|p|p]; try done.
    do 6 (destruct p as [p|p|]; try done).
Qed.

Lemma match_value_Some (s g : pystr) :
  match_value s = Some g →
  g ≠ [] ∧ Forall (λ c, is_name_char c = true) g
  ∧ ∃ pre post, s = pre ++ g ++ post.
Proof.
  unfold match_value.
  destruct (startswith s (lit "UTF-8''")) eqn:Hs;
    [|apply match_quoted_name_Some].
  destruct (match_quoted_name (drop 7 s)) as [g'|] eqn:Hq;
    [|apply match_quoted_name_Some].
  intros [= <-].
  apply match_quoted_name_Some in Hq as (Hn & Hall & pre & post & Hq).
  split; [done|]. split; [done|].
  apply startswith_split in Hs. change (length (lit "UTF-8''")) with 7%nat in Hs.
  exists (lit "UTF-8''" ++ pre), post. rewrite Hs at 1. rewrite Hq.
  by rewrite <- app_assoc.
Qed.

Lemma match_filename_here_Some (s g : pystr) :
  match_filename_here s = Some g →
  g ≠ [] ∧ Forall (λ c, is_name_char c = true) g
  ∧ ∃ pre post, s = pre ++ g ++ post.
Proof.
  unfold match_filename_here.
  destruct (startswith s (lit "filename")) eqn:Hs; [|done].
  apply startswith_split in Hs.
  change (length (lit "filename")) with 8%nat in Hs.
  destruct (drop 8 s) as [|c r] eqn:Hd; [done|].
  assert (Hval : ∀ pre0 r0, drop 8 s = pre0 ++ r0 → match_value r0 = Some g →
            g ≠ [] ∧ Forall (λ c, is_name_char c = true) g
            ∧ ∃ pre post, s = pre ++ g ++ post).
  { intros pre0 r0 Hr0 (Hn & Hall & pre & post & ->)%match_value_Some.
    split; [done|]. split; [done|].
    exists (lit "filename" ++ pre0 ++ pre), post.
    rewrite Hs at 1. rewrite <- Hd, Hr0. by rewrite <- !app_assoc. }
  destruct (Z.eq_dec c 61) as [->|H61].
  { apply (Hval [61] r). by rewrite Hd. }
  destruct (Z.eq_dec c 42) as [->|H42].
  - destruct r as [|c' r']; [done|].
    destruct (Z.eq_dec c' 61) as [->|H61'].
    + apply (Hval [42; 61] r'). by rewrite Hd.
    + destruct c' as [|p|p]; try done.
      do 6 (destruct p as [p|p|]; try done).
  - destruct c as [|p|p]; try done.
    do 6 (destruct p as [p|p|]; try done).
Qed.

Lemma search_filename_Some (s g : pystr) :
  search_filename s = Some g →
  g ≠ [] ∧ Forall (λ c, is_name_char c = true) g
  ∧ ∃ pre post, s = pre ++ g ++ post.
Proof.
  induction s as [|c r IH].
  - done.
  - cbn [search_filename].
    destruct (match_filename_here (c :: r)) eqn:E.
    + intros [= <-]. by apply match_filename_here_Some.
    + intros (Hn & Hall & pre & post & ->)%IH.
      split; [done|]. split; [done|]. by exists (c :: pre), post.
Qed.

Lemma search_filename_absent (s : pystr) :
  contains s (lit "filename") = false → search_filename s = None.
Proof.
  induction s as [|c r IH].
  - done.
  - cbn [contains search_filename]. intros [Hs Hr]%orb_false_iff.
    unfold match_filename_here. rewrite Hs. by apply IH.
Qed.

Lemma search_filename_here (s g : pystr) :
  match_filename_here s = Some g → search_filename s = Some g.
Proof. destruct s; cbn [search_filename]; by intros ->. Qed.

Lemma search_filename_skip (c : Z) (r : pystr) :
  match_filename_here (c :: r) = None →
  search_filename (c :: r) = search_filename r.
Proof. cbn [search_filename]. by intros ->. Qed.

Section HeaderParsing.

Variable unicode_lower : pystr → nat → pystr.

Local Abbreviation filename_before_cut := (filename_before_cut unicode_lower).
Local Abbreviation _sanitize_filename := (_sanitize_filename unicode_lower).
Local Abbreviation _filename_from_content_disposition :=
  (_filename_from_content_disposition unicode_lower).

(** X3: [_filename_from_content_disposition] returns nothing for a
    missing header, for an empty one and for one that does not contain the
    word filename; a name it returns is never empty, has at most 140
    characters, all of them safe, and is the sanitized form of a stretch
    of the header, trimmed of white space, that holds no double quote and
    no semicolon. *)
Theorem filename_from_content_disposition_cases :
  _filename_from_content_disposition None = None
  ∧ _filename_from_content_disposition (Some []) = None
  ∧ (∀ header, contains header (lit "filename") = false →
       _filename_from_content_disposition (Some header) = None)
  ∧ (∀ header name,
       _filename_from_content_disposition (Some header) = Some name →
       name ≠ [] ∧ (length name ≤ 140)%nat
       ∧ Forall (λ c, is_filename_char c = true) name
       ∧ ∃ pre group post,
           header = pre ++ group ++ post
           ∧ Forall (λ c, is_name_char c = true) group
           ∧ strip is_space group ≠ []
           ∧ name = _sanitize_filename (strip is_space group)).
Proof.
  split; [done|]. split; [done|]. split.
  - intros header Habs. unfold _filename_from_content_disposition.
    destruct (is_empty header); [done|].
    by rewrite (search_filename_absent _ Habs).
  - intros header name. unfold _filename_from_content_disposition.
    destruct (is_empty header); [done|].
    destruct (search_filename header) as [group|] eqn:Hs; [|done].
    destruct (strip is_space group) as [|c r] eqn:Hg; [done|].
    cbn [is_empty]. intros [= <-].
    split; [apply sanitize_filename_nonempty|].
    split; [apply sanitize_filename_length|].
    split; [apply sanitize_filename_Forall|].
    apply search_filename_Some in Hs as (_ & Hall & pre & post & ->).
    exists pre, group, post. rewrite Hg. done.
Qed.

(** X4: the [Content-Disposition] header that [download] builds from a
    sanitized name is read back by [_filename_from_content_disposition] as
    that same name, for the names that the cut at 140 characters leaves
    whole. *)
Theorem content_disposition_round_trip (raw_title : pystr) :
  (length (filename_before_cut raw_title) ≤ 140)%nat →
  _filename_from_content_disposition
    (Some (content_disposition_of (_sanitize_filename raw_title)))
  = Some (_sanitize_filename raw_title).
Proof.
  intros Hfit.
  pose proof (sanitize_filename_fixed unicode_lower raw_title Hfit)
    as Hidem.
  pose proof (sanitize_filename_Forall unicode_lower raw_title) as Hc.
  pose proof (sanitize_filename_nonempty unicode_lower raw_title) as Hn.
  revert Hidem Hc Hn. generalize (_sanitize_filename raw_title).
  intros f Hidem Hc Hn.
  assert (Hgroup : search_filename (content_disposition_of f) = Some f).
  { unfold content_disposition_of.
    cbn [lit app].
    do 12 (rewrite search_filename_skip by reflexivity).
    apply search_filename_here.
    change (match_quoted_name (34 :: f ++ [34]) = Some f).
    unfold match_quoted_name, match_name.
    rewrite take_while_app_stop; [by destruct f|..|done].
    eapply Forall_impl; [exact Hc|]. apply filename_char_name. }
  unfold _filename_from_content_disposition. rewrite Hgroup.
  assert (Hstrip : strip is_space f = f).
  { apply strip_id.
    - destruct Hc as [|c r Hc _]; [done|]. by apply filename_char_not_space.
    - apply Forall_rev in Hc. destruct Hc as [|c r Hc _]; [done|].
      by apply filename_char_not_space. }
  rewrite Hstrip, (is_empty_false _ Hn), Hidem. done.
Qed.

End HeaderParsing.

(** ** The download cache and the download endpoint *)

Lemma prune_lookup (now : float) (cache : gmap pystr DownloadEntry)
    (token : pystr) (entry : DownloadEntry) :
  _prune_download_cache now cache !! token = Some entry
  ↔ cache !! token = Some entry ∧ live now entry.
Proof. unfold _prune_download_cache. apply map_lookup_filter_Some. Qed.

Lemma prune_lookup_None (now : float) (cache : gmap pystr DownloadEntry)
    (token : pystr) :
  _prune_download_cache now cache !! token = None
  ↔ ∀ entry, cache !! token = Some entry → ¬ live now entry.
Proof.
  unfold _prune_download_cache. rewrite map_lookup_filter_None. split.
  - intros [Hnone|Hall] entry He; [congruence|]. by apply Hall.
  - intros H. right. intros entry He. by apply H.
Qed.

Lemma fsub_diag (x : float) :
  fsub x x = S754_zero false ∨ fsub x x = S754_nan.
Proof.
  destruct x as [s|s| |s m e]; unfold fsub, SFsub.
  - left. by destruct s.
  - right. by destruct s.
  - by right.
  - left. by rewrite Z.sub_diag.
Qed.

Lemma live_at_creation (entry : DownloadEntry) : live (created_at entry) entry.
Proof.
  unfold live. by destruct (fsub_diag (created_at entry)) as [-> | ->].
Qed.

(** X5: [_prune_download_cache] keeps exactly the entries that are not
    older than [DOWNLOAD_TTL_SECONDS], unchanged and under their tokens; it
    adds nothing, pruning twice at the same time is pruning once, and an
    entry is never pruned at the time of its creation. *)
Theorem prune_download_cache_keeps_live (now : float)
    (cache : gmap pystr DownloadEntry) :
  (∀ token entry,
     _prune_download_cache now cache !! token = Some entry
     ↔ cache !! token = Some entry ∧ live now entry)
  ∧ _prune_download_cache now cache ⊆ cache
  ∧ _prune_download_cache now (_prune_download_cache now cache)
    = _prune_download_cache now cache
  ∧ (∀ token entry,
       cache !! token = Some entry → created_at entry = now →
       _prune_download_cache now cache !! token = Some entry).
Proof.
  split; [apply prune_lookup|]. split; [apply map_filter_subseteq|]. split.
  - apply map_eq. intros token. apply option_eq. intros entry.
    rewrite !prune_lookup. tauto.
  - intros token entry He <-. apply prune_lookup. split; [done|].
    apply live_at_creation.
Qed.

Section DownloadFacts.

Variable unicode_lower : pystr → nat → pystr.

Local Abbreviation _sanitize_filename := (_sanitize_filename unicode_lower).
Local Abbreviation _filename_from_content_disposition :=
  (_filename_from_content_disposition unicode_lower).
Local Abbreviation _register_download := (_register_download unicode_lower).
Local Abbreviation lookup := (lookup unicode_lower).
Local Abbreviation download := (download unicode_lower).
Local Abbreviation reachable_cache := (reachable_cache unicode_lower).

Lemma sanitize_filename_is_safe (raw : pystr) : safe_filename (_sanitize_filename raw).
Proof.
  split; [apply sanitize_filename_nonempty|].
  split; [apply sanitize_filename_length|apply sanitize_filename_Forall].
Qed.

Lemma filename_from_content_disposition_safe (header : option pystr)
    (name : pystr) :
  _filename_from_content_disposition header = Some name → safe_filename name.
Proof.
  unfold _filename_from_content_disposition.
  destruct header as [h|]; [|done]. destruct (is_empty h); [done|].
  destruct (search_filename h) as [g|]; [|done].
  destruct (is_empty (strip is_space g)); [done|].
  intros [= <-]. apply sanitize_filename_is_safe.
Qed.

(** The name that [download] puts in the header. *)
Lemma download_filename (header : option pystr) (stored : pystr) :
  match _filename_from_content_disposition header with
  | Some name => if is_empty name then stored else name
  | None => stored
  end = default stored (_filename_from_content_disposition header).
Proof.
  destruct (_filename_from_content_disposition header) as [name|] eqn:E;
    [|done].
  apply filename_from_content_disposition_safe in E as [Hn _].
  by rewrite (is_empty_false _ Hn).
Qed.

(** X6: [download] leaves the cache pruned, and it answers 404 exactly
    when the token has no live entry, 502 exactly when the entry is live
    and the upstream request fails, and 200 exactly when the entry is live
    and the upstream answers. *)
Theorem download_status_cases (now : float) (token : pystr)
    (fetch : pystr → upstream_file)
    (cache : gmap pystr DownloadEntry) :
  let out := download now token fetch cache in
  out.2 = _prune_download_cache now cache
  ∧ (download_status out.1 = 404
     ↔ ∀ entry, cache !! token = Some entry → ¬ live now entry)
  ∧ (download_status out.1 = 502
     ↔ ∃ entry exc, cache !! token = Some entry ∧ live now entry
                    ∧ fetch (url entry) = FetchFailed exc)
  ∧ (download_status out.1 = 200
     ↔ ∃ entry content_type content_disposition content,
         cache !! token = Some entry ∧ live now entry
         ∧ fetch (url entry)
           = Fetched content_type content_disposition content).
Proof.
  intros out. subst out. unfold download.
  destruct (_prune_download_cache now cache !! token) as [entry|] eqn:He.
  - apply prune_lookup in He as [He Hlive].
    destruct (fetch (url entry)) as [exc|ct cd content] eqn:Hf; simpl.
    + split; [done|]. split; [|split].
      * split; [done|]. intros H. by destruct (H entry He).
      * split; [by exists entry, exc|done].
      * split; [done|]. intros (e' & ? & ? & ? & He' & _ & Hf').
        congruence.
    + split; [done|]. split; [|split].
      * split; [done|]. intros H. by destruct (H entry He).
      * split; [done|]. intros (e' & ? & He' & _ & Hf'). congruence.
      * split; [by exists entry, ct, cd, content|done].
  - pose proof (proj1 (prune_lookup_None _ _ _) He) as Hnone. simpl.
    split; [done|]. split; [done|]. split.
    + split; [done|]. intros (e' & ? & He' & Hl & _). by destruct (Hnone e').
    + split; [done|].
      intros (e' & ? & ? & ? & He' & Hl & _). by destruct (Hnone e').
Qed.

(** X7: [_register_download] returns the fresh token; while the entry is
    live, [download] with that token requests the registered URL and
    answers with the upstream content under the name taken from the
    upstream header, or else under the sanitized title; once the entry has
    expired the answer is 404. *)
Theorem registered_token_download (env : register_env) (url title : pystr)
    (cache : gmap pystr DownloadEntry) (now : float)
    (fetch : pystr → upstream_file) :
  let registered := _register_download env url title cache in
  let stored :=
    _sanitize_filename (if is_empty title then lit "paper" else title) in
  registered.1 = env_token env
  ∧ (fgt (fsub now (env_created_at env))
         (float_of_Z DOWNLOAD_TTL_SECONDS) = false →
     (download now registered.1 fetch registered.2).1
     = match fetch url with
       | FetchFailed exc =>
           DownloadException 502
             (lit "Failed to fetch upstream full text: " ++ exc)
       | Fetched content_type content_disposition content =>
           DownloadResponse content (media_type_of content_type)
             (content_disposition_of
                (default stored
                   (_filename_from_content_disposition
                      content_disposition)))
       end)
  ∧ (fgt (fsub now (env_created_at env))
         (float_of_Z DOWNLOAD_TTL_SECONDS) = true →
     download_status (download now registered.1 fetch registered.2).1 = 404).
Proof.
  intros registered stored. subst registered. unfold _register_download.
  cbn [fst snd]. split; [done|].
  set (entry := {| url := url; filename := stored;
                   created_at := env_created_at env |}).
  change (_sanitize_filename (if is_empty title then lit "paper" else title))
    with stored.
  change {| url := url; filename := stored;
            created_at := env_created_at env |} with entry.
  set (pruned := _prune_download_cache (env_prune_time env) cache).
  split.
  - intros Hlive. unfold download.
    assert (He : _prune_download_cache now (<[env_token env := entry]> pruned)
                 !! env_token env = Some entry).
    { apply prune_lookup. split; [apply lookup_insert_eq|exact Hlive]. }
    rewrite He. simpl.
    destruct (fetch url) as [exc|ct cd content]; [done|].
    by rewrite download_filename.
  - intros Hdead. unfold download.
    assert (He : _prune_download_cache now (<[env_token env := entry]> pruned)
                 !! env_token env = None).
    { apply prune_lookup_None. intros e. rewrite lookup_insert_eq.
      intros [= <-]. unfold live. cbn [created_at entry]. by rewrite Hdead. }
    by rewrite He.
Qed.

Lemma prune_safe (now : float) (cache : gmap pystr DownloadEntry) :
  map_Forall (λ _ entry, safe_filename (filename entry)) cache →
  map_Forall (λ _ entry, safe_filename (filename entry))
    (_prune_download_cache now cache).
Proof.
  intros H token entry [He _]%prune_lookup. by apply (H token).
Qed.

Lemma reachable_cache_safe (cache : gmap pystr DownloadEntry) :
  reachable_cache cache →
  map_Forall (λ _ entry, safe_filename (filename entry)) cache.
Proof.
  induction 1 as [|env title result cache Hr IH|now token fetch cache Hr IH].
  - apply map_Forall_empty.
  - unfold lookup.
    destruct (d_match result) as [m|], (d_candidate_urls result) as [|u r];
      simpl; try done;
      (apply map_Forall_insert_2;
       [apply sanitize_filename_is_safe|by apply prune_safe]).
  - unfold download.
    destruct (_prune_download_cache now cache !! token) as [entry|] eqn:He;
      [destruct (fetch (url entry))|]; simpl; by apply prune_safe.
Qed.

Lemma media_type_of_shape (content_type : option pystr) :
  media_type_of content_type ≠ [] ∧ 59 ∉ media_type_of content_type.
Proof.
  unfold media_type_of.
  set (value := default (lit "application/octet-stream") content_type).
  destruct (strip is_space (take_until (λ c, c =? 59) value)) as [|c r] eqn:E.
  - split; [done|]. cbn [is_empty]. intros Hin.
    by repeat (apply elem_of_cons in Hin as [Hin|Hin]; [done|]);
       apply elem_of_nil in Hin.
  - cbn [is_empty]. split; [done|]. rewrite <- E.
    assert (Hall : Forall (λ c, c ≠ 59) (take_until (λ c, c =? 59) value)).
    { generalize value. intros v. induction v as [|x v IH]; simpl;
        [constructor|].
      destruct (Z.eqb_spec x 59); by constructor. }
    apply (Forall_strip _ is_space) in Hall.
    intros Hin. by apply (proj1 (Forall_forall _ _) Hall 59 Hin).
Qed.

(** X8: in every state of the cache that the server can reach,
    [download] only answers with a [Content-Disposition] header made of
    attachment; filename= and a quoted name that is not empty, has at most
    140 characters and holds no double quote, slash, backslash, semicolon
    or line break; the media type is never empty and carries no
    parameter. *)
Theorem download_header_safe (cache : gmap pystr DownloadEntry)
    (now : float) (token : pystr) (fetch : pystr → upstream_file)
    (content media_type content_disposition : pystr) :
  reachable_cache cache →
  (download now token fetch cache).1
  = DownloadResponse content media_type content_disposition →
  (∃ name, content_disposition = content_disposition_of name
           ∧ safe_filename name
           ∧ Forall (λ c, c ∉ [34; 47; 92; 59; 10; 13]) name)
  ∧ media_type ≠ [] ∧ 59 ∉ media_type.
Proof.
  intros Hreach. apply reachable_cache_safe in Hreach.
  unfold download.
  destruct (_prune_download_cache now cache !! token) as [entry|] eqn:He;
    [|done].
  apply prune_lookup in He as [He _]. apply Hreach in He.
  destruct (fetch (url entry)) as [exc|ct cd body]; [done|]. simpl.
  intros [= <- <- <-]. split; [|apply media_type_of_shape].
  rewrite download_filename.
  assert (Hsafe : safe_filename
            (default (filename entry) (_filename_from_content_disposition cd))).
  { destruct (_filename_from_content_disposition cd) as [name|] eqn:E;
      [|done]. by apply filename_from_content_disposition_safe in E. }
  eexists. split; [done|]. split; [done|].
  destruct Hsafe as (_ & _ & Hall).
  eapply Forall_impl; [exact Hall|]. intros c Hc Hin. simpl in Hc.
  repeat (apply elem_of_cons in Hin as [->|Hin]; [discriminate Hc|]).
  by apply elem_of_nil in Hin.
Qed.

End DownloadFacts.

(** ** Links and authors of a Crossref work *)

Lemma contains_spec (s t : pystr) :
  contains s t = true ↔ ∃ pre post, s = pre ++ t ++ post.
Proof.
  split.
  - induction s as [|c r IH]; cbn [contains].
    + rewrite orb_false_r. intros H%startswith_split. by exists [], (drop (length t) []).
    + intros [H|H]%orb_true_iff.
      * apply startswith_split in H. by exists [], (drop (length t) (c :: r)).
      * destruct (IH H) as (pre & post & ->). by exists (c :: pre), post.
  - intros (pre & post & ->). induction pre as [|c pre IH].
    + simpl. destruct (t ++ post) eqn:E; cbn [contains];
        rewrite <- E, startswith_app; done.
    + cbn [app contains]. rewrite IH. apply orb_true_r.
Qed.

Lemma option_list_cases {A} (l : list (option A)) :
  None ∈ l ∨ ∃ l', l = Some <$> l'.
Proof.
  induction l as [|[a|] l IH].
  - right. by exists [].
  - destruct IH as [H|[l' ->]].
    + left. by apply elem_of_cons; right.
    + right. by exists (a :: l').
  - left. by apply elem_of_cons; left.
Qed.

Lemma not_None_in_Some {A} (l : list A) : None ∉ (Some <$> l).
Proof. intros (x & ? & _)%list_elem_of_fmap. done. Qed.

Lemma format_authors_loop_null (index : nat)
    (authors : list (option crossref_author)) (names : list pystr)
    (first : option pystr) :
  None ∈ authors → format_authors_loop index authors names first = None.
Proof.
  revert index names first.
  induction authors as [|[a|] r IH]; intros index names first Hin.
  - by apply elem_of_nil in Hin.
  - apply elem_of_cons in Hin as [|Hin]; [done|]. simpl. by apply IH.
  - done.
Qed.

Lemma format_authors_loop_later (index : nat) (l : list crossref_author)
    (names : list pystr) (first : option pystr) :
  format_authors_loop (S index) (Some <$> l) names first
  = Some (names ++ filter (λ n, n ≠ []) (author_name <$> l), first).
Proof.
  revert index names.
  induction l as [|a l IH]; intros index names; simpl.
  - by rewrite app_nil_r.
  - rewrite IH. destruct (author_name a) as [|c r] eqn:E; cbn [is_empty].
    + by rewrite filter_cons_False by naive_solver.
    + rewrite filter_cons_True by done. by rewrite <- app_assoc.
Qed.

Lemma format_authors_loop_all (l : list crossref_author) :
  format_authors_loop 0 (Some <$> l) [] None
  = Some (filter (λ n, n ≠ []) (author_name <$> l), first_family l).
Proof.
  destruct l as [|a l]; [done|]. cbn [fmap list_fmap format_authors_loop].
  rewrite format_authors_loop_later. cbn [bool_decide decide_rel]. simpl.
  destruct (author_family a) as [|c r] eqn:Ef; cbn [is_empty negb];
    destruct (author_name a) as [|c' r'] eqn:En; cbn [is_empty];
    rewrite ?filter_cons_False by naive_solver;
    rewrite ?filter_cons_True by done; done.
Qed.

Lemma author_family_stripped (a : crossref_author) :
  strip is_space (author_family a) = author_family a.
Proof. apply strip_idem. Qed.

Lemma author_name_stripped (a : crossref_author) :
  strip is_space (author_name a) = author_name a.
Proof. apply strip_idem. Qed.

(** The name of an author with a surname ends with that surname. *)
Lemma author_name_family (a : crossref_author) :
  author_family a ≠ [] →
  author_name a ≠ [] ∧ endswith (author_name a) (author_family a) = true.
Proof.
  intros Hf. unfold author_name.
  rewrite (filter_cons (λ part : pystr, part ≠ [])).
  rewrite (filter_cons_True (λ part : pystr, part ≠ []) (author_family a))
    by done.
  rewrite filter_nil.
  destruct (decide (author_given a ≠ [])) as [Hg|Hg].
  - cbn [join_space].
    assert (Hid : strip is_space (author_given a ++ 32 :: author_family a)
                  = author_given a ++ 32 :: author_family a).
    { apply strip_id.
      - pose proof (proj1 (strip_ends is_space (or_empty (given a)))) as H.
        fold (author_given a) in H.
        destruct (author_given a); [done|exact H].
      - pose proof (proj2 (strip_ends is_space (or_empty (family a)))) as H.
        fold (author_family a) in H.
        change (author_given a ++ 32 :: author_family a)
          with (author_given a ++ [32] ++ author_family a).
        rewrite !rev_app_distr.
        destruct (rev (author_family a)) as [|c r] eqn:E; [|exact H].
        apply (f_equal (@rev Z)) in E. rewrite rev_involutive in E. done. }
    rewrite Hid. split; [by destruct (author_given a)|].
    change (author_given a ++ 32 :: author_family a)
      with (author_given a ++ [32] ++ author_family a).
    rewrite app_assoc. apply endswith_app.
  - cbn [join_space]. rewrite author_family_stripped. split; [done|].
    apply (endswith_app [] (author_family a)).
Qed.

Section CrossrefHelpers.

Variable urlparse : pystr → option ParseResult.
Variable unicode_lower : pystr → nat → pystr.

Local Abbreviation dedupe_urls := (dedupe_urls urlparse).
Local Abbreviation link_type := (link_type unicode_lower).
Local Abbreviation link_is_pdf := (link_is_pdf unicode_lower).
Local Abbreviation crossref_pdf_urls := (crossref_pdf_urls unicode_lower).
Local Abbreviation extract_crossref_pdf_links :=
  (extract_crossref_pdf_links unicode_lower urlparse).

Lemma elem_of_crossref_pdf_urls (item : crossref_work) (u : pystr) :
  u ∈ crossref_pdf_urls item
  ↔ ∃ link, link ∈ default [] (work_link item)
            ∧ link_is_pdf link = true ∧ u = link_url link.
Proof.
  unfold crossref_pdf_urls. rewrite list_elem_of_fmap.
  split.
  - intros (link & -> & [Hpdf Hin]%list_elem_of_filter). by exists link.
  - intros (link & Hin & Hpdf & ->). exists link. split; [done|].
    by apply list_elem_of_filter.
Qed.

(** X9: [extract_crossref_pdf_links] raises exactly when [urlparse]
    raises on the URL of a link that has a URL and a content type
    containing pdf; otherwise its result has no duplicate and every URL in
    it is the canonical form of the URL of such a link, with an http or
    https scheme and a net location. *)
Theorem extract_crossref_pdf_links_cases (item : crossref_work) :
  (extract_crossref_pdf_links item = None
   ↔ ∃ link, link ∈ default [] (work_link item)
             ∧ link_is_pdf link = true
             ∧ urlparse (link_url link) = None)
  ∧ ∀ out, extract_crossref_pdf_links item = Some out →
      NoDup out
      ∧ Forall (λ c, ∃ link p,
                  link ∈ default [] (work_link item)
                  ∧ link_url link ≠ []
                  ∧ contains (link_type link) (lit "pdf") = true
                  ∧ urlparse (link_url link) = Some p
                  ∧ http_scheme (scheme p) = true ∧ netloc p ≠ []
                  ∧ c = geturl p) out.
Proof.
  unfold extract_crossref_pdf_links.
  destruct (dedupe_urls_properties urlparse (crossref_pdf_urls item))
    as [Hnone Hsome].
  split.
  - rewrite Hnone, Exists_exists. split.
    + intros (u & (link & Hin & Hpdf & ->)%elem_of_crossref_pdf_urls & Hu).
      by exists link.
    + intros (link & Hin & Hpdf & Hu). exists (link_url link).
      split; [|done]. apply elem_of_crossref_pdf_urls. by exists link.
  - intros out Hout. destruct (Hsome out Hout) as (Hform & Hnodup & _).
    split; [done|]. eapply Forall_impl; [exact Hform|].
    intros c (u & p & Hu & Hp & Hs & Hn & ->).
    apply elem_of_crossref_pdf_urls in Hu as (link & Hin & Hpdf & ->).
    unfold link_is_pdf in Hpdf.
    apply andb_true_iff in Hpdf as [Hurl Hct].
    exists link, p. split; [done|]. split; [by destruct (link_url link)|].
    done.
Qed.

End CrossrefHelpers.

Lemma format_crossref_authors_null (item : crossref_item) :
  _format_crossref_authors item = None
  ↔ None ∈ default [] (cr_author item).
Proof.
  unfold _format_crossref_authors.
  destruct (option_list_cases (default [] (cr_author item)))
    as [Hnull|[l Hl]].
  - by rewrite (format_authors_loop_null _ _ _ _ Hnull).
  - rewrite Hl, format_authors_loop_all. split; [done|].
    intros H. by apply not_None_in_Some in H.
Qed.

(** X10: [_format_crossref_authors] raises exactly when the author list
    holds a null entry; otherwise the formatted names are the non-empty
    names of the authors, in order, each trimmed of white space, and there
    are no more names than authors. *)
Theorem format_crossref_authors_cases (item : crossref_item) :
  let authors := default [] (cr_author item) in
  (_format_crossref_authors item = None ↔ None ∈ authors)
  ∧ ∀ names first,
      _format_crossref_authors item = Some (names, first) →
      (∃ l, authors = Some <$> l
            ∧ names = filter (λ n, n ≠ []) (author_name <$> l))
      ∧ Forall (λ n, n ≠ [] ∧ strip is_space n = n) names
      ∧ (length names ≤ length authors)%nat.
Proof.
  intros authors. unfold _format_crossref_authors. fold authors.
  destruct (option_list_cases authors) as [Hnull|[l Hl]].
  - rewrite (format_authors_loop_null _ _ _ _ Hnull). split; [done|].
    intros names first [=].
  - rewrite Hl, format_authors_loop_all. split.
    + split; [done|]. intros H. by apply not_None_in_Some in H.
    + intros names first [= <- <-]. split; [by exists l|]. split.
      * apply Forall_forall. intros n [Hn Hin]%list_elem_of_filter.
        split; [done|].
        apply list_elem_of_fmap in Hin as (a & -> & _).
        apply author_name_stripped.
      * rewrite length_fmap. etrans; [apply length_filter|].
        by rewrite length_fmap.
Qed.

(** X11: when [_format_crossref_authors] reports a first-author surname,
    it is the trimmed, non-empty family name of the first author and the
    first formatted name ends with it; when it reports none, the first
    author, if there is one, has a blank family name. *)
Theorem format_crossref_authors_first (item : crossref_item)
    (names : list pystr) (first : option pystr) :
  _format_crossref_authors item = Some (names, first) →
  match first with
  | Some surname =>
      surname ≠ [] ∧ strip is_space surname = surname
      ∧ (∃ a rest, default [] (cr_author item) = Some a :: rest
                   ∧ surname = strip is_space (or_empty (family a)))
      ∧ ∃ name others, names = name :: others
                       ∧ endswith name surname = true
  | None =>
      match default [] (cr_author item) with
      | Some a :: _ => strip is_space (or_empty (family a)) = []
      | _ => True
      end
  end.
Proof.
  unfold _format_crossref_authors.
  destruct (option_list_cases (default [] (cr_author item)))
    as [Hnull|[l Hl]].
  - by rewrite (format_authors_loop_null _ _ _ _ Hnull).
  - rewrite Hl, format_authors_loop_all. intros [= <- <-].
    destruct l as [|a l]; [done|]. cbn [first_family fmap list_fmap].
    destruct (author_family a) as [|c r] eqn:Ef; cbn [is_empty].
    + exact Ef.
    + assert (Hf : author_family a ≠ []) by (by rewrite Ef).
      destruct (author_name_family a Hf) as [Hn He].
      rewrite <- Ef. split; [done|]. split; [apply author_family_stripped|].
      split; [by exists a, (Some <$> l)|].
      exists (author_name a), (filter (λ n, n ≠ []) (author_name <$> l)).
      split; [|done]. by rewrite filter_cons_True.
Qed.

(** ** Unpaywall *)

Lemma location_url_cases (location : option oa_location) :
  location_url location
  = or_empty (from_option loc_url_for_pdf Missing location)
  ∨ location_url location = or_empty (from_option loc_url Missing location).
Proof. unfold location_url. destruct (is_empty _); auto. Qed.

Lemma first_location_url_Some (locations : list (option oa_location))
    (u : pystr) :
  first_location_url locations = Some u →
  u ≠ [] ∧ ∃ location, location ∈ locations ∧ u = location_url location.
Proof.
  induction locations as [|l r IH]; simpl; [done|].
  destruct (location_url l) as [|c s] eqn:E; cbn [is_empty].
  - intros (Hu & l' & Hin & ->)%IH. split; [done|].
    exists l'. split; [by apply elem_of_cons; right|done].
  - intros [= <-]. split; [done|]. exists l.
    split; [by apply elem_of_cons; left|done].
Qed.

Lemma first_location_url_None (locations : list (option oa_location)) :
  first_location_url locations = None
  ↔ Forall (λ location, location_url location = []) locations.
Proof.
  induction locations as [|l r IH]; simpl.
  - split; [constructor|done].
  - rewrite Forall_cons. destruct (location_url l) as [|c s]; cbn [is_empty].
    + rewrite IH. tauto.
    + split; [done|]. by intros [? _].
Qed.

Lemma fetch_unpaywall_pdf_url_total (response : upstream unpaywall_payload)
    (doi unpaywall_email : pystr) :
  (doi = [] ∨ unpaywall_email = [] →
   fetch_unpaywall_pdf_url response doi unpaywall_email = Some None)
  ∧ (response = HTTPError →
     fetch_unpaywall_pdf_url response doi unpaywall_email = Some None)
  ∧ (fetch_unpaywall_pdf_url response doi unpaywall_email = None
     ↔ doi ≠ [] ∧ unpaywall_email ≠ [] ∧ response = BadBody).
Proof.
  unfold fetch_unpaywall_pdf_url.
  destruct doi as [|d doi]; [|destruct unpaywall_email as [|m email]];
    cbn [is_empty orb].
  - split; [done|]. split; [done|]. split; [done|by intros [? _]].
  - split; [done|]. split; [done|]. split; [done|by intros (_ & ? & _)].
  - split; [by intros [|]|].
    destruct response as [| |payload]; (split; [done|]).
    + split; [done|by intros (_ & _ & ?)].
    + done.
    + destruct (negb _); (split; [done|by intros (_ & _ & ?)]).
Qed.

(** X12: [fetch_unpaywall_pdf_url] returns nothing without a DOI,
    without an e-mail address and when the request fails; an exception
    escapes only when a request was made and the body is not JSON; it
    never returns an empty URL; a URL it returns belongs to
    [best_oa_location] or to an entry of [oa_locations], the best location
    being preferred; on a payload it returns nothing exactly when no
    location has a URL. *)
Theorem fetch_unpaywall_pdf_url_cases (response : upstream unpaywall_payload)
    (doi unpaywall_email : pystr) :
  let result := fetch_unpaywall_pdf_url response doi unpaywall_email in
  (doi = [] ∨ unpaywall_email = [] → result = Some None)
  ∧ (response = HTTPError → result = Some None)
  ∧ (result = None
     ↔ doi ≠ [] ∧ unpaywall_email ≠ [] ∧ response = BadBody)
  ∧ (∀ u, result = Some (Some u) →
       u ≠ []
       ∧ ∃ payload location,
           response = Json payload
           ∧ location ∈ best_oa_location payload
                        :: default [] (oa_locations payload)
           ∧ u = location_url location)
  ∧ (∀ payload, response = Json payload →
       doi ≠ [] → unpaywall_email ≠ [] →
       (location_url (best_oa_location payload) ≠ [] →
        result = Some (Some (location_url (best_oa_location payload))))
       ∧ (result = Some None
          ↔ Forall (λ location, location_url location = [])
              (best_oa_location payload
               :: default [] (oa_locations payload)))).
Proof.
  intros result. subst result. unfold fetch_unpaywall_pdf_url.
  destruct doi as [|d doi]; [|destruct unpaywall_email as [|m email]];
    cbn [is_empty orb].
  - split; [done|]. split; [done|]. split; [split; [done|by intros [? _]]|].
    split; [done|]. by intros payload _ ?.
  - split; [done|]. split; [done|].
    split; [split; [done|by intros (_ & ? & _)]|].
    split; [done|]. by intros payload _ _ ?.
  - split; [by intros [|]|].
    destruct response as [| |payload].
    + split; [done|]. split; [split; [done|by intros (_ & _ & ?)]|].
      split; [done|]. by intros payload.
    + split; [done|]. split; [done|]. split; [done|]. by intros payload.
    + split; [done|].
      destruct (location_url (best_oa_location payload)) as [|c s] eqn:E;
        cbn [is_empty negb];
        (split; [split; [done|by intros (_ & _ & ?)]|]).
      * split.
        { intros u [= Hu]. apply first_location_url_Some in Hu
            as (Hne & location & Hin & ->).
          split; [done|]. exists payload, location.
          split; [done|]. split; [by apply elem_of_cons; right|done]. }
        intros ? [= <-] _ _. split; [done|].
        rewrite Forall_cons, <- first_location_url_None.
        split; [by intros [= ->]|by intros [_ ->]].
      * split.
        { intros u [= <-]. split; [done|].
          exists payload, (best_oa_location payload).
          split; [done|]. split; [by apply elem_of_cons; left|done]. }
        intros ? [= <-] _ _. split; [by rewrite E|].
        split; [done|]. rewrite Forall_cons, E. by intros [? _].
Qed.

(** ** More on the similarity of titles *)

Lemma matches_one_empty (a b : pystr) :
  a = [] ∨ b = [] →
  sum_sizes (get_matching_blocks (new_matcher a b)) = 0.
Proof.
  intros Hab. rewrite sum_sizes_get_matching_blocks.
  cbn [sm_a sm_b new_matcher].
  pose proof (matching_loop_sum (new_matcher a b)
                (matching_fuel (new_matcher a b))
                [(0, Z.of_nat (length a), 0, Z.of_nat (length b))] []) as H.
  unfold queue_cap, span_cap in H. cbn [foldr] in H.
  change (sum_sizes []) with 0 in H.
  assert (Hok : Forall span_ok
            [(0, Z.of_nat (length a), 0, Z.of_nat (length b))]).
  { constructor; [simpl; lia|constructor]. }
  specialize (H Hok).
  assert (Z.of_nat (length a) = 0 ∨ Z.of_nat (length b) = 0)
    by (destruct Hab as [-> | ->]; simpl; lia).
  lia.
Qed.

Lemma calculate_ratio_zero (n : Z) :
  0 < n < 2 ^ 64 → calculate_ratio 0 n = f0_0.
Proof.
  intros Hn. unfold calculate_ratio.
  destruct (Z.eqb_spec n 0) as [|_]; [lia|].
  by rewrite (float_of_Z_rn n Hn).
Qed.

Lemma ratio_one_empty (a b : pystr) :
  (a = [] ∧ b ≠ []) ∨ (a ≠ [] ∧ b = []) →
  Z.of_nat (length a) + Z.of_nat (length b) < 2 ^ 64 →
  ratio (new_matcher a b) = f0_0.
Proof.
  intros Hab Hlen. unfold ratio.
  rewrite matches_one_empty by tauto. cbn [sm_a sm_b new_matcher].
  apply calculate_ratio_zero.
  destruct Hab as [[-> Hb]|[Ha ->]]; [destruct b|destruct a]; simpl in *;
    try done; lia.
Qed.

Lemma remove_spaces_id (s : pystr) :
  Forall (λ c, c ≠ 32) s → remove_spaces s = s.
Proof.
  unfold remove_spaces. induction 1 as [|c r Hc Hr IH]; [done|].
  rewrite filter_cons_True by done. by f_equal.
Qed.

Lemma name_letter_normal (c : Z) :
  is_name_letter c = true → is_normal_char c = true ∧ is_space c = false.
Proof.
  unfold is_name_letter, is_normal_char, is_space, is_lower_az, is_digit,
    in_range. intros H. split; [lia|].
  apply not_true_is_false. intros H'. lia.
Qed.

Lemma spaced_no_space (b : bool) (s : pystr) :
  Forall (λ c, is_space c = false) s → spaced b s.
Proof.
  intros H. revert b. induction H as [|c r Hc Hr IH]; intros b; simpl; [done|].
  rewrite Hc. apply IH.
Qed.

Section SimilarityMore.

Variable unicode_lower : pystr → nat → pystr.

Local Abbreviation normalize_text := (normalize_text unicode_lower).
Local Abbreviation normalize_last_name := (normalize_last_name unicode_lower).
Local Abbreviation title_similarity := (title_similarity unicode_lower).

(** X13: two non-empty titles with the same normalized form, such as
    titles that differ in letter case, punctuation and spacing only, have
    similarity 1.0; so have two titles that both normalize to the empty
    string. *)
Theorem title_similarity_same_normal_form (left right : pystr) :
  left ≠ [] → right ≠ [] →
  normalize_text left = normalize_text right →
  Z.of_nat (length (normalize_text left)) < 2 ^ 63 →
  title_similarity left right = f1_0.
Proof.
  intros Hl Hr Heq Hlen. unfold title_similarity.
  rewrite (is_empty_false _ Hl), (is_empty_false _ Hr). cbn [orb].
  rewrite <- Heq. apply ratio_self. lia.
Qed.

(** X14: when exactly one of two titles normalizes to the empty string,
    their similarity is 0.0. *)
Theorem title_similarity_one_blank (left right : pystr) :
  (normalize_text left = [] ∧ normalize_text right ≠ [])
  ∨ (normalize_text left ≠ [] ∧ normalize_text right = []) →
  Z.of_nat (length (normalize_text left)) < 2 ^ 63 →
  Z.of_nat (length (normalize_text right)) < 2 ^ 63 →
  title_similarity left right = f0_0.
Proof.
  intros Hone Hl Hr. unfold title_similarity.
  destruct (is_empty left || is_empty right); [done|].
  apply ratio_one_empty; [done|lia].
Qed.

Lemma normalize_last_name_letters (x : pystr) :
  Forall (λ c, is_name_letter c = true) (normalize_last_name x).
Proof.
  unfold normalize_last_name, remove_spaces.
  apply Forall_forall. intros c [Hc Hin]%list_elem_of_filter.
  pose proof (normalize_text_chars unicode_lower x) as Hall.
  apply (proj1 (Forall_forall _ _) Hall) in Hin.
  unfold is_normal_char in Hin. unfold is_name_letter.
  destruct (is_lower_az c || is_digit c); [done|].
  simpl in Hin. apply Z.eqb_eq in Hin. done.
Qed.

Lemma normalize_text_letters (s : pystr) :
  Forall (λ c, is_name_letter c = true) s → normalize_text s = s.
Proof.
  intros Hs.
  assert (Hn : Forall (λ c, is_normal_char c = true) s).
  { eapply Forall_impl; [exact Hs|]. intros c Hc.
    by apply name_letter_normal. }
  assert (Hsp : Forall (λ c, is_space c = false) s).
  { eapply Forall_impl; [exact Hs|]. intros c Hc.
    by apply name_letter_normal. }
  unfold normalize_text.
  rewrite (str_lower_normal unicode_lower _ Hn),
    (sub_not_alnum_space_id _ Hn),
    (sub_space_runs_spaced _ _ (spaced_no_space false s Hsp)).
  apply strip_id.
  - by destruct Hsp.
  - apply Forall_rev in Hsp. by destruct Hsp.
Qed.

(** X15: [normalize_last_name] leaves only the letters a to z and the
    digits, and it is idempotent. *)
Theorem normalize_last_name_idempotent (x : pystr) :
  Forall (λ c, is_name_letter c = true) (normalize_last_name x)
  ∧ normalize_last_name (normalize_last_name x) = normalize_last_name x.
Proof.
  pose proof (normalize_last_name_letters x) as Hall.
  split; [done|]. unfold normalize_last_name at 1.
  rewrite (normalize_text_letters _ Hall). apply remove_spaces_id.
  eapply Forall_impl; [exact Hall|]. intros c Hc ->. done.
Qed.

End SimilarityMore.

(** ** What the selectors return *)

Section PickSound.

Context {A : Type} (score_of : A → float).

Lemma pick_fold_sound (items : list A) (st : option A * float) :
  let out := foldl (pick_step score_of) st items in
  (out = st
   ∨ ∃ x, x ∈ items ∧ out = (Some x, score_of x)
          ∧ flt st.2 (score_of x) = true).
Proof.
  revert st. induction items as [|y l IH]; intros st; simpl; [by left|].
  destruct (IH (pick_step score_of st y)) as [Heq|(x & Hin & Hout & Hlt)].
  - rewrite Heq. unfold pick_step.
    destruct (fgt (score_of y) st.2) eqn:E; [|by left].
    right. exists y. split; [by apply elem_of_cons; left|done].
  - right. exists x. split; [by apply elem_of_cons; right|].
    split; [done|]. revert Hlt. unfold pick_step.
    destruct (fgt (score_of y) st.2) eqn:E; [|done]. simpl.
    intros Hlt. apply flt_key in Hlt as (_ & Hx & Hk).
    unfold fgt in E. apply (flt_key st.2 (score_of y)) in E as (Hs & _ & Hk').
    apply flt_key. split; [done|]. split; [done|]. unfold key_lt in *. lia.
Qed.

(** The selection returns nothing, or an item of the list with its own
    score, which is at least 0.45. *)
Lemma pick_best_sound (items : list A) :
  pick_best score_of items = (None, f0_0)
  ∨ ∃ x, x ∈ items ∧ pick_best score_of items = (Some x, score_of x)
         ∧ fle f0_45 (score_of x) = true.
Proof.
  unfold pick_best.
  destruct (pick_fold_sound items (None, fminus1_0))
    as [->|(x & Hin & -> & Hlt)]; [by left|].
  cbn [snd] in Hlt.
  destruct (flt (score_of x) f0_45) eqn:E; [by left|].
  right. exists x. split; [done|]. split; [done|].
  apply flt_not_nan in Hlt as [_ Hx].
  destruct (flt_or_fle (score_of x) f0_45 Hx eq_refl); [congruence|done].
Qed.

Lemma pick_best_Some (items : list A) (x : A) (s : float) :
  pick_best score_of items = (Some x, s) →
  x ∈ items ∧ s = score_of x ∧ fle f0_45 s = true.
Proof.
  destruct (pick_best_sound items) as [->|(y & Hin & -> & Hle)]; [done|].
  by intros [= <- <-].
Qed.

Lemma pick_best_None (items : list A) (s : float) :
  pick_best score_of items = (None, s) → s = f0_0.
Proof.
  destruct (pick_best_sound items) as [->|(y & Hin & -> & Hle)]; [|done].
  by intros [= <-].
Qed.

End PickSound.

(** The selection on a list of JSON values raises exactly when an entry
    is not an object, and is the selection on the objects otherwise. *)
Lemma pick_fold_nullable_None {A} (score_of : A → float)
    (items : list (option A)) :
  foldl (pick_step_nullable score_of) None items = None.
Proof. induction items as [|x l IH]; [done|]. simpl. exact IH. Qed.

Lemma pick_best_nullable_null {A} (score_of : A → float)
    (items : list (option A)) :
  None ∈ items → pick_best_nullable score_of items = None.
Proof.
  unfold pick_best_nullable. generalize (Some (None : option A, fminus1_0)).
  induction items as [|x l IH]; intros st Hin.
  - by apply elem_of_nil in Hin.
  - simpl. apply elem_of_cons in Hin as [<-|Hin].
    + destruct st; simpl; by rewrite pick_fold_nullable_None.
    + by apply IH.
Qed.

Lemma pick_best_nullable_objects {A} (score_of : A → float) (l : list A) :
  pick_best_nullable score_of (Some <$> l) = Some (pick_best score_of l).
Proof.
  unfold pick_best_nullable, pick_best.
  assert (H : ∀ st, foldl (pick_step_nullable score_of) (Some st) (Some <$> l)
                    = Some (foldl (pick_step score_of) st l)).
  { induction l as [|x l IH]; intros st; [done|]. simpl. apply IH. }
  rewrite H. by destruct (foldl _ _ l).
Qed.

Lemma pick_best_nullable_None {A} (score_of : A → float)
    (items : list (option A)) :
  pick_best_nullable score_of items = None ↔ None ∈ items.
Proof.
  split; [|apply pick_best_nullable_null].
  destruct (option_list_cases items) as [H|[l ->]]; [done|].
  by rewrite pick_best_nullable_objects.
Qed.

Lemma pick_best_nullable_Some {A} (score_of : A → float)
    (items : list (option A)) (best : option A) (s : float) :
  pick_best_nullable score_of items = Some (best, s) →
  (None ∉ items)
  ∧ (match best with
     | Some x => Some x ∈ items ∧ s = score_of x ∧ fle f0_45 s = true
     | None => s = f0_0
     end).
Proof.
  destruct (option_list_cases items) as [H|[l ->]].
  - by rewrite (pick_best_nullable_null _ _ H).
  - rewrite pick_best_nullable_objects. intros [= Hp].
    split; [apply not_None_in_Some|]. destruct best as [x|].
    + apply pick_best_Some in Hp as (Hin & -> & Hle).
      split; [|done]. apply list_elem_of_fmap. by exists x.
    + by apply pick_best_None in Hp.
Qed.

Lemma pick_best_nullable_below {A} (score_of : A → float)
    (items : list (option A)) :
  Forall (λ item, ∃ x, item = Some x ∧ flt (score_of x) f0_45 = true) items →
  pick_best_nullable score_of items = Some (None, f0_0).
Proof.
  intros Hall. destruct (option_list_cases items) as [H|[l ->]].
  - apply (proj1 (Forall_forall _ _) Hall) in H as (x & ? & _). done.
  - rewrite pick_best_nullable_objects. f_equal. apply pick_best_below.
    apply Forall_forall. intros x Hx.
    assert (Hin : Some x ∈ Some <$> l)
      by (apply list_elem_of_fmap; by exists x).
    apply (proj1 (Forall_forall _ _) Hall) in Hin as (y & [= <-] & Hy). done.
Qed.

(** The selection on JSON objects is the selection on their views. *)
Lemma pick_best_view {A B : Type} (view : A → B) (score_of : B → float)
    (items : list A) :
  let out := pick_best (λ x, score_of (view x)) items in
  pick_best score_of (view <$> items) = (view <$> out.1, out.2).
Proof.
  unfold pick_best.
  assert (H : ∀ st : option A * float,
            foldl (pick_step score_of) (view <$> st.1, st.2) (view <$> items)
            = (view <$> (foldl (pick_step (λ x, score_of (view x))) st
                           items).1,
               (foldl (pick_step (λ x, score_of (view x))) st items).2)).
  { induction items as [|y l IH]; intros st; simpl; [done|].
    rewrite <- IH. f_equal. unfold pick_step. simpl.
    by destruct (fgt (score_of (view y)) st.2). }
  specialize (H (None, fminus1_0)). simpl in H. rewrite H.
  destruct (foldl _ _ items) as [best_item best_score]. simpl.
  by destruct (flt best_score f0_45).
Qed.

Section TitleFacts.

Variable unicode_lower : pystr → nat → pystr.

Local Abbreviation title_similarity := (title_similarity unicode_lower).
Local Abbreviation _score_crossref_item :=
  (_score_crossref_item unicode_lower).
Local Abbreviation _score_europe_pmc_result :=
  (_score_europe_pmc_result unicode_lower).
Local Abbreviation pick_best_crossref_item :=
  (pick_best_crossref_item unicode_lower).
Local Abbreviation pick_best_europe_pmc_result :=
  (pick_best_europe_pmc_result unicode_lower).

Lemma title_similarity_blank (left right : pystr) :
  left = [] ∨ right = [] → title_similarity left right = f0_0.
Proof.
  unfold title_similarity. intros [-> | ->]; [done|].
  by rewrite orb_true_r.
Qed.

(** A record without a title, or any record when the requested title is
    empty, scores less than 0.45. *)
Lemma score_crossref_item_blank (item : crossref_item)
    (requested_title last_name : pystr) :
  crossref_candidate_title item = [] ∨ requested_title = [] →
  flt (_score_crossref_item item requested_title last_name) f0_45 = true.
Proof.
  intros H. unfold _score_crossref_item.
  rewrite (title_similarity_blank _ _ H).
  destruct (is_empty _); [done|].
  destruct (default [] (cr_author item)) as [|first rest]; [done|].
  destruct (_ && _); [done|]. by destruct (existsb _ _).
Qed.

Lemma score_europe_pmc_result_blank (result : europe_pmc_result)
    (requested_title last_name : pystr) :
  or_empty (ep_title result) = [] ∨ requested_title = [] →
  flt (_score_europe_pmc_result result requested_title last_name) f0_45
  = true.
Proof.
  intros H. unfold _score_europe_pmc_result.
  rewrite (title_similarity_blank _ _ H).
  destruct (is_empty _); [done|]. by destruct (_ && _).
Qed.

Lemma fle_flt_false (x y : float) : fle x y = true → flt y x = true → False.
Proof. intros H%fle_not_lt. congruence. Qed.

(** X16: a record returned by either selector belongs to the list, comes
    with its own score, which is at least 0.45, and has a title that is
    not empty; nothing is selected for an empty requested title. *)
Theorem selected_record_has_title
    (requested_title requested_first_author_last_name : pystr) :
  (∀ items x s,
     pick_best_crossref_item items requested_title
       requested_first_author_last_name = (Some x, s) →
     x ∈ items
     ∧ s = _score_crossref_item x requested_title
             requested_first_author_last_name
     ∧ fle f0_45 s = true
     ∧ crossref_candidate_title x ≠ [] ∧ requested_title ≠ [])
  ∧ (∀ results x s,
       pick_best_europe_pmc_result results requested_title
         requested_first_author_last_name = (Some x, s) →
       x ∈ results
       ∧ s = _score_europe_pmc_result x requested_title
               requested_first_author_last_name
       ∧ fle f0_45 s = true
       ∧ or_empty (ep_title x) ≠ [] ∧ requested_title ≠ []).
Proof.
  split.
  - intros items x s (Hin & -> & Hle)%pick_best_Some.
    split; [done|]. split; [done|]. split; [done|].
    split; intros Hblank;
      (eapply fle_flt_false;
       [exact Hle|apply score_crossref_item_blank; auto]).
  - intros results x s (Hin & -> & Hle)%pick_best_Some.
    split; [done|]. split; [done|]. split; [done|].
    split; intros Hblank;
      (eapply fle_flt_false;
       [exact Hle|apply score_europe_pmc_result_blank; auto]).
Qed.

End TitleFacts.

(** ** The requests to the sources *)

Section FetchFacts.

Variable unicode_lower : pystr → nat → pystr.
Variable urlparse : pystr → option ParseResult.
Variable round3 : float → float.

Local Abbreviation _score_crossref_item :=
  (_score_crossref_item unicode_lower).
Local Abbreviation _score_europe_pmc_result :=
  (_score_europe_pmc_result unicode_lower).
Local Abbreviation extract_europe_pmc_pdf_url :=
  (extract_europe_pmc_pdf_url unicode_lower).
Local Abbreviation extract_crossref_pdf_links :=
  (extract_crossref_pdf_links unicode_lower urlparse).
Local Abbreviation pick_best_crossref_work :=
  (pick_best_crossref_work unicode_lower).
Local Abbreviation pick_best_europe_pmc_hit :=
  (pick_best_europe_pmc_hit unicode_lower).
Local Abbreviation _build_crossref_match :=
  (_build_crossref_match unicode_lower urlparse round3).
Local Abbreviation _build_europe_pmc_match :=
  (_build_europe_pmc_match unicode_lower round3).
Local Abbreviation fetch_crossref_match :=
  (fetch_crossref_match unicode_lower urlparse round3).
Local Abbreviation fetch_europe_pmc_match :=
  (fetch_europe_pmc_match unicode_lower round3).
Local Abbreviation discover_paper_requests :=
  (discover_paper_requests unicode_lower urlparse round3).
Local Abbreviation lookup_requests :=
  (lookup_requests unicode_lower urlparse round3).

Lemma build_crossref_match_Some (item : crossref_work) (score : float)
    (md : match_details) :
  _build_crossref_match item score = Some md →
  ∃ authors first pdf_links,
    _format_crossref_authors (work_item item) = Some (authors, first)
    ∧ extract_crossref_pdf_links item = Some pdf_links
    ∧ md_match md
      = {| m_source := lit "crossref";
           m_title := Str (crossref_candidate_title (work_item item));
           m_doi := dict_get (cr_DOI (work_item item));
           m_score := round3 score;
           m_pdf_links := pdf_links;
           m_pdf_url := None |}
    ∧ md_authors md = authors
    ∧ md_first_author_last_name md = from_option Str Null first.
Proof.
  unfold _build_crossref_match.
  destruct (_format_crossref_authors (work_item item))
    as [[authors first]|]; [|done].
  destruct (extract_crossref_pdf_links item) as [pdf_links|]; [|done].
  intros [= <-]. by exists authors, first, pdf_links.
Qed.

Lemma build_crossref_match_None (item : crossref_work) (score : float) :
  _build_crossref_match item score = None
  ↔ None ∈ default [] (cr_author (work_item item))
    ∨ extract_crossref_pdf_links item = None.
Proof.
  unfold _build_crossref_match.
  pose proof (proj1 (format_crossref_authors_null (work_item item))) as Hnull.
  destruct (_format_crossref_authors (work_item item))
    as [[authors first]|] eqn:Ef.
  - destruct (extract_crossref_pdf_links item) as [pdf_links|].
    + split; [done|]. intros [H|H]; [|done].
      apply (proj2 (format_crossref_authors_null (work_item item))) in H.
      congruence.
    + split; [by right|done].
  - split; [|done]. intros _. left. by apply Hnull.
Qed.

(** What [fetch_crossref_match] returns comes from a work of the payload
    that reaches the threshold. *)
Lemma fetch_crossref_match_Some
    (response : upstream (option (list (option crossref_work))))
    (requested_title last_name : pystr) (md : match_details) :
  fetch_crossref_match response requested_title last_name = Some (Some md) →
  ∃ payload item pdf_links,
    response = Json payload ∧ Some item ∈ default [] payload
    ∧ (None ∉ default [] payload)
    ∧ fle f0_45 (_score_crossref_item (work_item item) requested_title
                   last_name) = true
    ∧ crossref_candidate_title (work_item item) ≠ []
    ∧ extract_crossref_pdf_links item = Some pdf_links
    ∧ md_match md
      = {| m_source := lit "crossref";
           m_title := Str (crossref_candidate_title (work_item item));
           m_doi := dict_get (cr_DOI (work_item item));
           m_score := round3 (_score_crossref_item (work_item item)
                                requested_title last_name);
           m_pdf_links := pdf_links;
           m_pdf_url := None |}.
Proof.
  unfold fetch_crossref_match, pick_best_crossref_work.
  destruct response as [| |payload]; [done|done|].
  destruct (pick_best_nullable _ (default [] payload))
    as [[best s]|] eqn:Hp; [|done].
  apply pick_best_nullable_Some in Hp as [Hnull Hbest].
  destruct best as [item|]; [|done]. destruct Hbest as (Hin & -> & Hle).
  destruct (work_nonempty item); [|done].
  destruct (_build_crossref_match item _) as [md'|] eqn:Hb; [|done].
  intros [= <-].
  apply build_crossref_match_Some in Hb
    as (authors & first & pdf_links & _ & Hlinks & Hmatch & _).
  exists payload, item, pdf_links.
  split; [done|]. split; [done|]. split; [done|]. split; [done|].
  split; [|done].
  intros Hblank. eapply fle_flt_false; [exact Hle|].
  apply score_crossref_item_blank. by left.
Qed.

Lemma fetch_crossref_match_None
    (response : upstream (option (list (option crossref_work))))
    (requested_title last_name : pystr) :
  fetch_crossref_match response requested_title last_name = None →
  response = BadBody
  ∨ ∃ payload,
      response = Json payload
      ∧ (None ∈ default [] payload
         ∨ ∃ item,
             Some item ∈ default [] payload
             ∧ fle f0_45 (_score_crossref_item (work_item item)
                            requested_title last_name) = true
             ∧ (None ∈ default [] (cr_author (work_item item))
                ∨ extract_crossref_pdf_links item = None)).
Proof.
  unfold fetch_crossref_match, pick_best_crossref_work.
  destruct response as [| |payload]; [done|by left|].
  intros H. right. exists payload. split; [done|]. revert H.
  destruct (pick_best_nullable _ (default [] payload))
    as [[best s]|] eqn:Hp.
  - apply pick_best_nullable_Some in Hp as [Hnull Hbest].
    destruct best as [item|]; [|done]. destruct Hbest as (Hin & -> & Hle).
    destruct (work_nonempty item); [|done].
    destruct (_build_crossref_match item _) as [md|] eqn:Hb; [done|].
    intros _. right. exists item. split; [done|]. split; [done|].
    by apply build_crossref_match_None in Hb.
  - intros _. left. by apply pick_best_nullable_None in Hp.
Qed.

Lemma fetch_crossref_match_null
    (payload : option (list (option crossref_work)))
    (requested_title last_name : pystr) :
  None ∈ default [] payload →
  fetch_crossref_match (Json payload) requested_title last_name = None.
Proof.
  intros Hnull. unfold fetch_crossref_match, pick_best_crossref_work.
  by rewrite (pick_best_nullable_null _ _ Hnull).
Qed.

Lemma fetch_crossref_match_below
    (payload : option (list (option crossref_work)))
    (requested_title last_name : pystr) :
  Forall (λ entry, ∃ item, entry = Some item
                           ∧ flt (_score_crossref_item (work_item item)
                                    requested_title last_name) f0_45 = true)
    (default [] payload) →
  fetch_crossref_match (Json payload) requested_title last_name = Some None.
Proof.
  intros Hall. unfold fetch_crossref_match, pick_best_crossref_work.
  by rewrite (pick_best_nullable_below _ _ Hall).
Qed.

Lemma fetch_europe_pmc_match_Some
    (response : upstream (option (list (option europe_pmc_hit))))
    (requested_title last_name : pystr) (md : match_details) :
  fetch_europe_pmc_match response requested_title last_name
  = Some (Some md) →
  ∃ payload hit,
    response = Json payload ∧ Some hit ∈ default [] payload
    ∧ (None ∉ default [] payload)
    ∧ fle f0_45 (_score_europe_pmc_result (hit_result hit) requested_title
                   last_name) = true
    ∧ or_empty (ep_title (hit_result hit)) ≠ []
    ∧ md_match md
      = {| m_source := lit "europe_pmc";
           m_title := dict_get (ep_title (hit_result hit));
           m_doi := dict_get (hit_doi hit);
           m_score := round3 (_score_europe_pmc_result (hit_result hit)
                                requested_title last_name);
           m_pdf_links := [];
           m_pdf_url := extract_europe_pmc_pdf_url (hit_result hit) |}.
Proof.
  unfold fetch_europe_pmc_match, pick_best_europe_pmc_hit.
  destruct response as [| |payload]; [done|done|].
  destruct (pick_best_nullable _ (default [] payload))
    as [[best s]|] eqn:Hp; [|done].
  apply pick_best_nullable_Some in Hp as [Hnull Hbest].
  destruct best as [hit|]; [|done]. destruct Hbest as (Hin & -> & Hle).
  destruct (hit_nonempty hit); [|done].
  intros [= <-]. exists payload, hit.
  split; [done|]. split; [done|]. split; [done|]. split; [done|].
  split; [|done].
  intros Hblank. eapply fle_flt_false; [exact Hle|].
  apply score_europe_pmc_result_blank. by left.
Qed.

Lemma fetch_europe_pmc_match_None
    (response : upstream (option (list (option europe_pmc_hit))))
    (requested_title last_name : pystr) :
  fetch_europe_pmc_match response requested_title last_name = None
  ↔ response = BadBody
    ∨ ∃ payload, response = Json payload ∧ None ∈ default [] payload.
Proof.
  unfold fetch_europe_pmc_match, pick_best_europe_pmc_hit.
  destruct response as [| |payload].
  - split; [done|]. by intros [?|(? & ? & _)].
  - split; [by left|done].
  - destruct (pick_best_nullable _ (default [] payload))
      as [[best s]|] eqn:Hp.
    + apply pick_best_nullable_Some in Hp as [Hnull _].
      split.
      * destruct best as [hit|]; [|done]. by destruct (hit_nonempty hit).
      * intros [?|(? & [= <-] & ?)]; done.
    + apply pick_best_nullable_None in Hp.
      split; [|done]. intros _. right. by exists payload.
Qed.

Lemma fetch_europe_pmc_match_below
    (payload : option (list (option europe_pmc_hit)))
    (requested_title last_name : pystr) :
  Forall (λ entry, ∃ hit, entry = Some hit
                          ∧ flt (_score_europe_pmc_result (hit_result hit)
                                   requested_title last_name) f0_45 = true)
    (default [] payload) →
  fetch_europe_pmc_match (Json payload) requested_title last_name
  = Some None.
Proof.
  intros Hall. unfold fetch_europe_pmc_match, pick_best_europe_pmc_hit.
  by rewrite (pick_best_nullable_below _ _ Hall).
Qed.

(** X17: [fetch_crossref_match], for a body whose listed entries are
    Crossref works or are not JSON objects at all: it returns no match
    when the request fails and when every listed entry is a work that
    scores below 0.45; it raises when the list holds an entry that is not
    an object, such as a null; a match it returns is built from a listed
    work that scores at least 0.45 and has a title, out of a list of
    objects only: its source is crossref, its title, DOI and PDF links are
    those of the work and its score is the rounded score; when an
    exception escapes, the body is not JSON, or the list holds an entry
    that is not an object, or a listed work that scores at least 0.45 has
    a null author or a PDF link on which [urlparse] raises. *)
Theorem fetch_crossref_match_cases
    (response : upstream (option (list (option crossref_work))))
    (requested_title requested_first_author_last_name : pystr) :
  let score item :=
    _score_crossref_item (work_item item) requested_title
      requested_first_author_last_name in
  let result :=
    fetch_crossref_match response requested_title
      requested_first_author_last_name in
  (response = HTTPError → result = Some None)
  ∧ (∀ payload, response = Json payload →
       None ∈ default [] payload → result = None)
  ∧ (∀ payload, response = Json payload →
       Forall (λ entry, ∃ item, entry = Some item
                                ∧ flt (score item) f0_45 = true)
         (default [] payload) →
       result = Some None)
  ∧ (∀ md, result = Some (Some md) →
       ∃ payload item pdf_links,
         response = Json payload ∧ Some item ∈ default [] payload
         ∧ (None ∉ default [] payload)
         ∧ fle f0_45 (score item) = true
         ∧ crossref_candidate_title (work_item item) ≠ []
         ∧ extract_crossref_pdf_links item = Some pdf_links
         ∧ md_match md
           = {| m_source := lit "crossref";
                m_title := Str (crossref_candidate_title (work_item item));
                m_doi := dict_get (cr_DOI (work_item item));
                m_score := round3 (score item);
                m_pdf_links := pdf_links;
                m_pdf_url := None |})
  ∧ (result = None →
     response = BadBody
     ∨ ∃ payload,
         response = Json payload
         ∧ (None ∈ default [] payload
            ∨ ∃ item,
                Some item ∈ default [] payload
                ∧ fle f0_45 (score item) = true
                ∧ (None ∈ default [] (cr_author (work_item item))
                   ∨ extract_crossref_pdf_links item = None))).
Proof.
  intros score result. subst score result.
  split; [by intros ->|]. split; [|split; [|split]].
  - intros payload -> Hnull. by apply fetch_crossref_match_null.
  - intros payload -> Hall. by apply fetch_crossref_match_below.
  - intros md Hmd. by apply fetch_crossref_match_Some.
  - apply fetch_crossref_match_None.
Qed.

(** X18: [fetch_europe_pmc_match], for a body whose listed entries are
    Europe PMC results or are not JSON objects at all: it returns no match
    when the request fails and when every listed entry is a result that
    scores below 0.45; an exception escapes exactly when the body is not
    JSON or the list holds an entry that is not an object, such as a
    null; a match it returns is built from a listed result that scores at
    least 0.45 and has a title, out of a list of objects only: its source
    is europe_pmc, its title and DOI are those of the result, its score is
    the rounded score and its PDF URL is the one extracted from the
    result. *)
Theorem fetch_europe_pmc_match_cases
    (response : upstream (option (list (option europe_pmc_hit))))
    (requested_title requested_first_author_last_name : pystr) :
  let score result :=
    _score_europe_pmc_result (hit_result result) requested_title
      requested_first_author_last_name in
  let result :=
    fetch_europe_pmc_match response requested_title
      requested_first_author_last_name in
  (response = HTTPError → result = Some None)
  ∧ (result = None
     ↔ response = BadBody
       ∨ ∃ payload, response = Json payload ∧ None ∈ default [] payload)
  ∧ (∀ payload, response = Json payload →
       Forall (λ entry, ∃ hit, entry = Some hit
                               ∧ flt (score hit) f0_45 = true)
         (default [] payload) →
       result = Some None)
  ∧ (∀ md, result = Some (Some md) →
       ∃ payload hit,
         response = Json payload ∧ Some hit ∈ default [] payload
         ∧ (None ∉ default [] payload)
         ∧ fle f0_45 (score hit) = true
         ∧ or_empty (ep_title (hit_result hit)) ≠ []
         ∧ md_match md
           = {| m_source := lit "europe_pmc";
                m_title := dict_get (ep_title (hit_result hit));
                m_doi := dict_get (hit_doi hit);
                m_score := round3 (score hit);
                m_pdf_links := [];
                m_pdf_url :=
                  extract_europe_pmc_pdf_url (hit_result hit) |}).
Proof.
  intros score result. subst score result.
  split; [by intros ->|]. split; [apply fetch_europe_pmc_match_None|].
  split.
  - intros payload -> Hall. by apply fetch_europe_pmc_match_below.
  - intros md Hmd. by apply fetch_europe_pmc_match_Some.
Qed.

Lemma forallb_is_object {A} (l : list (option A)) :
  forallb is_object l = true → ∃ l', l = Some <$> l'.
Proof.
  intros H. destruct (option_list_cases l) as [Hnull|?]; [|done].
  apply list_elem_of_In in Hnull.
  by apply (proj1 (forallb_forall _ _) H) in Hnull.
Qed.

Lemma fetch_crossref_match_blank
    (response : upstream (option (list (option crossref_work))))
    (last_name : pystr) :
  answers_objects response = true →
  fetch_crossref_match response [] last_name = Some None.
Proof.
  destruct response as [| |payload]; [done|done|]. cbn [answers_objects].
  intros [l Hl]%forallb_is_object. apply fetch_crossref_match_below.
  rewrite Hl. apply Forall_forall.
  intros entry (item & -> & _)%list_elem_of_fmap. exists item.
  split; [done|]. apply score_crossref_item_blank. by right.
Qed.

Lemma fetch_europe_pmc_match_blank
    (response : upstream (option (list (option europe_pmc_hit))))
    (last_name : pystr) :
  answers_objects response = true →
  fetch_europe_pmc_match response [] last_name = Some None.
Proof.
  destruct response as [| |payload]; [done|done|]. cbn [answers_objects].
  intros [l Hl]%forallb_is_object. apply fetch_europe_pmc_match_below.
  rewrite Hl. apply Forall_forall.
  intros entry (hit & -> & _)%list_elem_of_fmap. exists hit.
  split; [done|]. apply score_europe_pmc_result_blank. by right.
Qed.

(** X19: [lookup] answers 404 and leaves the cache as it is when the
    requested title is blank and each of the two sources either fails or
    answers a JSON body whose listed entries are all JSON objects, and
    when the requests to both sources fail. *)
Theorem lookup_not_found (env : register_env)
    (crossref_response : upstream (option (list (option crossref_work))))
    (europe_pmc_response : upstream (option (list (option europe_pmc_hit))))
    (unpaywall_response : pystr → upstream unpaywall_payload)
    (unpaywall_email_env title first_author_last_name : pystr)
    (cache : gmap pystr DownloadEntry) :
  (strip is_space title = []
   ∧ answers_objects crossref_response = true
   ∧ answers_objects europe_pmc_response = true)
  ∨ (crossref_response = HTTPError ∧ europe_pmc_response = HTTPError) →
  lookup_requests env crossref_response europe_pmc_response
    unpaywall_response unpaywall_email_env title first_author_last_name
    cache
  = Some (HTTPException 404
            (lit "No likely match found in the currently configured legal-access sources."),
          cache).
Proof.
  intros Hcase. unfold lookup_requests, discover_paper_requests.
  assert (Hfetch :
    fetch_crossref_match crossref_response (strip is_space title)
      (strip is_space first_author_last_name) = Some None
    ∧ fetch_europe_pmc_match europe_pmc_response (strip is_space title)
        (strip is_space first_author_last_name) = Some None).
  { destruct Hcase as [(Hblank & Hc & He)|[-> ->]]; [|done].
    rewrite Hblank. split.
    - by apply fetch_crossref_match_blank.
    - by apply fetch_europe_pmc_match_blank. }
  destruct Hfetch as [-> ->].
  cbn. unfold discover_paper, collect_candidate_urls. cbn.
  done.
Qed.

(** A body that lists a [null] makes [lookup] raise, blank title or
    not. *)
Lemma lookup_requests_null (env : register_env)
    (payload : option (list (option crossref_work)))
    (europe_pmc_response : upstream (option (list (option europe_pmc_hit))))
    (unpaywall_response : pystr → upstream unpaywall_payload)
    (unpaywall_email_env title first_author_last_name : pystr)
    (cache : gmap pystr DownloadEntry) :
  None ∈ default [] payload →
  lookup_requests env (Json payload) europe_pmc_response
    unpaywall_response unpaywall_email_env title first_author_last_name
    cache = None.
Proof.
  intros Hnull. unfold lookup_requests, discover_paper_requests.
  by rewrite (fetch_crossref_match_null _ _ _ Hnull).
Qed.

End FetchFacts.

(** ** Discovery: the order of the candidate URLs and the use of Unpaywall *)

Lemma keep_first_NoDup_id (l : list pystr) : NoDup l → keep_first l = l.
Proof.
  induction 1 as [|x l Hx Hl IH]; simpl; [done|]. rewrite IH. f_equal.
  clear IH Hl. induction l as [|y l IH]; [done|].
  apply not_elem_of_cons in Hx as [Hxy Hx].
  rewrite filter_cons_True by done. f_equal. by apply IH.
Qed.

Section DiscoveryFacts.

Variable unicode_lower : pystr → nat → pystr.
Variable urlparse : pystr → option ParseResult.

Local Abbreviation dedupe_urls := (dedupe_urls urlparse).
Local Abbreviation accepted_urls := (accepted_urls urlparse).
Local Abbreviation reparses := (reparses urlparse).
Local Abbreviation discover_paper := (discover_paper urlparse).
Local Abbreviation lookup := (lookup unicode_lower).

Lemma accepted_urls_reparses (out : list pystr) :
  Forall (λ c, reparses c = true) out → accepted_urls out = Some out.
Proof.
  induction 1 as [|c l Hc Hl IH]; simpl; [done|].
  unfold reparses in Hc. destruct (urlparse c) as [p|]; [|done].
  apply bool_decide_eq_true in Hc. by rewrite IH, Hc.
Qed.

(** X20: [dedupe_urls] is idempotent on the results whose URLs parse
    back to themselves: deduplicating such a result again changes
    nothing. *)
Theorem dedupe_urls_fixed (urls out : list pystr) :
  dedupe_urls urls = Some out →
  Forall (λ c, reparses c = true) out →
  dedupe_urls out = Some out.
Proof.
  intros Hout Hre.
  destruct (proj2 (dedupe_urls_properties urlparse urls) out Hout)
    as (_ & Hnodup & _).
  rewrite dedupe_urls_spec, (accepted_urls_reparses _ Hre). simpl.
  by rewrite (keep_first_NoDup_id _ Hnodup).
Qed.

Lemma dedupe_urls_head (u : pystr) (rest out : list pystr) (p : ParseResult) :
  dedupe_urls (u :: rest) = Some out →
  urlparse u = Some p → http_scheme (scheme p) = true → netloc p ≠ [] →
  ∃ others, out = geturl p :: others.
Proof.
  rewrite dedupe_urls_spec. simpl. intros Hout Hp Hs Hn. rewrite Hp in Hout.
  destruct (accepted_urls rest) as [l|]; [|done].
  assert (Ha : accepted_form p = Some (geturl p)) by (by apply accepted_form_Some).
  rewrite Ha in Hout. simpl in Hout. injection Hout as <-. by eexists.
Qed.

(** X21: the match of a discovery is the arbitrated one; the discovery
    carries the [UNPAYWALL_EMAIL] warning exactly when a DOI is known and
    no e-mail address is configured, and no other warning; without a DOI
    or without an e-mail address the discovery does not depend on
    Unpaywall. *)
Theorem discover_paper_unpaywall_use (crossref_match europe_pmc_match
    : option paper_match) (unpaywall_email : pystr)
    (unpaywall : pystr → option pystr) (d : discovery) :
  discover_paper crossref_match europe_pmc_match unpaywall_email unpaywall
  = Some d →
  let doi :=
    discovery_doi (_pick_primary_match crossref_match europe_pmc_match)
      crossref_match in
  d_match d = _pick_primary_match crossref_match europe_pmc_match
  ∧ (d_warnings d ≠ [] ↔ doi ≠ [] ∧ unpaywall_email = [])
  ∧ (length (d_warnings d) ≤ 1)%nat
  ∧ (doi = [] ∨ unpaywall_email = [] →
     ∀ other : pystr → option pystr,
       discover_paper crossref_match europe_pmc_match unpaywall_email other
       = Some d).
Proof.
  intros Hd doi. unfold discover_paper in *. fold doi in Hd |- *.
  assert (Hcollect : doi = [] ∨ unpaywall_email = [] →
            ∀ other,
              collect_candidate_urls crossref_match europe_pmc_match
                unpaywall_email other
              = collect_candidate_urls crossref_match europe_pmc_match
                  unpaywall_email unpaywall).
  { intros Hor other. unfold collect_candidate_urls. fold doi.
    by destruct Hor as [-> | ->]; rewrite ?andb_false_r. }
  destruct (dedupe_urls (collect_candidate_urls crossref_match
                           europe_pmc_match unpaywall_email unpaywall))
    as [out|] eqn:Hout; [|done].
  injection Hd as <-. cbn [d_match d_warnings].
  split; [done|]. split; [|split].
  - destruct doi as [|c r], unpaywall_email as [|c' r']; cbn; split;
      try done; by intros [? ?].
  - destruct (negb (is_empty doi) && is_empty unpaywall_email); simpl; lia.
  - intros Hor other. by rewrite (Hcollect Hor other), Hout.
Qed.

(** X22: when the Europe PMC match has a PDF URL that [urlparse] reads
    with an http or https scheme and a net location, the canonical form of
    that URL is the first candidate URL, and it is the URL that [lookup]
    registers for download. *)
Theorem europe_pmc_link_first (crossref_match : option paper_match)
    (europe_pmc_match : paper_match) (unpaywall_email : pystr)
    (unpaywall : pystr → option pystr) (d : discovery)
    (pdf_url : pystr) (p : ParseResult) (env : register_env)
    (request_title : pystr) (cache : gmap pystr DownloadEntry) :
  discover_paper crossref_match (Some europe_pmc_match) unpaywall_email
    unpaywall = Some d →
  m_pdf_url europe_pmc_match = Some pdf_url → pdf_url ≠ [] →
  urlparse pdf_url = Some p →
  http_scheme (scheme p) = true → netloc p ≠ [] →
  (∃ others, d_candidate_urls d = geturl p :: others)
  ∧ ∃ entry,
      (lookup env request_title d cache).2 !! env_token env = Some entry
      ∧ url entry = geturl p.
Proof.
  intros Hd Hurl Hne Hp Hs Hn. unfold discover_paper in Hd.
  assert (Hcollect : ∃ rest,
            collect_candidate_urls crossref_match (Some europe_pmc_match)
              unpaywall_email unpaywall = pdf_url :: rest).
  { unfold collect_candidate_urls. rewrite Hurl, (is_empty_false _ Hne).
    destruct crossref_match as [c|];
      repeat match goal with
             | |- context [if ?b then _ else _] => destruct b
             | |- context [match unpaywall ?x with _ => _ end] =>
                 destruct (unpaywall x)
             end; by eexists. }
  destruct Hcollect as [rest Hrest]. rewrite Hrest in Hd.
  destruct (dedupe_urls (pdf_url :: rest)) as [out|] eqn:Hout; [|done].
  destruct (dedupe_urls_head _ _ _ _ Hout Hp Hs Hn) as [others ->].
  injection Hd as <-. split; [by exists others|].
  unfold lookup, _register_download. cbn [d_match d_candidate_urls].
  destruct (_pick_primary_match crossref_match (Some europe_pmc_match));
    cbn [snd]; (eexists; split; [apply lookup_insert_eq|done]).
Qed.

End DiscoveryFacts.

(** ** More on full-text extraction for Europe PMC *)

Section FullTextMore.

Variable unicode_lower : pystr → nat → pystr.

Local Abbreviation entry_is_pdf := (entry_is_pdf unicode_lower).
Local Abbreviation first_pdf_entry := (first_pdf_entry unicode_lower).
Local Abbreviation extract_europe_pmc_pdf_url :=
  (extract_europe_pmc_pdf_url unicode_lower).

Lemma first_pdf_entry_None_iff (entries : list (option full_text_url)) :
  first_pdf_entry entries = None
  ↔ Forall (λ e, entry_is_pdf e = false) entries.
Proof.
  induction entries as [|e l IH]; simpl.
  - split; [constructor|done].
  - rewrite Forall_cons. destruct (entry_is_pdf e).
    + split; [done|]. by intros [? _].
    + rewrite IH. tauto.
Qed.

Lemma first_pdf_entry_Some (entries : list (option full_text_url))
    (u : pystr) :
  first_pdf_entry entries = Some u →
  u ≠ [] ∧ ∃ e, e ∈ entries ∧ entry_is_pdf e = true ∧ u = entry_url e.
Proof.
  induction entries as [|e l IH]; simpl; [done|].
  destruct (entry_is_pdf e) eqn:E.
  - intros [= <-]. split.
    + unfold entry_is_pdf in E.
      apply andb_true_iff in E as [E _]. by destruct (entry_url e).
    + exists e. split; [by apply elem_of_cons; left|done].
  - intros (Hu & e' & Hin & He & ->)%IH. split; [done|].
    exists e'. split; [by apply elem_of_cons; right|done].
Qed.

(** X23: [extract_europe_pmc_pdf_url] returns nothing exactly when no
    full-text entry qualifies and the pmcid is blank; a URL it returns is
    never empty, and it is the URL of a qualifying entry or the viewer URL
    of the trimmed pmcid. *)
Theorem extract_europe_pmc_pdf_url_total (result : europe_pmc_result) :
  (extract_europe_pmc_pdf_url result = None
   ↔ Forall (λ e, entry_is_pdf e = false)
       (default [] (ep_fullTextUrl result))
     ∧ strip is_space (or_empty (ep_pmcid result)) = [])
  ∧ ∀ u, extract_europe_pmc_pdf_url result = Some u →
      u ≠ []
      ∧ ((∃ e, e ∈ default [] (ep_fullTextUrl result)
               ∧ entry_is_pdf e = true ∧ u = entry_url e)
         ∨ u = viewer_url (strip is_space (or_empty (ep_pmcid result)))).
Proof.
  unfold extract_europe_pmc_pdf_url.
  destruct (first_pdf_entry (default [] (ep_fullTextUrl result)))
    as [v|] eqn:Hf.
  - pose proof (first_pdf_entry_Some _ _ Hf) as (Hv & e & Hin & He & ->).
    split.
    + split; [done|]. intros [Hall _].
      apply first_pdf_entry_None_iff in Hall. congruence.
    + intros u [= <-]. split; [done|]. left. by exists e.
  - apply first_pdf_entry_None_iff in Hf.
    destruct (strip is_space (or_empty (ep_pmcid result))) as [|c r];
      cbn [is_empty].
    + split; [done|]. done.
    + split; [split; [done|by intros [_ ?]]|].
      intros u [= <-]. split; [done|]. by right.
Qed.

End FullTextMore.

(** ** When the lookup answers *)

Section AnswerFacts.

Variable unicode_lower : pystr → nat → pystr.
Variable urlparse : pystr → option ParseResult.
Variable round3 : float → float.

Local Abbreviation dedupe_urls := (dedupe_urls urlparse).
Local Abbreviation discover_paper := (discover_paper urlparse).
Local Abbreviation extract_crossref_pdf_links :=
  (extract_crossref_pdf_links unicode_lower urlparse).
Local Abbreviation fetch_crossref_match :=
  (fetch_crossref_match unicode_lower urlparse round3).
Local Abbreviation fetch_europe_pmc_match :=
  (fetch_europe_pmc_match unicode_lower round3).
Local Abbreviation discover_paper_requests :=
  (discover_paper_requests unicode_lower urlparse round3).
Local Abbreviation lookup_requests :=
  (lookup_requests unicode_lower urlparse round3).
Local Abbreviation lookup := (lookup unicode_lower).
Local Abbreviation parses := (parses urlparse).
Local Abbreviation parses_twice := (parses_twice urlparse).

Lemma parses_true (u : pystr) : parses u = true ↔ urlparse u ≠ None.
Proof. unfold parses. by destruct (urlparse u). Qed.

Lemma forallb_elem_of {A} (f : A → bool) (l : list A) (x : A) :
  forallb f l = true → x ∈ l → f x = true.
Proof.
  intros H Hin. apply list_elem_of_In in Hin.
  by apply (proj1 (forallb_forall f l) H).
Qed.

(** [dedupe_urls] returns when [urlparse] accepts every URL of the list. *)
Lemma dedupe_urls_parses (urls : list pystr) :
  (∀ u, u ∈ urls → parses u = true) → dedupe_urls urls ≠ None.
Proof.
  intros Hall H.
  apply (proj1 (dedupe_urls_properties urlparse urls)) in H.
  apply Exists_exists in H as (u & Hin & Hu).
  by apply (proj1 (parses_true u) (Hall u Hin)).
Qed.

(** The links that [dedupe_urls] returns parse again when the canonical
    form of every input does. *)
Lemma dedupe_urls_out_parses (urls out : list pystr) (c : pystr) :
  (∀ u, u ∈ urls → parses_twice u = true) →
  dedupe_urls urls = Some out → c ∈ out → parses c = true.
Proof.
  intros Hall Hout Hc.
  apply (proj2 (dedupe_urls_properties urlparse urls)) in Hout as [Hform _].
  apply (proj1 (Forall_forall _ _) Hform) in Hc
    as (u & p & Hin & Hp & _ & _ & ->).
  specialize (Hall u Hin). unfold parses_twice in Hall.
  by rewrite Hp in Hall.
Qed.

Lemma parses_twice_parses (u : pystr) :
  parses_twice u = true → parses u = true.
Proof.
  unfold parses_twice, parses. by destruct (urlparse u).
Qed.

Lemma fetch_crossref_match_usable
    (response : upstream (option (list (option crossref_work))))
    (requested_title last_name : pystr) :
  crossref_answer_usable unicode_lower urlparse response = true →
  ∃ crossref,
    fetch_crossref_match response requested_title last_name = Some crossref
    ∧ ∀ m u, md_match <$> crossref = Some m → u ∈ m_pdf_links m →
             parses u = true.
Proof.
  intros Husable.
  destruct (fetch_crossref_match response requested_title last_name)
    as [crossref|] eqn:Hfetch.
  - exists crossref. split; [done|]. intros m u Hm Hu.
    destruct crossref as [md|]; [|done]. injection Hm as <-.
    apply fetch_crossref_match_Some in Hfetch
      as (payload & item & pdf_links & -> & Hin & _ & _ & _ & Hlinks & Hmd).
    rewrite Hmd in Hu. cbn in Hu, Husable.
    pose proof (forallb_elem_of _ _ _ Husable Hin) as Hitem.
    cbn in Hitem. apply andb_true_iff in Hitem as [_ Hurls].
    eapply dedupe_urls_out_parses; [|exact Hlinks|exact Hu].
    intros u' Hu'. exact (forallb_elem_of _ _ _ Hurls Hu').
  - exfalso.
    apply fetch_crossref_match_None in Hfetch
      as [->|(payload & -> & [Hnull|(item & Hin & _ & Hbad)])];
      [done|..]; cbn in Husable.
    + by pose proof (forallb_elem_of _ _ _ Husable Hnull).
    + pose proof (forallb_elem_of _ _ _ Husable Hin) as Hitem.
      cbn in Hitem. apply andb_true_iff in Hitem as [Hauthors Hurls].
      destruct Hbad as [Hnull|Hlinks].
      * by pose proof (forallb_elem_of _ _ _ Hauthors Hnull).
      * revert Hlinks. apply dedupe_urls_parses.
        intros u Hu. apply parses_twice_parses.
        exact (forallb_elem_of _ _ _ Hurls Hu).
Qed.

Lemma fetch_europe_pmc_match_usable
    (response : upstream (option (list (option europe_pmc_hit))))
    (requested_title last_name : pystr) :
  europe_pmc_answer_usable unicode_lower urlparse response = true →
  ∃ europe_pmc,
    fetch_europe_pmc_match response requested_title last_name
    = Some europe_pmc
    ∧ ∀ m u, md_match <$> europe_pmc = Some m → m_pdf_url m = Some u →
             parses u = true.
Proof.
  intros Husable.
  destruct (fetch_europe_pmc_match response requested_title last_name)
    as [europe_pmc|] eqn:Hfetch.
  - exists europe_pmc. split; [done|]. intros m u Hm Hu.
    destruct europe_pmc as [md|]; [|done]. injection Hm as <-.
    apply fetch_europe_pmc_match_Some in Hfetch
      as (payload & hit & -> & Hin & _ & _ & _ & Hmd).
    rewrite Hmd in Hu. cbn in Hu, Husable.
    pose proof (forallb_elem_of _ _ _ Husable Hin) as Hhit.
    cbn in Hhit. by rewrite Hu in Hhit.
  - exfalso.
    apply fetch_europe_pmc_match_None in Hfetch
      as [->|(payload & -> & Hnull)]; [done|]. cbn in Husable.
    by pose proof (forallb_elem_of _ _ _ Husable Hnull).
Qed.

Lemma fetch_unpaywall_pdf_url_usable (response : upstream unpaywall_payload)
    (doi unpaywall_email : pystr) :
  unpaywall_answer_usable urlparse response = true →
  ∃ unpaywall_url,
    fetch_unpaywall_pdf_url response doi unpaywall_email = Some unpaywall_url
    ∧ ∀ u, unpaywall_url = Some u → parses u = true.
Proof.
  intros Husable. unfold fetch_unpaywall_pdf_url.
  destruct (is_empty doi || is_empty unpaywall_email);
    [by exists None|].
  destruct response as [| |payload]; [by exists None|done|].
  cbn in Husable. apply andb_true_iff in Husable as [Hbest Hrest].
  destruct (negb (is_empty (location_url (best_oa_location payload)))).
  - eexists. split; [done|]. by intros u [= <-].
  - eexists. split; [done|]. intros u Hu.
    apply first_location_url_Some in Hu as (_ & location & Hin & ->).
    exact (forallb_elem_of _ _ _ Hrest Hin).
Qed.

Lemma collect_candidate_urls_elem_of
    (crossref_match europe_pmc_match : option paper_match)
    (unpaywall_email : pystr) (unpaywall_url : option pystr) (u : pystr) :
  u ∈ collect_candidate_urls crossref_match europe_pmc_match unpaywall_email
        (λ _, unpaywall_url) →
  (∃ m, europe_pmc_match = Some m ∧ m_pdf_url m = Some u)
  ∨ (∃ m, crossref_match = Some m ∧ u ∈ m_pdf_links m)
  ∨ unpaywall_url = Some u.
Proof.
  unfold collect_candidate_urls.
  set (first := match europe_pmc_match with Some _ => _ | None => _ end).
  set (second := match crossref_match with Some _ => _ | None => _ end).
  assert (Hfirst : u ∈ first →
                   ∃ m, europe_pmc_match = Some m ∧ m_pdf_url m = Some u).
  { subst first. destruct europe_pmc_match as [e|]; [|by intros ?%elem_of_nil].
    destruct (m_pdf_url e) as [v|] eqn:Hv; [|by intros ?%elem_of_nil].
    destruct (is_empty v); [by intros ?%elem_of_nil|].
    intros H. apply list_elem_of_singleton in H as ->. by exists e. }
  assert (Hsecond : u ∈ second →
                    (∃ m, europe_pmc_match = Some m ∧ m_pdf_url m = Some u)
                    ∨ (∃ m, crossref_match = Some m ∧ u ∈ m_pdf_links m)).
  { subst second. destruct crossref_match as [c|]; [|by left; auto].
    intros [?|?]%elem_of_app; [left; auto|right; by exists c]. }
  destruct (_ && _); [|intros H; destruct (Hsecond H); auto].
  destruct unpaywall_url as [v|]; [|intros H; destruct (Hsecond H); auto].
  destruct (is_empty v); [intros H; destruct (Hsecond H); auto|].
  intros [H|H]%elem_of_app.
  - destruct (Hsecond H); auto.
  - apply list_elem_of_singleton in H as ->. auto.
Qed.

Lemma lookup_status_200_404 (env : register_env) (request_title : pystr)
    (result : discovery) (cache : gmap pystr DownloadEntry) :
  status_of (lookup env request_title result cache).1 = 200
  ∨ status_of (lookup env request_title result cache).1 = 404.
Proof.
  unfold lookup.
  destruct (d_match result), (d_candidate_urls result); simpl; auto.
Qed.

(** X24: [lookup] answers, with status 200 or 404, whenever the answers
    of the three sources are usable: every request fails or yields a JSON
    body, the listed works and results are JSON objects, no author of a
    work is null, and [urlparse] raises on none of the URLs that reach it
    (the PDF links of the works and their canonical forms, the PDF URLs
    extracted from the results, the URLs of the Unpaywall locations). *)
Theorem lookup_requests_answers (env : register_env)
    (crossref_response : upstream (option (list (option crossref_work))))
    (europe_pmc_response : upstream (option (list (option europe_pmc_hit))))
    (unpaywall_response : pystr → upstream unpaywall_payload)
    (unpaywall_email_env title first_author_last_name : pystr)
    (cache : gmap pystr DownloadEntry) :
  crossref_answer_usable unicode_lower urlparse crossref_response = true →
  europe_pmc_answer_usable unicode_lower urlparse europe_pmc_response
  = true →
  (∀ doi, unpaywall_answer_usable urlparse (unpaywall_response doi)
          = true) →
  ∃ response cache',
    lookup_requests env crossref_response europe_pmc_response
      unpaywall_response unpaywall_email_env title first_author_last_name
      cache = Some (response, cache')
    ∧ (status_of response = 200 ∨ status_of response = 404).
Proof.
  intros Hc He Hu. unfold lookup_requests, discover_paper_requests.
  destruct (fetch_crossref_match_usable crossref_response
              (strip is_space title)
              (strip is_space first_author_last_name) Hc)
    as (crossref & -> & Hlinks).
  destruct (fetch_europe_pmc_match_usable europe_pmc_response
              (strip is_space title)
              (strip is_space first_author_last_name) He)
    as (europe_pmc & -> & Hurl).
  set (doi := discovery_doi _ _).
  assert (Hunpaywall :
    ∃ unpaywall_url,
      (if negb (is_empty doi)
          && negb (is_empty (strip is_space unpaywall_email_env))
       then fetch_unpaywall_pdf_url (unpaywall_response doi) doi
              (strip is_space unpaywall_email_env)
       else Some None) = Some unpaywall_url
      ∧ ∀ u, unpaywall_url = Some u → parses u = true).
  { destruct (_ && _); [|by exists None].
    by apply fetch_unpaywall_pdf_url_usable. }
  destruct Hunpaywall as (unpaywall_url & -> & Hdirect).
  unfold discover_paper.
  destruct (dedupe_urls _) as [urls|] eqn:Hd.
  - match goal with
    | |- context [lookup env title ?d cache] =>
        pose proof (lookup_status_200_404 env title d cache) as Hstatus;
        destruct (lookup env title d cache) as [response cache']
    end.
    by exists response, cache'.
  - exfalso. revert Hd. apply dedupe_urls_parses.
    intros u [(m & Hm & Hu')|[(m & Hm & Hu')|Hu']]%collect_candidate_urls_elem_of.
    + by apply (Hurl m u).
    + by apply (Hlinks m u).
    + by apply Hdirect.
Qed.

End AnswerFacts.

(** ** Instances of the statements above *)

Lemma sanitize_filename_idempotent_witness :
  (length (filename_before_cut plain_lower (lit "CRISPR screens: a review"))
   ≤ 140)%nat
  ∧ _sanitize_filename plain_lower
      (_sanitize_filename plain_lower (lit "CRISPR screens: a review"))
    = _sanitize_filename plain_lower (lit "CRISPR screens: a review").
Proof.
  split; [vm_compute; lia|].
  apply (sanitize_filename_idempotent plain_lower
           (lit "CRISPR screens: a review")).
  vm_compute. lia.
Defined.

Lemma filename_from_content_disposition_cases_witness :
  _filename_from_content_disposition plain_lower (Some (lit "inline")) = None
  ∧ _filename_from_content_disposition plain_lower
      (Some (content_disposition_of (lit " paper one.pdf ")))
    = Some (lit "paper_one.pdf")
  ∧ lit "paper_one.pdf" ≠ [].
Proof.
  split; [|split].
  - apply (proj1 (proj2 (proj2 (filename_from_content_disposition_cases
                                  plain_lower)))).
    vm_compute. reflexivity.
  - vm_compute. reflexivity.
  - apply (proj1 (proj2 (proj2 (proj2 (filename_from_content_disposition_cases
                                         plain_lower)))
                    (content_disposition_of (lit " paper one.pdf "))
                    (lit "paper_one.pdf") eq_refl)).
Defined.

Lemma content_disposition_round_trip_witness :
  _filename_from_content_disposition plain_lower
    (Some (content_disposition_of
             (_sanitize_filename plain_lower
                (lit "CRISPR screens: a review"))))
  = Some (lit "CRISPR_screens_a_review.pdf").
Proof.
  apply (content_disposition_round_trip plain_lower
           (lit "CRISPR screens: a review")).
  vm_compute. lia.
Defined.

Lemma prune_download_cache_keeps_live_witness :
  let entry := {| url := lit "https://example.org/a.pdf";
                  filename := lit "a.pdf";
                  created_at := float_of_Z 1700000000 |} in
  _prune_download_cache (float_of_Z 1700000000)
    (<[lit "t1" := entry]> ∅) !! lit "t1" = Some entry.
Proof.
  intros entry.
  apply (proj2 (proj2 (proj2 (prune_download_cache_keeps_live
                                (float_of_Z 1700000000)
                                (<[lit "t1" := entry]> ∅))))
           (lit "t1") entry).
  - apply lookup_insert_eq.
  - reflexivity.
Defined.

Lemma download_status_cases_witness :
  download_status
    (download plain_lower (float_of_Z 1700000060) (env_token sample_env)
       sample_fetch ∅).1 = 404
  ∧ ∃ entry exc,
      (lookup plain_lower sample_env test_title discovery_with_url ∅).2
        !! env_token sample_env = Some entry
      ∧ live (float_of_Z 1700000060) entry
      ∧ failing_fetch (url entry) = FetchFailed exc.
Proof.
  split.
  - apply (proj2 (proj1 (proj2 (download_status_cases plain_lower
                                  (float_of_Z 1700000060)
                                  (env_token sample_env) sample_fetch ∅)))).
    intros entry H. rewrite lookup_empty in H. discriminate H.
  - apply (proj1 (proj1 (proj2 (proj2 (download_status_cases plain_lower
                                         (float_of_Z 1700000060)
                                         (env_token sample_env) failing_fetch
                                         (lookup plain_lower sample_env
                                            test_title discovery_with_url
                                            ∅).2))))).
    vm_compute. reflexivity.
Defined.

Lemma registered_token_download_witness :
  let registered :=
    _register_download plain_lower sample_env
      (lit "https://example.org/a.pdf") (lit "Gene therapy") ∅ in
  (download plain_lower (float_of_Z 1700000060) registered.1 sample_fetch
     registered.2).1
  = DownloadResponse (lit "%PDF") (lit "application/pdf")
      (content_disposition_of (lit "Gene_therapy.pdf"))
  ∧ download_status
      (download plain_lower (float_of_Z 1700001801) registered.1
         sample_fetch registered.2).1 = 404.
Proof.
  intros registered. split.
  - apply (proj1 (proj2 (registered_token_download plain_lower sample_env
                           (lit "https://example.org/a.pdf")
                           (lit "Gene therapy") ∅
                           (float_of_Z 1700000060) sample_fetch))).
    vm_compute. reflexivity.
  - apply (proj2 (proj2 (registered_token_download plain_lower sample_env
                           (lit "https://example.org/a.pdf")
                           (lit "Gene therapy") ∅
                           (float_of_Z 1700001801) sample_fetch))).
    vm_compute. reflexivity.
Defined.

Lemma download_header_safe_witness :
  ∃ name, content_disposition_of (lit "Gene_therapy.pdf")
          = content_disposition_of name
          ∧ safe_filename name.
Proof.
  destruct (download_header_safe plain_lower
              (lookup plain_lower sample_env test_title discovery_with_url
                 ∅).2
              (float_of_Z 1700000060) (env_token sample_env) sample_fetch
              (lit "%PDF") (lit "application/pdf")
              (content_disposition_of (lit "Gene_therapy.pdf")))
    as [(name & Hname & Hsafe & _) _].
  - apply reachable_lookup, reachable_initial.
  - vm_compute. reflexivity.
  - exists name. split; [exact Hname|exact Hsafe].
Defined.

Lemma extract_crossref_pdf_links_cases_witness :
  extract_crossref_pdf_links plain_lower urlparse_ascii sample_work
  = Some [lit "https://example.org/file.pdf";
          lit "https://example.org/dup.pdf"]
  ∧ NoDup [lit "https://example.org/file.pdf";
           lit "https://example.org/dup.pdf"].
Proof.
  assert (Hout : extract_crossref_pdf_links plain_lower urlparse_ascii
                   sample_work
                 = Some [lit "https://example.org/file.pdf";
                         lit "https://example.org/dup.pdf"])
    by (vm_compute; reflexivity).
  split; [exact Hout|].
  exact (proj1 (proj2 (extract_crossref_pdf_links_cases urlparse_ascii
                         plain_lower sample_work) _ Hout)).
Defined.

Lemma format_crossref_authors_cases_witness :
  _format_crossref_authors crossref_null_author = None
  ∧ Forall (λ n, n ≠ [] ∧ strip is_space n = n) [lit "J van der Berg"].
Proof.
  split.
  - apply (proj2 (proj1 (format_crossref_authors_cases
                           crossref_null_author))).
    vm_compute. apply elem_of_cons. right. apply elem_of_cons. by left.
  - apply (proj1 (proj2 (proj2 (format_crossref_authors_cases
                                  crossref_long_surname)
                           [lit "J van der Berg"]
                           (Some (lit "van der Berg")) eq_refl))).
Defined.

Lemma format_crossref_authors_first_witness :
  lit "van der Berg" ≠ []
  ∧ ∃ name others, [lit "J van der Berg"] = name :: others
                   ∧ endswith name (lit "van der Berg") = true.
Proof.
  pose proof (format_crossref_authors_first crossref_long_surname
                [lit "J van der Berg"] (Some (lit "van der Berg")) eq_refl)
    as (Hne & _ & _ & Hname).
  split; [exact Hne|exact Hname].
Defined.

Lemma fetch_unpaywall_pdf_url_cases_witness :
  fetch_unpaywall_pdf_url (Json sample_payload) [] (lit "me@example.org")
  = Some None
  ∧ fetch_unpaywall_pdf_url (Json sample_payload) (lit "10.1000/match")
      (lit "me@example.org")
    = Some (Some (lit "https://example.org/landing"))
  ∧ fetch_unpaywall_pdf_url (Json payload_without_url)
      (lit "10.1000/match") (lit "me@example.org")
    = Some None.
Proof.
  split; [|split].
  - apply (proj1 (fetch_unpaywall_pdf_url_cases (Json sample_payload) []
                    (lit "me@example.org"))).
    by left.
  - apply (proj1 (proj2 (proj2 (proj2 (proj2
             (fetch_unpaywall_pdf_url_cases (Json sample_payload)
                (lit "10.1000/match") (lit "me@example.org")))))
             sample_payload eq_refl ltac:(discriminate)
             ltac:(discriminate))).
    discriminate.
  - apply (proj2 (proj2 (proj2 (proj2 (proj2
             (fetch_unpaywall_pdf_url_cases (Json payload_without_url)
                (lit "10.1000/match") (lit "me@example.org")))))
             payload_without_url eq_refl ltac:(discriminate)
             ltac:(discriminate))).
    repeat constructor.
Defined.

Lemma title_similarity_same_normal_form_witness :
  title_similarity plain_lower (lit "CRISPR-Cas9: a  review!")
    (lit "crispr cas9 a review") = f1_0
  ∧ title_similarity plain_lower (lit "?!") (lit "...") = f1_0.
Proof.
  split.
  - apply title_similarity_same_normal_form;
      [discriminate|discriminate|vm_compute; reflexivity
      |vm_compute; reflexivity].
  - apply title_similarity_same_normal_form;
      [discriminate|discriminate|vm_compute; reflexivity
      |vm_compute; reflexivity].
Defined.

Lemma title_similarity_one_blank_witness :
  title_similarity plain_lower (lit "?!") (lit "Gene therapy") = f0_0.
Proof.
  apply title_similarity_one_blank.
  - left. split; [vm_compute; reflexivity|vm_compute; discriminate].
  - vm_compute. reflexivity.
  - vm_compute. reflexivity.
Defined.

Lemma selected_record_has_title_witness :
  test_crossref_match ∈ [test_crossref_mismatch; test_crossref_match]
  ∧ crossref_candidate_title test_crossref_match ≠ [].
Proof.
  pose proof (proj1 (selected_record_has_title plain_lower test_title
                       test_last_name)
                [test_crossref_mismatch; test_crossref_match]
                test_crossref_match
                (_score_crossref_item plain_lower test_crossref_match
                   test_title test_last_name)
                ltac:(vm_compute; reflexivity))
    as (Hin & _ & _ & Htitle & _).
  split; [exact Hin|exact Htitle].
Defined.

Lemma fetch_crossref_match_cases_witness :
  fetch_crossref_match plain_lower urlparse_ascii same_score
    (Json (Some [Some sample_work_mismatch])) test_title test_last_name
  = Some None
  ∧ fetch_crossref_match plain_lower urlparse_ascii same_score
      (Json (Some [Some sample_work; None])) test_title test_last_name
    = None
  ∧ ∃ md,
      fetch_crossref_match plain_lower urlparse_ascii same_score
        (Json (Some [Some sample_work_mismatch; Some sample_work]))
        test_title test_last_name = Some (Some md)
      ∧ m_source (md_match md) = lit "crossref"
      ∧ m_pdf_url (md_match md) = None.
Proof.
  split; [|split].
  - apply (proj1 (proj2 (proj2 (fetch_crossref_match_cases plain_lower
                                  urlparse_ascii same_score
                                  (Json (Some [Some sample_work_mismatch]))
                                  test_title test_last_name)))
             (Some [Some sample_work_mismatch]) eq_refl).
    constructor; [|constructor].
    exists sample_work_mismatch. split; reflexivity.
  - apply (proj1 (proj2 (fetch_crossref_match_cases plain_lower
                           urlparse_ascii same_score
                           (Json (Some [Some sample_work; None]))
                           test_title test_last_name))
             (Some [Some sample_work; None]) eq_refl).
    apply elem_of_cons. right. apply elem_of_cons. left. reflexivity.
  - destruct (fetch_crossref_match plain_lower urlparse_ascii same_score
                (Json (Some [Some sample_work_mismatch; Some sample_work]))
                test_title test_last_name) as [[md|]|] eqn:Hfetch;
      [|vm_compute in Hfetch; discriminate Hfetch
       |vm_compute in Hfetch; discriminate Hfetch].
    exists md. split; [reflexivity|].
    destruct (proj1 (proj2 (proj2 (proj2
                (fetch_crossref_match_cases plain_lower urlparse_ascii
                   same_score
                   (Json (Some [Some sample_work_mismatch;
                                Some sample_work]))
                   test_title test_last_name))))
                md Hfetch)
      as (payload & item & pdf_links & _ & _ & _ & _ & _ & _ & Hmatch).
    rewrite Hmatch. split; reflexivity.
Defined.

Lemma fetch_europe_pmc_match_cases_witness :
  fetch_europe_pmc_match plain_lower same_score HTTPError test_title
    test_last_name = Some None
  ∧ fetch_europe_pmc_match plain_lower same_score
      (Json (Some [None])) test_title test_last_name = None
  ∧ ∃ md,
      fetch_europe_pmc_match plain_lower same_score
        (Json (Some [Some sample_hit])) test_title test_last_name
      = Some (Some md)
      ∧ m_source (md_match md) = lit "europe_pmc"
      ∧ m_pdf_links (md_match md) = [].
Proof.
  split; [|split].
  - apply (proj1 (fetch_europe_pmc_match_cases plain_lower same_score
                    HTTPError test_title test_last_name)).
    reflexivity.
  - apply (proj2 (proj1 (proj2 (fetch_europe_pmc_match_cases plain_lower
                                  same_score (Json (Some [None]))
                                  test_title test_last_name)))).
    right. exists (Some [None]). split; [reflexivity|].
    apply elem_of_cons. left. reflexivity.
  - destruct (fetch_europe_pmc_match plain_lower same_score
                (Json (Some [Some sample_hit])) test_title test_last_name)
      as [[md|]|] eqn:Hfetch;
      [|vm_compute in Hfetch; discriminate Hfetch
       |vm_compute in Hfetch; discriminate Hfetch].
    exists md. split; [reflexivity|].
    destruct (proj2 (proj2 (proj2 (fetch_europe_pmc_match_cases plain_lower
                                     same_score
                                     (Json (Some [Some sample_hit]))
                                     test_title test_last_name)))
                md Hfetch)
      as (payload & hit & _ & _ & _ & _ & _ & Hmatch).
    rewrite Hmatch. split; reflexivity.
Defined.

Lemma lookup_not_found_witness :
  LookupRequest_valid (lit "     ") (lit "Miller") = true
  ∧ lookup_requests plain_lower urlparse_ascii same_score sample_env
      (Json (Some [Some sample_work])) (Json (Some [Some sample_hit]))
      (λ _, Json sample_payload) (lit "me@example.org")
      (lit "     ") (lit "Miller") ∅
    = Some (HTTPException 404
              (lit "No likely match found in the currently configured legal-access sources."),
            ∅).
Proof.
  split; [reflexivity|].
  apply (lookup_not_found plain_lower urlparse_ascii same_score sample_env
           (Json (Some [Some sample_work])) (Json (Some [Some sample_hit]))
           (λ _, Json sample_payload) (lit "me@example.org")
           (lit "     ") (lit "Miller") ∅).
  left. split; [reflexivity|]. split; reflexivity.
Defined.

Lemma dedupe_urls_fixed_witness :
  dedupe_urls urlparse_ascii
    [lit "https://example.org/a.pdf"; lit "http://example.org/b.pdf"]
  = Some [lit "https://example.org/a.pdf"; lit "http://example.org/b.pdf"].
Proof.
  apply (dedupe_urls_fixed urlparse_ascii test_urls).
  - vm_compute. reflexivity.
  - repeat constructor.
Defined.

Lemma discover_paper_unpaywall_use_witness :
  ∃ d, discover_paper urlparse_ascii (Some sample_crossref_match)
         (Some sample_europe_pmc_match) [] (λ _, None) = Some d
       ∧ d_match d = Some sample_europe_pmc_match
       ∧ d_warnings d ≠ [].
Proof.
  destruct (discover_paper urlparse_ascii (Some sample_crossref_match)
              (Some sample_europe_pmc_match) [] (λ _, None))
    as [d|] eqn:Hd; [|vm_compute in Hd; discriminate Hd].
  exists d. split; [reflexivity|].
  destruct (discover_paper_unpaywall_use urlparse_ascii
              (Some sample_crossref_match) (Some sample_europe_pmc_match)
              [] (λ _, None) d Hd) as (Hmatch & Hwarn & _).
  split; [exact Hmatch|].
  apply (proj2 Hwarn). split; [discriminate|reflexivity].
Defined.

Lemma europe_pmc_link_first_witness :
  ∃ d, discover_paper urlparse_ascii (Some sample_crossref_match)
         (Some sample_europe_pmc_match) [] (λ _, None) = Some d
       ∧ ∃ others,
           d_candidate_urls d = lit "https://example.org/b.pdf" :: others.
Proof.
  destruct (discover_paper urlparse_ascii (Some sample_crossref_match)
              (Some sample_europe_pmc_match) [] (λ _, None))
    as [d|] eqn:Hd; [|vm_compute in Hd; discriminate Hd].
  exists d. split; [reflexivity|].
  destruct (urlparse_ascii (lit "https://example.org/b.pdf")) as [p|] eqn:Hp;
    [|vm_compute in Hp; discriminate Hp].
  assert (Hg : geturl p = lit "https://example.org/b.pdf").
  { vm_compute in Hp. injection Hp as <-. vm_compute. reflexivity. }
  rewrite <- Hg.
  apply (europe_pmc_link_first plain_lower urlparse_ascii
           (Some sample_crossref_match) sample_europe_pmc_match []
           (λ _, None) d (lit "https://example.org/b.pdf") p sample_env
           test_title ∅ Hd eq_refl).
  - discriminate.
  - exact Hp.
  - vm_compute in Hp. injection Hp as <-. reflexivity.
  - vm_compute in Hp. injection Hp as <-. discriminate.
Defined.

Lemma extract_europe_pmc_pdf_url_total_witness :
  extract_europe_pmc_pdf_url plain_lower europe_pmc_result_blank_pmcid = None
  ∧ lit "https://example.org/paper.pdf" ≠ [].
Proof.
  split.
  - apply (proj2 (proj1 (extract_europe_pmc_pdf_url_total plain_lower
                           europe_pmc_result_blank_pmcid))).
    split; [constructor|reflexivity].
  - apply (proj2 (extract_europe_pmc_pdf_url_total plain_lower
                    test_europe_pmc_result)
             (lit "https://example.org/paper.pdf")).
    vm_compute. reflexivity.
Defined.

(** ** The tests of the repository on the added code, and other values *)

(** [test_extract_crossref_pdf_links_filters_non_pdf_links]. *)
Example extract_crossref_pdf_links_test :
  extract_crossref_pdf_links plain_lower urlparse_ascii sample_work
  = Some [lit "https://example.org/file.pdf";
          lit "https://example.org/dup.pdf"].
Proof. vm_compute. reflexivity. Qed.

Example extract_year_crossref_values :
  _extract_year_crossref sample_work = Some (lit "2021")
  ∧ _extract_year_crossref sample_work_mismatch = None.
Proof. split; vm_compute; reflexivity. Qed.

Example format_crossref_authors_values :
  _format_crossref_authors crossref_long_surname
  = Some ([lit "J van der Berg"], Some (lit "van der Berg"))
  ∧ _format_crossref_authors crossref_second_author
    = Some ([lit "Wrong"; lit "Ann Miller"], Some (lit "Wrong"))
  ∧ _format_crossref_authors crossref_null_author = None.
Proof. repeat split; vm_compute; reflexivity. Qed.

Example media_type_of_values :
  media_type_of None = lit "application/octet-stream"
  ∧ media_type_of (Some (lit "application/pdf; charset=binary"))
    = lit "application/pdf"
  ∧ media_type_of (Some (lit " ; q=1")) = lit "application/octet-stream".
Proof. repeat split; vm_compute; reflexivity. Qed.

(** A name that the cut at 140 characters leaves with a final underscore
    is not a fixed point of [_sanitize_filename]. *)
Example sanitize_filename_cut_not_fixed :
  let name := _sanitize_filename plain_lower
                (replicate 139 97 ++ lit " b") in
  _sanitize_filename plain_lower name ≠ name.
Proof. vm_compute. discriminate. Qed.

Lemma lookup_requests_answers_witness :
  ∃ response cache',
    lookup_requests plain_lower urlparse_ascii same_score sample_env
      (Json (Some [Some sample_work_mismatch; Some sample_work]))
      (Json (Some [Some sample_hit])) (λ _, Json sample_payload)
      (lit " me@example.org ") test_title test_last_name ∅
    = Some (response, cache')
    ∧ (status_of response = 200 ∨ status_of response = 404).
Proof.
  apply (lookup_requests_answers plain_lower urlparse_ascii same_score).
  - vm_compute. reflexivity.
  - vm_compute. reflexivity.
  - intros doi. vm_compute. reflexivity.
Defined.

Example lookup_requests_value :
  status_of <$> (fst <$>
    lookup_requests plain_lower urlparse_ascii same_score sample_env
      (Json (Some [Some sample_work_mismatch; Some sample_work]))
      (Json (Some [Some sample_hit])) (λ _, Json sample_payload)
      (lit " me@example.org ") test_title test_last_name ∅)
  = Some 200
  ∧ d_candidate_urls <$>
      discover_paper_requests plain_lower urlparse_ascii same_score
        (Json (Some [Some sample_work_mismatch; Some sample_work]))
        (Json (Some [Some sample_hit])) (λ _, Json sample_payload)
        (lit " me@example.org ") test_title test_last_name
    = Some [lit "https://example.org/paper.pdf";
            lit "https://example.org/file.pdf";
            lit "https://example.org/dup.pdf";
            lit "https://example.org/landing"].
Proof. split; vm_compute; reflexivity. Qed.

(** A [null] among the listed works makes [lookup] raise, for a blank
    title as well. *)
Example lookup_requests_null_entry :
  lookup_requests plain_lower urlparse_ascii same_score sample_env
    (Json (Some [None])) HTTPError (λ _, HTTPError) []
    (lit "     ") (lit "Miller") ∅ = None.
Proof. reflexivity. Qed.
